(** * CoilSnake data blocks: bounds-checked buffer, free-range allocator,
      ROM format detection and expansion.

    Shallow embedding of [coilsnake/data_blocks.py], a Python 2 module.
    Python objects are mutable and an exception leaves every mutation made
    before it in place, so each method is a function from the object's
    state to the state after the call paired with either the returned value
    or the raised exception. *)

From Stdlib Require Import ZArith Lia Bool Sorted.
From Stdlib.Strings Require Import Byte.
From stdpp Require Import base list strings.

Local Open Scope Z_scope.

(** ** Exceptions and the state-and-exception monad *)

Inductive error : Type :=
  | OutOfBoundsError
  | InvalidArgumentError
  | NotEnoughUnallocatedSpaceError
  | ValueNotUnsignedByteError
  | CouldNotAllocateError
  | NotImplementedError
  | IndexError
  | OverflowError
  | TypeError.

Inductive result (A : Type) : Type :=
  | Ok (a : A)
  | Raise (e : error).
Arguments Ok {A} a.
Arguments Raise {A} e.

Definition M (S A : Type) : Type := S -> S * result A.

Definition ret {S A} (a : A) : M S A := fun s => (s, Ok a).
Definition raise {S A} (e : error) : M S A := fun s => (s, Raise e).
Definition bind {S A B} (m : M S A) (k : A -> M S B) : M S B :=
  fun s => match m s with
           | (s', Ok a) => k a s'
           | (s', Raise e) => (s', Raise e)
           end.
Definition gets {S A} (f : S -> A) : M S A := fun s => (s, Ok (f s)).
Definition modify {S} (f : S -> S) : M S unit := fun s => (f s, Ok tt).
Definition lift_result {S A} (r : result A) : M S A := fun s => (s, r).

(** [try: ... except OutOfBoundsError: pass], for a block that returns from
    the enclosing function when it yields [Some v] and falls through to the
    next statement otherwise. *)
Definition try_except_OutOfBounds {S A} (m : M S (option A)) : M S (option A) :=
  fun s => match m s with
           | (s', Raise OutOfBoundsError) => (s', Ok None)
           | r => r
           end.

Declare Scope monad_scope.
Delimit Scope monad_scope with monad.
Notation "'let!' x ':=' m 'in' k" := (bind m (fun x => k))
  (at level 10, x name, m at level 100, k at level 200) : monad_scope.
Notation "m1 ;;; m2" := (bind m1 (fun _ => m2))
  (at level 100, m2 at level 200, right associativity) : monad_scope.
Local Open Scope monad_scope.

(** [for i in xrange(start, start + n): body(i)] *)
Fixpoint for_count {S} (start : Z) (n : nat) (body : Z -> M S unit) : M S unit :=
  match n with
  | O => ret tt
  | S n' => body start ;;; for_count (start + 1) n' body
  end.

Definition for_xrange {S} (lo hi : Z) (body : Z -> M S unit) : M S unit :=
  for_count lo (Z.to_nat (hi - lo)) body.

(** ** Python values: [len], [array.array('B')], list slices *)

Definition len {A} (l : list A) : Z := Z.of_nat (length l).

Definition byte_to_Z (b : byte) : Z := Z.of_N (Byte.to_N b).

(** Storing an integer into an [array.array('B')] raises [OverflowError]
    unless it is an unsigned byte. *)
Definition byte_of_Z (z : Z) : result byte :=
  if (z <? 0) || (0xff <? z) then Raise OverflowError
  else match Byte.of_N (Z.to_N z) with
       | Some b => Ok b
       | None => Raise OverflowError
       end.

(** [array.array('B', item)] for a list of integers. *)
Fixpoint array_of_list (item : list Z) : result (list byte) :=
  match item with
  | [] => Ok []
  | z :: item' =>
    match byte_of_Z z with
    | Raise e => Raise e
    | Ok b => match array_of_list item' with
              | Raise e => Raise e
              | Ok bs => Ok (b :: bs)
              end
    end
  end.

(** Position denoted by an integer subscript of a sequence of length
    [len d]: a negative subscript counts from the end. *)
Definition array_index {A} (d : list A) (key : Z) : option nat :=
  let k := if key <? 0 then key + len d else key in
  if (k <? 0) || (len d <=? k) then None else Some (Z.to_nat k).

(** [d[key]] *)
Definition array_get {A} (d : list A) (key : Z) : result A :=
  match array_index d key with
  | Some i => match d !! i with Some x => Ok x | None => Raise IndexError end
  | None => Raise IndexError
  end.

(** [d[key] = x] *)
Definition array_set {A} (d : list A) (key : Z) (x : A) : result (list A) :=
  match array_index d key with
  | Some i => Ok (<[i:=x]> d)
  | None => Raise IndexError
  end.

(** [d[start:stop]] for [0 <= start <= stop], which every slice reaching
    the array has passed; the slice is clipped to the array. *)
Definition array_slice {A} (d : list A) (start stop : Z) : list A :=
  take (Z.to_nat (stop - start)) (drop (Z.to_nat start) d).

(** [d[start:stop] = item] for [0 <= start <= stop]. *)
Definition array_set_slice {A} (d : list A) (start stop : Z) (item : list A) : list A :=
  take (Z.to_nat start) d ++ item ++ drop (Z.to_nat stop) d.

(** [reduce(f, l)] without an initial value. *)
Definition reduce (f : Z -> Z -> Z) (l : list Z) : result Z :=
  match l with
  | [] => Raise TypeError
  | x :: l' => Ok (fold_left f l' x)
  end.

(** Python 2 has two integer types.  An [int] is a machine word, between
    [-sys.maxint - 1] and [sys.maxint]; an integer literal or the result of
    an [int] operation that does not fit is a [long], and an operation with
    a [long] operand yields a [long] whatever its value.
    [isinstance(x, int)] is false of a [long]. *)
Inductive integer : Type :=
  | PyInt (z : Z)
  | PyLong (z : Z).

Definition value (x : integer) : Z :=
  match x with PyInt z => z | PyLong z => z end.

Definition isinstance_int (x : integer) : bool :=
  match x with PyInt _ => true | PyLong _ => false end.

Section int_arithmetic.

(** [sys.maxint]: [2^31 - 1] or [2^63 - 1], with the width of a C long. *)
Variable maxint : Z.

(** The object that a literal or an [int] operation of value [z] yields. *)
Definition int_result (z : Z) : integer :=
  if (- maxint - 1 <=? z) && (z <=? maxint) then PyInt z else PyLong z.

(** [x + y] *)
Definition integer_add (x y : integer) : integer :=
  match x, y with
  | PyInt a, PyInt b => int_result (a + b)
  | _, _ => PyLong (value x + value y)
  end.

End int_arithmetic.

(** [x & y] *)
Definition integer_and (x y : integer) : integer :=
  match x, y with
  | PyInt a, PyInt b => PyInt (Z.land a b)
  | _, _ => PyLong (Z.land (value x) (value y))
  end.

(** [x >> n] for a literal [n] *)
Definition integer_rshift (x : integer) (n : Z) : integer :=
  match x with
  | PyInt a => PyInt (Z.shiftr a n)
  | PyLong a => PyLong (Z.shiftr a n)
  end.

(** ** [check_range_validity] *)

Definition check_range_validity (range : Z * Z) (size : Z) : result unit :=
  let '(begin, end_) := range in
  if end_ <? begin then Raise InvalidArgumentError
  else if (begin <? 0) || (end_ >=? size) then Raise OutOfBoundsError
  else Ok tt.

(** ** class Block *)

Record Block : Type := mkBlock { data : list byte; size : Z }.

Definition reset : Block := mkBlock [] 0.

Definition from_array (data_array : list byte) : Block :=
  mkBlock data_array (len data_array).

(** [size] is set first; [array.fromlist] leaves the fresh array empty when
    an element is not a byte. *)
Definition from_list (data_list : list Z) : M Block unit := fun _ =>
  match array_of_list data_list with
  | Ok a => (mkBlock a (len data_list), Ok tt)
  | Raise e => (mkBlock [] (len data_list), Raise e)
  end.

Definition to_list (self : Block) : list Z := map byte_to_Z (data self).

(** [self[key]] for an integer [key]: the [isinstance(key, int)] branch,
    and the final [else] for a [long]. *)
Definition getitem (key : integer) : M Block Z := fun self =>
  match key with
  | PyInt key =>
    if key >=? size self then (self, Raise OutOfBoundsError)
    else match array_get (data self) key with
         | Ok b => (self, Ok (byte_to_Z b))
         | Raise e => (self, Raise e)
         end
  | PyLong _ => (self, Raise TypeError)
  end.

(** [self[start:stop]] *)
Definition getitem_slice (start stop : Z) : M Block Block := fun self =>
  if start >? stop then (self, Raise InvalidArgumentError)
  else if (start <? 0) || (stop - 1 >=? size self) then (self, Raise OutOfBoundsError)
  else (self, Ok (from_array (array_slice (data self) start stop))).

(** [self[key] = item] for integers [key] and [item]: the
    [isinstance(key, int) and isinstance(item, int)] branch, and the final
    [else] when either is a [long]. *)
Definition setitem (key item : integer) : M Block unit := fun self =>
  match key, item with
  | PyInt key, PyInt item =>
    if (item <? 0) || (item >? 0xff) then (self, Raise ValueNotUnsignedByteError)
    else if key >=? size self then (self, Raise OutOfBoundsError)
    else match byte_of_Z item with
         | Raise e => (self, Raise e)
         | Ok b => match array_set (data self) key b with
                   | Ok d => (mkBlock d (size self), Ok tt)
                   | Raise e => (self, Raise e)
                   end
         end
  | _, _ => (self, Raise TypeError)
  end.

(** [self[start:stop] = item] for a list [item] *)
Definition setitem_slice (start stop : Z) (item : list Z) : M Block unit := fun self =>
  if start >? stop then (self, Raise InvalidArgumentError)
  else if (start <? 0) || (stop - 1 >=? size self) then (self, Raise OutOfBoundsError)
  else if negb (len item =? stop - start) then (self, Raise InvalidArgumentError)
  else if stop - start =? 0 then (self, Raise InvalidArgumentError)
  else match array_of_list item with
       | Raise e => (self, Raise e)
       | Ok a => (mkBlock (array_set_slice (data self) start stop a) (size self), Ok tt)
       end.

Definition read_multi (key size_ : Z) : M Block Z :=
  if size_ <? 0 then raise InvalidArgumentError
  else if size_ =? 0 then ret 0
  else
    let! sz := gets size in
    if (key <? 0) || (key >=? sz) || (key + size_ >? sz) then raise OutOfBoundsError
    else
      let! sl := getitem_slice key (key + size_) in
      lift_result (reduce (fun x y => Z.lor (Z.shiftl x 8) y) (rev (to_list sl))).

Section write_multi.

(** [sys.maxint] *)
Variable maxint : Z.

(** The [while size > 0] loop of [write_multi]: [n] is the number of
    iterations left.  [item & 0xff] and [item >> 8] of a [long] are
    [long]s, and [key + 1] is a [long] once it passes [sys.maxint]. *)
Fixpoint write_multi_loop (n : nat) (key item : integer) : M Block unit :=
  match n with
  | O => ret tt
  | S n' =>
    setitem key (integer_and item (PyInt 0xff)) ;;;
    write_multi_loop n' (integer_add maxint key (PyInt 1)) (integer_rshift item 8)
  end.

(** [size] is only compared and counted down, and [key] only compared
    before the loop: there an [int] and a [long] of the same value behave
    alike. *)
Definition write_multi (key item : integer) (size_ : Z) : M Block unit :=
  if size_ <? 0 then raise InvalidArgumentError
  else
    let! sz := gets size in
    if (value key <? 0) || (value key >=? sz) || (value key + size_ >? sz)
    then raise OutOfBoundsError
    else if size_ =? 0 then ret tt
    else write_multi_loop (Z.to_nat size_) key item.

End write_multi.

(** ** class AllocatableBlock *)

(** A range is an inclusive pair [(begin, end)]. *)
Abbreviation range := (Z * Z)%type.

Record AllocatableBlock : Type := mkAllocatableBlock {
  block : Block;
  unallocated_ranges : list range
}.

Definition set_ranges (self : AllocatableBlock) (l : list range) : AllocatableBlock :=
  mkAllocatableBlock (block self) l.

(** A [Block] method called on an [AllocatableBlock]. *)
Definition on_block {A} (m : M Block A) : M AllocatableBlock A := fun self =>
  let '(b, r) := m (block self) in (mkAllocatableBlock b (unallocated_ranges self), r).

(** Python compares tuples lexicographically. *)
Definition tuple_le (a b : range) : bool :=
  (a.1 <? b.1) || ((a.1 =? b.1) && (a.2 <=? b.2)).

Fixpoint sort_insert (x : range) (l : list range) : list range :=
  match l with
  | [] => [x]
  | y :: l' => if tuple_le x y then x :: y :: l' else y :: sort_insert x l'
  end.

(** [l.sort()] on a list of pairs of integers. *)
Definition sort (l : list range) : list range := foldr sort_insert [] l.

(** [l.insert(i, x)] for [0 <= i]. *)
Definition list_insert_at {A} (i : nat) (x : A) (l : list A) : list A :=
  take i l ++ x :: drop i l.

Abbreviation outcome := (AllocatableBlock * result unit)%type.

(** The [for i in range(len(self.unallocated_ranges))] loop of
    [mark_allocated]: [i] is the loop index and [k] the number of
    iterations left; [rec] is the recursive call [self.mark_allocated].
    Every branch that mutates the list returns, so the list is the same at
    each iteration. *)
Fixpoint mark_allocated_loop (rec : range -> AllocatableBlock -> option outcome)
    (allocated_begin allocated_end : Z) (i k : nat) (self : AllocatableBlock)
    : option outcome :=
  match k with
  | O => Some (self, Raise CouldNotAllocateError)
  | S k' =>
    let l := unallocated_ranges self in
    match l !! i with
    | None => Some (self, Raise IndexError)
    | Some (begin, end_) =>
      if allocated_begin =? begin then
        if allocated_end <? end_ then
          Some (set_ranges self (<[i := (allocated_end + 1, end_)]> l), Ok tt)
        else if allocated_end =? end_ then
          Some (set_ranges self (delete i l), Ok tt)
        else
          rec (end_ + 1, allocated_end) (set_ranges self (delete i l))
      else if (allocated_begin >? begin) && (allocated_end <=? end_) then
        let l1 := <[i := (begin, allocated_begin - 1)]> l in
        if negb (allocated_end =? end_) then
          Some (set_ranges self (sort (list_insert_at i (allocated_end + 1, end_) l1)), Ok tt)
        else Some (set_ranges self l1, Ok tt)
      else if (allocated_begin >? begin) && (allocated_begin <? end_)
              && (allocated_end >? end_) then
        rec (end_ + 1, allocated_end)
            (set_ranges self (<[i := (begin, allocated_begin - 1)]> l))
      else mark_allocated_loop rec allocated_begin allocated_end (S i) k' self
    end
  end.

(** [mark_allocated] with a bound on the depth of the recursion; [None]
    when the bound is reached. *)
Fixpoint mark_allocated_fuel (fuel : nat) (used_range : range) (self : AllocatableBlock)
    : option outcome :=
  match fuel with
  | O => None
  | S fuel' =>
    match check_range_validity used_range (size (block self)) with
    | Raise e => Some (self, Raise e)
    | Ok _ =>
      let '(allocated_begin, allocated_end) := used_range in
      mark_allocated_loop (mark_allocated_fuel fuel') allocated_begin allocated_end
        0%nat (length (unallocated_ranges self)) self
    end
  end.

(** A depth that the recursion never reaches (see
    [mark_allocated_fuel_enough]): each recursive call either deletes an
    entry or keeps the list and moves the start of the range up. *)
Definition mark_allocated_depth (self : AllocatableBlock) : nat :=
  S (Z.to_nat (size (block self)) * S (length (unallocated_ranges self))).

Definition mark_allocated (used_range : range) (self : AllocatableBlock) : option outcome :=
  mark_allocated_fuel (mark_allocated_depth self) used_range self.

Definition is_unallocated (range_ : range) : M AllocatableBlock bool := fun self =>
  match check_range_validity range_ (size (block self)) with
  | Raise e => (self, Raise e)
  | Ok _ =>
    let '(search_begin, search_end) := range_ in
    (self, Ok (existsb (fun '(begin, end_) =>
                          (search_begin >=? begin) && (search_end <=? end_))
                       (unallocated_ranges self)))
  end.

Definition is_allocated (range_ : range) : M AllocatableBlock bool :=
  let! u := is_unallocated range_ in ret (negb u).

Definition deallocate (range_ : range) : M AllocatableBlock unit := fun self =>
  match check_range_validity range_ (size (block self)) with
  | Raise e => (self, Raise e)
  | Ok _ => (set_ranges self (sort (unallocated_ranges self ++ [range_])), Ok tt)
  end.

(** The search loop of [allocate]; yields [allocated_range]. *)
Fixpoint allocate_loop (size_ : Z) (can_write_to : option (Z -> bool)) (i k : nat)
    : M AllocatableBlock (option range) := fun self =>
  match k with
  | O => (self, Ok None)
  | S k' =>
    let l := unallocated_ranges self in
    match l !! i with
    | None => (self, Raise IndexError)
    | Some (begin, end_) =>
      if size_ <=? end_ - begin + 1 then
        if match can_write_to with
           | Some p => negb (p begin)
           | None => false
           end
        then allocate_loop size_ can_write_to (S i) k' self
        else
          let l' := if begin + size_ - 1 =? end_ then delete i l
                    else <[i := (begin + size_, end_)]> l in
          (set_ranges self l', Ok (Some (begin, begin + size_ - 1)))
      else allocate_loop size_ can_write_to (S i) k' self
    end
  end.

(** [allocate] from the point where [size] has its final value. *)
Definition allocate_sized (data_ : option (list Z)) (size_ : Z)
    (can_write_to : option (Z -> bool)) : M AllocatableBlock Z :=
  if size_ <=? 0 then raise InvalidArgumentError
  else
    let! n := gets (fun self => length (unallocated_ranges self)) in
    let! allocated_range := allocate_loop size_ can_write_to 0%nat n in
    match allocated_range with
    | None => raise NotEnoughUnallocatedSpaceError
    | Some (a0, a1) =>
      match data_ with
      | Some d => on_block (setitem_slice a0 (a1 + 1) d)
      | None => ret tt
      end ;;;
      ret a0
    end.

Definition allocate (data_ : option (list Z)) (size_ : option Z)
    (can_write_to : option (Z -> bool)) : M AllocatableBlock Z :=
  match data_, size_ with
  | None, None => raise InvalidArgumentError
  | Some d, None => allocate_sized data_ (len d) can_write_to
  | Some d, Some s =>
    if negb (s =? len d) then raise InvalidArgumentError
    else allocate_sized data_ s can_write_to
  | None, Some s => allocate_sized data_ s can_write_to
  end.

(** ** class Rom *)

(** An entry of [ROM_TYPE_MAP], the table read from [romtypes.yml]; the
    table itself is an argument of the functions that consult it, in the
    order in which [iteritems] yields its entries. *)
Record descriptor : Type := mkDescriptor {
  d_offset : Z;
  d_data : list Z;
  d_platform : string
}.

Definition ROM_TYPE_NAME_UNKNOWN : string := "Unknown".

Record Rom : Type := mkRom {
  ablock : AllocatableBlock;
  type : string
}.

Definition on_ablock {A} (m : M AllocatableBlock A) : M Rom A := fun self =>
  let '(b, r) := m (ablock self) in (mkRom b (type self), r).

Definition on_rom_block {A} (m : M Block A) : M Rom A := on_ablock (on_block m).

Definition rom_data (self : Rom) : list byte := data (block (ablock self)).
Definition rom_size (self : Rom) : Z := size (block (ablock self)).

Definition with_block (f : Block -> Block) (self : Rom) : Rom :=
  mkRom (mkAllocatableBlock (f (block (ablock self))) (unallocated_ranges (ablock self)))
        (type self).

Fixpoint list_eqb (l1 l2 : list Z) : bool :=
  match l1, l2 with
  | [], [] => true
  | x :: l1', y :: l2' => (x =? y) && list_eqb l1' l2'
  | _, _ => false
  end.

(** The condition of the SNES probes of [_detect_type]:
    [(~self[a] & 0xff == self[b]) and (~self[c] & 0xff == self[d])
     and (self[offset:offset + len(data)].to_list() == data)],
    evaluated left to right with short-circuiting [and]; [a], [b], [c]
    and [d] are literals of the source, all [int]s. *)
Definition probe (a b c d : Z) (offset : Z) (data_ : list Z) : M Block bool :=
  let! xa := getitem (PyInt a) in
  let! xb := getitem (PyInt b) in
  if negb (Z.land (Z.lnot xa) 0xff =? xb) then ret false
  else
    let! xc := getitem (PyInt c) in
    let! xd := getitem (PyInt d) in
    if negb (Z.land (Z.lnot xc) 0xff =? xd) then ret false
    else
      let! sl := getitem_slice offset (offset + len data_) in
      ret (list_eqb (to_list sl) data_).

(** Which [return] statement of [_detect_type] produced the result. *)
Inductive variant : Type :=
  | UnheaderedHiROM
  | UnheaderedLoROM
  | HeaderedHiROM
  | HeaderedLoROM
  | Generic
  | NoMatch.

(** [self.data = self.data[0x200:]; self.size -= 0x200] *)
Definition remove_header (b : Block) : Block :=
  mkBlock (drop (Z.to_nat 0x200) (data b)) (size b - 0x200).

(** One [try: if ...: return type_name / except OutOfBoundsError: pass]
    block; [strip] tells whether the header is removed before returning. *)
Definition try_probe (a b c d : Z) (offset : Z) (data_ : list Z) (strip : bool)
    (type_name : string) (v : variant) : M Rom (option (string * variant)) :=
  try_except_OutOfBounds
    (let! hit := on_rom_block (probe a b c d offset data_) in
     if hit then
       (if strip then modify (with_block remove_header) else ret tt) ;;;
       ret (Some (type_name, v))
     else ret None).

(** The body of the loop of [_detect_type] for one table entry. *)
Definition detect_entry (type_name : string) (d : descriptor)
    : M Rom (option (string * variant)) :=
  let offset := d_offset d in
  let data_ := d_data d in
  if String.eqb (d_platform d) "SNES" then
    let! r := try_probe 0xffdc 0xffde 0xffdd 0xffdf offset data_ false
                        type_name UnheaderedHiROM in
    match r with Some x => ret (Some x) | None =>
    let! r := try_probe 0x7fdc 0x7fde 0x7fdd 0x7fdf offset data_ false
                        type_name UnheaderedLoROM in
    match r with Some x => ret (Some x) | None =>
    let! r := try_probe 0x101dc 0x101de 0x101dd 0x101df (offset + 0x200) data_ true
                        type_name HeaderedHiROM in
    match r with Some x => ret (Some x) | None =>
    try_probe 0x81dc 0x81de 0x81dd 0x81df (offset + 0x200) data_ true
              type_name HeaderedLoROM
    end end end
  else
    try_except_OutOfBounds
      (let! sl := on_rom_block (getitem_slice offset (offset + len data_)) in
       if list_eqb (to_list sl) data_ then ret (Some (type_name, Generic))
       else ret None).

(** [_detect_type], with the [return] statement that was taken. *)
Fixpoint detect_type_variant (ROM_TYPE_MAP : list (string * descriptor))
    : M Rom (string * variant) :=
  match ROM_TYPE_MAP with
  | [] => ret (ROM_TYPE_NAME_UNKNOWN, NoMatch)
  | (type_name, d) :: rest =>
    let! r := detect_entry type_name d in
    match r with
    | Some x => ret x
    | None => detect_type_variant rest
    end
  end.

Definition _detect_type (ROM_TYPE_MAP : list (string * descriptor)) : M Rom string :=
  let! r := detect_type_variant ROM_TYPE_MAP in ret r.1.

(** [self.data.fromlist([0] * n); self.size += n] *)
Definition append_zeros (n : Z) (b : Block) : Block :=
  mkBlock (data b ++ replicate (Z.to_nat n) x00%byte) (size b + n).

(** The subscripts of [expand] are literals, elements of [xrange] and
    their sums, at most [0x40ffff]: [int]s whatever [sys.maxint] is, as are
    the bytes read from the array. *)
Definition expand (desired_size : Z) : M Rom unit :=
  let! ty := gets type in
  if String.eqb ty "Earthbound" then
    if negb (desired_size =? 0x400000) && negb (desired_size =? 0x600000) then
      raise InvalidArgumentError
    else
      let! sz := gets rom_size in
      (if sz =? 0x300000 then modify (with_block (append_zeros 0x100000)) else ret tt) ;;;
      let! sz := gets rom_size in
      if (desired_size =? 0x600000) && (sz =? 0x400000) then
        on_rom_block (setitem (PyInt 0x00ffd5) (PyInt 0x25)) ;;;
        on_rom_block (setitem (PyInt 0x00ffd7) (PyInt 0x0d)) ;;;
        modify (with_block (append_zeros 0x200000)) ;;;
        for_xrange 0x8000 (0x8000 + 0x8000) (fun i =>
          let! x := on_rom_block (getitem (PyInt i)) in
          on_rom_block (setitem (PyInt (0x400000 + i)) (PyInt x)))
      else ret tt
  else raise NotImplementedError.

(** ** Remaining methods *)

(** [__len__] *)
Definition block_len (self : Block) : Z := size self.

(** [a == b] on two arrays of bytes. *)
Fixpoint array_eqb (a b : list byte) : bool :=
  match a, b with
  | [], [] => true
  | x :: a', y :: b' => Byte.eqb x y && array_eqb a' b'
  | _, _ => false
  end.

(** [__eq__] between two blocks of the same class: only the arrays are
    compared. *)
Definition block_eq (self other : Block) : bool :=
  array_eqb (data self) (data other).

(** [__ne__] *)
Definition block_ne (self other : Block) : bool := negb (block_eq self other).

(** [Rom.add_header] *)
Definition add_header : M Rom unit :=
  let! ty := gets type in
  if String.eqb ty "Earthbound" then
    for_xrange 0 0x200 (fun _ =>
      modify (with_block (fun b => mkBlock (x00%byte :: data b) (size b)))) ;;;
    modify (with_block (fun b => mkBlock (data b) (size b + 0x200)))
  else raise NotImplementedError.

(** * Specification vocabulary *)

(** A free range qualifies for a request when it is long enough and its
    begin passes the placement predicate. *)
Definition qualifies (size_ : Z) (can_write_to : option (Z -> bool)) (r : range) : bool :=
  (size_ <=? r.2 - r.1 + 1) &&
  match can_write_to with Some p => p r.1 | None => true end.

(** The free-range list after the range [(b, e)] between [pre] and [post]
    has served a request of [size_] bytes. *)
Definition shrink_front (size_ : Z) (pre : list range) (b e : Z) (post : list range)
    : list range :=
  pre ++ (if b + size_ - 1 =? e then post else (b + size_, e) :: post).

Definition sorted_by_begin (l : list range) : Prop :=
  StronglySorted (fun r1 r2 => r1.1 <= r2.1) l.

(** The size a request asks for: [size] when it is given, [len(data)]
    otherwise. *)
Definition effective_size (data_ : option (list Z)) (size_ : option Z) : option Z :=
  match size_ with
  | Some s => Some s
  | None => match data_ with Some d => Some (len d) | None => None end
  end.

(** The arguments that the specification calls invalid. *)
Definition invalid_request (data_ : option (list Z)) (size_ : option Z) : Prop :=
  (data_ = None /\ size_ = None) \/
  (exists d s, data_ = Some d /\ size_ = Some s /\ s <> len d) \/
  (exists n, effective_size data_ size_ = Some n /\ n <= 0).

(** A block whose [size] attribute is the length of its array, as every
    constructor and mutator of the class keeps it. *)
Definition block_wf (b : Block) : Prop := len (data b) = size b.

(** The bytes of [v], least significant first, that [write_multi] stores
    for a width of [n]. *)
Fixpoint le_bytes (n : nat) (v : Z) : list Z :=
  match n with
  | O => []
  | S n' => Z.land v 0xff :: le_bytes n' (Z.shiftr v 8)
  end.

(** The integer that [read_multi] assembles from bytes given least
    significant first. *)
Definition le_value (l : list Z) : Z :=
  foldr (fun y acc => Z.lor (Z.shiftl acc 8) y) 0 l.

(** A range as the data model has it: [begin <= end]. *)
Definition valid_range (r : range) : Prop := r.1 <= r.2.

(** Two ranges neither overlap nor touch: at least one byte lies between
    them. *)
Definition no_touch (r1 r2 : range) : Prop := r1.2 + 1 < r2.1 \/ r2.2 + 1 < r1.1.

(** Two ranges have no byte in common. *)
Definition no_overlap (r1 r2 : range) : Prop := r1.2 < r2.1 \/ r2.2 < r1.1.

(** The free-range set of the data model: ranges sorted ascending by
    begin, no two of which touch or overlap. *)
Definition free_set_wf (l : list range) : Prop :=
  Forall valid_range l /\ sorted_by_begin l /\ ForallOrdPairs no_touch l.

(** The same invariant in the form the proofs use: every range ends at
    least two bytes before each later range begins. *)
Fixpoint gapped (l : list range) : Prop :=
  match l with
  | [] => True
  | r :: l' => valid_range r /\ Forall (fun r' => r.2 + 1 < r'.1) l' /\ gapped l'
  end.

(** [r] lies wholly inside the free range [f]. *)
Definition inside (r f : range) : Prop := f.1 <= r.1 /\ r.2 <= f.2.

(** No entry of [l] holds the whole range [r]. *)
Definition misses (r : range) (l : list range) : Prop :=
  Forall (fun f => ~ inside r f) l.

(** The loop of [mark_allocated] seen from the entry it is looking at:
    [pre] are the entries already passed, [rest] those still to visit. *)
Fixpoint mark_scan (rec : range -> AllocatableBlock -> option outcome)
    (ab ae : Z) (pre rest : list range) (self : AllocatableBlock) : option outcome :=
  match rest with
  | [] => Some (self, Raise CouldNotAllocateError)
  | (b, e) :: post =>
    if ab =? b then
      if ae <? e then Some (set_ranges self (pre ++ (ae + 1, e) :: post), Ok tt)
      else if ae =? e then Some (set_ranges self (pre ++ post), Ok tt)
      else rec (e + 1, ae) (set_ranges self (pre ++ post))
    else if (ab >? b) && (ae <=? e) then
      if negb (ae =? e) then
        Some (set_ranges self (sort (pre ++ (ae + 1, e) :: (b, ab - 1) :: post)), Ok tt)
      else Some (set_ranges self (pre ++ (b, ab - 1) :: post), Ok tt)
    else if (ab >? b) && (ab <? e) && (ae >? e) then
      rec (e + 1, ae) (set_ranges self (pre ++ (b, ab - 1) :: post))
    else mark_scan rec ab ae (pre ++ [(b, e)]) post self
  end.

(** Depth of recursion that [mark_allocated] can still need on a range
    that has passed the validity check. *)
Definition mark_measure (self : AllocatableBlock) (r : range) : nat :=
  match check_range_validity r (size (block self)) with
  | Ok _ => length (unallocated_ranges self) * Z.to_nat (size (block self))
            + Z.to_nat (size (block self) - r.1)
  | Raise _ => 0
  end.

(** The buffer of a [Rom]. *)
Definition rom_block (self : Rom) : Block := block (ablock self).

(** The [Rom] with its buffer replaced. *)
Definition set_block (b : Block) (self : Rom) : Rom := with_block (fun _ => b) self.

(** The two [return] statements of [_detect_type] that follow a header
    removal. *)
Definition headered (v : variant) : Prop := v = HeaderedHiROM \/ v = HeaderedLoROM.

(** A ROM image laid out as a headered LoROM cartridge whose signature
    bytes [1, 2] follow the header. *)
Definition headered_lorom_example : Rom :=
  mkRom (mkAllocatableBlock
           (mkBlock (replicate (Z.to_nat 0x200) x00 ++ [x01; x02]
                     ++ replicate (Z.to_nat (0x81dc - 0x202)) x00
                     ++ [x00; x00; xff; xff])%byte
                    0x81e0) [])
        ROM_TYPE_NAME_UNKNOWN.

Definition example_type_map : list (string * descriptor) :=
  [("Earthbound"%string, mkDescriptor 0 [1; 2] "SNES")].

(** The array of an Earthbound ROM of [0x300000] bytes after [expand] has
    grown it to [0x600000] bytes and patched the two control bytes, before
    the mirroring loop runs. *)
Definition expanded_base (d : list byte) : list byte :=
  <[Z.to_nat 0x00ffd7 := x0d%byte]>
    (<[Z.to_nat 0x00ffd5 := x25%byte]> (d ++ replicate (Z.to_nat 0x100000) x00%byte))
  ++ replicate (Z.to_nat 0x200000) x00%byte.

(** An Earthbound ROM of [0x300000] bytes whose first byte is [1]. *)
Definition earthbound_example : Rom :=
  mkRom (mkAllocatableBlock
           (mkBlock (x01%byte :: replicate (Z.to_nat (0x300000 - 1)) x00%byte) 0x300000) [])
        "Earthbound".

(** An integer that fits an unsigned byte. *)
Definition is_byte (z : Z) : Prop := 0 <= z <= 255.

(** The order of Python tuples, as a relation. *)
Definition tuple_le_prop (a b : range) : Prop := tuple_le a b = true.

(** Byte [x] lies in some entry of the free list [l]. *)
Definition free_byte (l : list range) (x : Z) : Prop :=
  exists f, f ∈ l /\ f.1 <= x <= f.2.

(** What is left of the free entry [(b, e)] once the range [(ab, ae)]
    inside it is taken out: the part before and the part after. *)
Definition remnants (b e ab ae : Z) : list range :=
  (if b <? ab then [(b, ab - 1)] else []) ++ (if ae <? e then [(ae + 1, e)] else []).


(** [~self[a] & 0xff == self[b]] holds, both offsets being inside the
    array. *)
Definition complement_at (blk : Block) (a b : Z) : bool :=
  match data blk !! Z.to_nat a, data blk !! Z.to_nat b with
  | Some x, Some y => Z.land (Z.lnot (byte_to_Z x)) 0xff =? byte_to_Z y
  | _, _ => false
  end.

(** The signature bytes [data_] lie at [offset], inside the buffer. *)
Definition signature_at (blk : Block) (offset : Z) (data_ : list Z) : bool :=
  (0 <=? offset) && (offset + len data_ <=? size blk)
  && list_eqb (map byte_to_Z (array_slice (data blk) offset (offset + len data_))) data_.

(** The bytes one SNES probe asks for: two complement pairs and the
    signature. *)
Definition snes_layout (blk : Block) (a b c d offset : Z) (data_ : list Z) : bool :=
  complement_at blk a b && complement_at blk c d && signature_at blk offset data_.

(** The first layout of the entry's platform that the bytes of the buffer
    show, in the order in which [_detect_type] looks for them. *)
Definition entry_match (d : descriptor) (blk : Block) : option variant :=
  if String.eqb (d_platform d) "SNES" then
    if snes_layout blk 0xffdc 0xffde 0xffdd 0xffdf (d_offset d) (d_data d)
    then Some UnheaderedHiROM
    else if snes_layout blk 0x7fdc 0x7fde 0x7fdd 0x7fdf (d_offset d) (d_data d)
    then Some UnheaderedLoROM
    else if snes_layout blk 0x101dc 0x101de 0x101dd 0x101df (d_offset d + 0x200) (d_data d)
    then Some HeaderedHiROM
    else if snes_layout blk 0x81dc 0x81de 0x81dd 0x81df (d_offset d + 0x200) (d_data d)
    then Some HeaderedLoROM
    else None
  else if signature_at blk (d_offset d) (d_data d) then Some Generic
  else None.

(** The first entry of the table one of whose layouts the buffer shows,
    with that layout. *)
Fixpoint first_match (table : list (string * descriptor)) (blk : Block)
    : option (string * variant) :=
  match table with
  | [] => None
  | (type_name, d) :: rest =>
    match entry_match d blk with
    | Some v => Some (type_name, v)
    | None => first_match rest blk
    end
  end.

(** A table of two entries: a console other than the SNES, then the
    Earthbound entry. *)
Definition two_entry_type_map : list (string * descriptor) :=
  [("Other"%string, mkDescriptor 0x200 [9; 9] "generic");
   ("Earthbound"%string, mkDescriptor 0 [1; 2] "SNES")].

(** * Properties *)

(** ** ByteBlock: single-byte access *)

Lemma byte_to_Z_range b : 0 <= byte_to_Z b <= 255.
Proof.
  unfold byte_to_Z. pose proof (Byte.to_N_bounded b). lia.
Qed.

Lemma byte_of_to_Z b : byte_of_Z (byte_to_Z b) = Ok b.
Proof.
  unfold byte_of_Z. pose proof (byte_to_Z_range b).
  destruct (Z.ltb_spec (byte_to_Z b) 0); [lia|].
  destruct (Z.ltb_spec 255 (byte_to_Z b)); [lia|]. simpl.
  unfold byte_to_Z. rewrite N2Z.id, Byte.of_to_N. reflexivity.
Qed.

Lemma byte_of_Z_ok z :
  0 <= z <= 255 -> exists b, byte_of_Z z = Ok b /\ byte_to_Z b = z.
Proof.
  intros Hz. unfold byte_of_Z.
  destruct (Z.ltb_spec z 0); [lia|].
  destruct (Z.ltb_spec 255 z); [lia|]. simpl.
  destruct (Byte.of_N (Z.to_N z)) as [b|] eqn:Hb.
  - exists b. split; [reflexivity|].
    apply Byte.to_of_N in Hb. unfold byte_to_Z. rewrite Hb. lia.
  - apply Byte.of_N_None_iff in Hb. lia.
Qed.

Lemma array_index_nonneg {A} (d : list A) key :
  0 <= key -> key < len d -> array_index d key = Some (Z.to_nat key).
Proof.
  intros H0 H1. unfold array_index.
  destruct (Z.ltb_spec key 0); [lia|].
  destruct (Z.ltb_spec key 0); [lia|].
  destruct (Z.leb_spec (len d) key); [lia|]. reflexivity.
Qed.

Lemma array_get_nonneg {A} (d : list A) key :
  0 <= key -> key < len d ->
  exists x, d !! Z.to_nat key = Some x /\ array_get d key = Ok x.
Proof.
  intros H0 H1. unfold array_get. rewrite array_index_nonneg by assumption.
  destruct (lookup_lt_is_Some_2 d (Z.to_nat key)) as [x Hx].
  { unfold len in H1. lia. }
  exists x. rewrite Hx. auto.
Qed.

Lemma getitem_in_bounds blk key :
  block_wf blk -> 0 <= key < size blk ->
  exists b, data blk !! Z.to_nat key = Some b /\
            getitem (PyInt key) blk = (blk, Ok (byte_to_Z b)).
Proof.
  intros Hwf Hk. unfold getitem.
  destruct (Z.geb_spec key (size blk)); [lia|].
  destruct (array_get_nonneg (data blk) key) as (b & Hb & ->);
    [lia | unfold block_wf in Hwf; lia |].
  exists b. auto.
Qed.

Lemma setitem_in_bounds blk key item :
  block_wf blk -> 0 <= key < size blk -> 0 <= item <= 255 ->
  exists b, byte_to_Z b = item /\
            setitem (PyInt key) (PyInt item) blk = (mkBlock (<[Z.to_nat key := b]> (data blk)) (size blk), Ok tt).
Proof.
  intros Hwf Hk Hi. unfold setitem.
  destruct (Z.ltb_spec item 0); [lia|].
  destruct (Z.gtb_spec item 255); [lia|]. simpl.
  destruct (Z.geb_spec key (size blk)); [lia|].
  destruct (byte_of_Z_ok item Hi) as (b & -> & Hb).
  unfold array_set. rewrite array_index_nonneg by (unfold block_wf in Hwf; lia).
  exists b. auto.
Qed.

(** For offsets that are not negative, single-byte reads and writes raise
    [OutOfBoundsError] exactly outside [[0, size)]. *)
Lemma getitem_nonneg_out_of_bounds blk key :
  block_wf blk -> 0 <= key ->
  ((getitem (PyInt key) blk).2 = Raise OutOfBoundsError <-> ~ (0 <= key < size blk)).
Proof.
  intros Hwf Hk. split.
  - intros Hr [_ Hlt].
    destruct (getitem_in_bounds blk key Hwf (conj Hk Hlt)) as (b & _ & Heq).
    rewrite Heq in Hr. discriminate.
  - intros Hn. unfold getitem. destruct (Z.geb_spec key (size blk)); [reflexivity|lia].
Qed.

Lemma setitem_nonneg_out_of_bounds blk key item :
  block_wf blk -> 0 <= key -> 0 <= item <= 255 ->
  ((setitem (PyInt key) (PyInt item) blk).2 = Raise OutOfBoundsError <-> ~ (0 <= key < size blk)).
Proof.
  intros Hwf Hk Hi. split.
  - intros Hr [_ Hlt].
    destruct (setitem_in_bounds blk key item Hwf (conj Hk Hlt) Hi) as (b & _ & Heq).
    rewrite Heq in Hr. discriminate.
  - intros Hn. unfold setitem.
    destruct (Z.ltb_spec item 0); [lia|].
    destruct (Z.gtb_spec item 255); [lia|]. simpl.
    destruct (Z.geb_spec key (size blk)); [reflexivity|lia].
Qed.

(** A negative offset down to [-size] is not rejected: it reaches the byte
    that many places from the end. *)
Lemma getitem_negative blk key :
  block_wf blk -> - size blk <= key < 0 ->
  exists b, data blk !! Z.to_nat (size blk + key) = Some b /\
            getitem (PyInt key) blk = (blk, Ok (byte_to_Z b)).
Proof.
  intros Hwf Hk. unfold getitem, block_wf in *.
  destruct (Z.geb_spec key (size blk)); [lia|].
  unfold array_get, array_index.
  destruct (Z.ltb_spec key 0); [|lia].
  destruct (Z.ltb_spec (key + len (data blk)) 0); [lia|].
  destruct (Z.leb_spec (len (data blk)) (key + len (data blk))); [lia|]. simpl.
  destruct (lookup_lt_is_Some_2 (data blk) (Z.to_nat (key + len (data blk)))) as [x Hx].
  { unfold len in *. lia. }
  rewrite Hx. exists x. split; [|reflexivity].
  rewrite <- Hx. f_equal. lia.
Qed.

(** C6. Code and claim part ways on negative offsets: on the two-byte
    block built from the list [[7, 9]], reading offset [-1] returns [9] and
    writing [5] at offset [-1] overwrites the last byte, where the claim
    has both raise [OutOfBoundsError]; offsets at or past [size] are
    rejected as claimed. *)
Theorem getitem_setitem_negative_offset :
  let blk := (from_list [7; 9] reset).1 in
  from_list [7; 9] reset = (mkBlock [x07; x09]%byte 2, Ok tt) /\
  getitem (PyInt (-1)) blk = (blk, Ok 9) /\
  setitem (PyInt (-1)) (PyInt 5) blk = (mkBlock [x07; x05]%byte 2, Ok tt) /\
  getitem (PyInt 2) blk = (blk, Raise OutOfBoundsError) /\
  setitem (PyInt 2) (PyInt 5) blk = (blk, Raise OutOfBoundsError).
Proof.
  repeat split.
Qed.

(** ** ByteBlock: multi-byte integers *)

(** Both subscripts of a single-byte write must be [int]s. *)
Lemma setitem_long key item blk :
  isinstance_int key && isinstance_int item = false ->
  setitem key item blk = (blk, Raise TypeError).
Proof.
  destruct key, item; simpl; try discriminate; reflexivity.
Qed.

Lemma int_result_int maxint z :
  - maxint - 1 <= z <= maxint -> int_result maxint z = PyInt z.
Proof.
  intros Hz. unfold int_result.
  destruct (Z.leb_spec (- maxint - 1) z); [|lia].
  destruct (Z.leb_spec z maxint); [|lia]. reflexivity.
Qed.

Lemma int_result_long maxint z :
  maxint < z -> int_result maxint z = PyLong z.
Proof.
  intros Hz. unfold int_result.
  destruct (Z.leb_spec z maxint); [lia|]. rewrite andb_false_r. reflexivity.
Qed.

(** The first iteration of the loop already fails on a [long]. *)
Lemma write_multi_loop_long maxint n key item blk :
  isinstance_int key && isinstance_int item = false ->
  write_multi_loop maxint (S n) key item blk = (blk, Raise TypeError).
Proof.
  intros Ht. cbn [write_multi_loop]. unfold bind.
  rewrite setitem_long; [reflexivity|].
  destruct key, item; simpl in *; try discriminate; reflexivity.
Qed.

Lemma write_multi_loop_slice maxint n : forall key item blk,
  block_wf blk -> 0 <= key -> key + Z.of_nat n <= size blk -> size blk <= maxint ->
  exists d',
    write_multi_loop maxint n (PyInt key) (PyInt item) blk = (mkBlock d' (size blk), Ok tt) /\
    length d' = length (data blk) /\
    take (Z.to_nat key) d' = take (Z.to_nat key) (data blk) /\
    drop (Z.to_nat key + n) d' = drop (Z.to_nat key + n) (data blk) /\
    map byte_to_Z (take n (drop (Z.to_nat key) d')) = le_bytes n item.
Proof.
  induction n as [|n IH]; intros key item blk Hwf Hk Hn Hmax.
  - exists (data blk). destruct blk. simpl. repeat split; auto.
  - cbn [write_multi_loop integer_and integer_rshift integer_add]. unfold bind.
    rewrite int_result_int by lia.
    assert (Hb : 0 <= Z.land item 255 <= 255).
    { change (Z.land item 255) with (Z.land item (Z.ones 8)).
      rewrite Z.land_ones by lia. change (2 ^ 8) with 256.
      pose proof (Z.mod_pos_bound item 256). lia. }
    assert (Hkb : 0 <= key < size blk) by lia.
    destruct (setitem_in_bounds blk key (Z.land item 255) Hwf Hkb Hb)
      as (b & Hbz & ->).
    set (blk1 := mkBlock (<[Z.to_nat key := b]> (data blk)) (size blk)).
    assert (Hwf1 : block_wf blk1).
    { unfold block_wf, blk1, len in *. simpl. rewrite length_insert. exact Hwf. }
    destruct (IH (key + 1) (Z.shiftr item 8) blk1 Hwf1) as (d' & -> & Hlen & Htake & Hdrop & Hmap).
    { lia. } { simpl. lia. } { exact Hmax. }
    simpl in Hlen, Htake, Hdrop. rewrite length_insert in Hlen.
    replace (Z.to_nat (key + 1)) with (S (Z.to_nat key)) in * by lia.
    assert (Hlt : (Z.to_nat key < length (data blk))%nat).
    { unfold block_wf, len in Hwf. lia. }
    assert (Hkey : d' !! Z.to_nat key = Some b).
    { rewrite <- (lookup_take_lt d' (S (Z.to_nat key))) by lia.
      rewrite Htake, lookup_take_lt by lia.
      apply list_lookup_insert_eq. exact Hlt. }
    exists d'. simpl. repeat split.
    + exact Hlen.
    + assert (Hmin : forall l : list byte,
                take (Z.to_nat key) (take (S (Z.to_nat key)) l) = take (Z.to_nat key) l).
      { intros l. rewrite take_take. f_equal. lia. }
      rewrite <- (Hmin d'), Htake, Hmin. apply take_insert_ge. lia.
    + replace (Z.to_nat key + S n)%nat with (S (Z.to_nat key) + n)%nat by lia.
      rewrite Hdrop. apply drop_insert_lt. lia.
    + rewrite (drop_S _ _ _ Hkey). simpl. rewrite Hbz, Hmap. reflexivity.
Qed.

Lemma reduce_rev_le_value (l : list Z) :
  l <> [] ->
  reduce (fun x y => Z.lor (Z.shiftl x 8) y) (rev l) = Ok (le_value l).
Proof.
  intros Hne. destruct (rev l) as [|x l'] eqn:Hrev.
  - apply (f_equal (@rev Z)) in Hrev. rewrite rev_involutive in Hrev. contradiction.
  - simpl. f_equal.
    assert (Hl : l = rev l' ++ [x]).
    { rewrite <- (rev_involutive l), Hrev. reflexivity. }
    rewrite Hl. unfold le_value. rewrite foldr_app. simpl.
    rewrite Z.shiftl_0_l, Z.lor_0_l.
    rewrite fold_left_rev_right. reflexivity.
Qed.




(** ** RangeAllocator: [allocate] *)

Lemma first_qualifying (q : range -> bool) (l : list range) :
  Forall (fun r => q r = false) l \/
  exists pre x post, l = pre ++ x :: post /\ Forall (fun r => q r = false) pre /\ q x = true.
Proof.
  induction l as [|x l IH].
  - left. constructor.
  - destruct (q x) eqn:Hq.
    + right. exists [], x, l. repeat split; auto.
    + destruct IH as [IH | (pre & y & post & -> & Hpre & Hy)].
      * left. constructor; assumption.
      * right. exists (x :: pre), y, post. repeat split; auto.
Qed.

Lemma allocate_loop_none size_ p self rest : forall pre,
  unallocated_ranges self = pre ++ rest ->
  Forall (fun r => qualifies size_ p r = false) rest ->
  allocate_loop size_ p (length pre) (length rest) self = (self, Ok None).
Proof.
  induction rest as [|[b e] rest IH]; intros pre Hl Hq; simpl; [reflexivity|].
  rewrite Hl, list_lookup_middle by reflexivity.
  inversion Hq as [|? ? Hx Hrest]; subst.
  specialize (IH (pre ++ [(b, e)])).
  rewrite length_app, Nat.add_1_r in IH.
  rewrite <- app_assoc in IH. specialize (IH Hl Hrest).
  unfold qualifies in Hx; simpl in Hx.
  destruct (size_ <=? e - b + 1); simpl in Hx; [|exact IH].
  destruct p as [p|]; [|discriminate]. rewrite Hx. simpl. exact IH.
Qed.

Lemma allocate_loop_found size_ p self mid : forall pre b e post,
  unallocated_ranges self = pre ++ mid ++ (b, e) :: post ->
  Forall (fun r => qualifies size_ p r = false) mid ->
  qualifies size_ p (b, e) = true ->
  allocate_loop size_ p (length pre) (length (mid ++ (b, e) :: post)) self
  = (set_ranges self (shrink_front size_ (pre ++ mid) b e post),
     Ok (Some (b, b + size_ - 1))).
Proof.
  induction mid as [|[b' e'] mid IH]; intros pre b e post Hl Hq Hx; simpl.
  - simpl in Hl. rewrite Hl, list_lookup_middle by reflexivity.
    unfold qualifies in Hx; simpl in Hx.
    apply andb_true_iff in Hx as [Hx1 Hx2]. rewrite Hx1.
    replace (match p with Some p0 => negb (p0 b) | None => false end) with false
      by (destruct p; [rewrite Hx2|]; reflexivity).
    unfold shrink_front. rewrite app_nil_r.
    destruct (b + size_ - 1 =? e).
    + rewrite delete_middle. reflexivity.
    + rewrite insert_app_r_alt, Nat.sub_diag by lia. reflexivity.
  - simpl in Hl. rewrite Hl, list_lookup_middle by reflexivity.
    inversion Hq as [|? ? Hx' Hrest]; subst.
    specialize (IH (pre ++ [(b', e')]) b e post).
    rewrite length_app, Nat.add_1_r in IH.
    rewrite <- !app_assoc in IH. simpl in IH. specialize (IH Hl Hrest Hx).
    unfold qualifies in Hx'; simpl in Hx'.
    destruct (size_ <=? e' - b' + 1); simpl in Hx'; [|exact IH].
    destruct p as [p|]; [|discriminate]. rewrite Hx'. simpl. exact IH.
Qed.

Lemma allocate_sized_invalid data_ n p self :
  n <= 0 -> allocate_sized data_ n p self = (self, Raise InvalidArgumentError).
Proof.
  intros Hn. unfold allocate_sized. destruct (Z.leb_spec n 0); [reflexivity|lia].
Qed.

Lemma allocate_sized_none data_ n p self :
  0 < n ->
  Forall (fun r => qualifies n p r = false) (unallocated_ranges self) ->
  allocate_sized data_ n p self = (self, Raise NotEnoughUnallocatedSpaceError).
Proof.
  intros Hn Hq. unfold allocate_sized. destruct (Z.leb_spec n 0); [lia|].
  assert (Hloop : allocate_loop n p 0 (length (unallocated_ranges self)) self
                  = (self, Ok None))
    by exact (allocate_loop_none n p self (unallocated_ranges self) [] eq_refl Hq).
  unfold bind, gets. cbv beta iota. rewrite Hloop. reflexivity.
Qed.

Lemma allocate_sized_found data_ n p self mid b e post :
  0 < n ->
  unallocated_ranges self = mid ++ (b, e) :: post ->
  Forall (fun r => qualifies n p r = false) mid ->
  qualifies n p (b, e) = true ->
  allocate_sized data_ n p self
  = (match data_ with
     | Some d => on_block (setitem_slice b (b + n - 1 + 1) d)
     | None => ret tt
     end ;;; ret b) (set_ranges self (shrink_front n mid b e post)).
Proof.
  intros Hn Hl Hmid Hq. unfold allocate_sized. destruct (Z.leb_spec n 0); [lia|].
  assert (Hloop : allocate_loop n p 0 (length (mid ++ (b, e) :: post)) self
                  = (set_ranges self (shrink_front n mid b e post),
                     Ok (Some (b, b + n - 1))))
    by exact (allocate_loop_found n p self mid [] b e post Hl Hmid Hq).
  unfold bind, gets. cbv beta iota. rewrite Hl at 1. rewrite Hloop. reflexivity.
Qed.

Lemma array_of_list_error item e : array_of_list item = Raise e -> e = OverflowError.
Proof.
  induction item as [|z item IH]; simpl; [discriminate|].
  unfold byte_of_Z.
  destruct ((z <? 0) || (255 <? z)); [congruence|].
  destruct (Byte.of_N (Z.to_N z)); [|congruence].
  destruct (array_of_list item); [discriminate|].
  intros [= <-]. auto.
Qed.

(** The write of [allocate] covers exactly [len d] bytes, so it can only
    fail on the bounds of the buffer or on a value that is not a byte; a
    failed write leaves the buffer as it was. *)
Lemma setitem_slice_alloc_error b n d blk blk' e :
  0 < n -> len d = n ->
  setitem_slice b (b + n - 1 + 1) d blk = (blk', Raise e) ->
  blk' = blk /\ (e = OutOfBoundsError \/ e = OverflowError).
Proof.
  intros Hn Hd. unfold setitem_slice.
  destruct (Z.gtb_spec b (b + n - 1 + 1)); [lia|].
  destruct ((b <? 0) || (b + n - 1 + 1 - 1 >=? size blk)); [intros [= <- <-]; auto|].
  destruct (Z.eqb_spec (len d) (b + n - 1 + 1 - b)); [|lia]. simpl.
  destruct (Z.eqb_spec (b + n - 1 + 1 - b) 0); [lia|].
  destruct (array_of_list d) eqn:Ha; [discriminate|].
  intros [= <- <-]. split; [reflexivity|]. right. eapply array_of_list_error; eauto.
Qed.

(** What [allocate] does once its arguments have passed the checks and a
    qualifying range exists: the ranges are updated first, the data is
    written afterwards. *)
Lemma allocate_sized_found_cases data_ n p self mid b e post :
  0 < n ->
  match data_ with Some d => len d = n | None => True end ->
  unallocated_ranges self = mid ++ (b, e) :: post ->
  Forall (fun r => qualifies n p r = false) mid ->
  qualifies n p (b, e) = true ->
  exists s' r, allocate_sized data_ n p self = (s', r) /\
    unallocated_ranges s' = shrink_front n mid b e post /\
    (r = Ok b \/ r = Raise OutOfBoundsError \/ r = Raise OverflowError) /\
    (data_ = None -> s' = set_ranges self (shrink_front n mid b e post) /\ r = Ok b).
Proof.
  intros Hn Hd Hl Hmid Hq.
  rewrite (allocate_sized_found data_ n p self mid b e post) by assumption.
  destruct data_ as [d|].
  - unfold bind, on_block. simpl.
    destruct (setitem_slice b (b + n - 1 + 1) d (block self)) as [blk' [[]|err]] eqn:Hw.
    + eexists _, _. split; [reflexivity|]. simpl. repeat split; auto. discriminate.
    + apply setitem_slice_alloc_error in Hw as [-> [-> | ->]]; auto;
        eexists _, _; (split; [reflexivity|]); simpl; repeat split; auto; discriminate.
  - eexists _, _. split; [reflexivity|]. simpl. repeat split; auto.
Qed.

Lemma sorted_by_begin_app_inv pre x post :
  sorted_by_begin (pre ++ x :: post) -> Forall (fun r => x.1 <= r.1) post.
Proof.
  induction pre as [|y pre IH]; simpl; intros H; inversion H; subst; auto.
Qed.

(** C1. First fit: over a free-range list sorted by begin, a request for
    [n] bytes with an optional placement predicate takes the first range in
    list order that is long enough and whose begin passes the predicate,
    shrinks it from the front (or removes it when it is used up) and
    returns its begin; that begin is the least among all qualifying ranges,
    whatever their lengths. *)
Theorem allocate_first_fit (self : AllocatableBlock) (n : Z) (p : option (Z -> bool))
    (pre : list range) (b e : Z) (post : list range) :
  sorted_by_begin (unallocated_ranges self) ->
  0 < n ->
  unallocated_ranges self = pre ++ (b, e) :: post ->
  Forall (fun r => qualifies n p r = false) pre ->
  qualifies n p (b, e) = true ->
  allocate None (Some n) p self
    = (set_ranges self (shrink_front n pre b e post), Ok b)
  /\ (forall r, r ∈ unallocated_ranges self -> qualifies n p r = true -> b <= r.1)
  /\ (forall d, len d = n -> forall s' r,
        allocate (Some d) None p self = (s', r) ->
        unallocated_ranges s' = shrink_front n pre b e post /\
        (r = Ok b \/ r = Raise OutOfBoundsError \/ r = Raise OverflowError)).
Proof.
  intros Hsorted Hn Hl Hpre Hq. split; [|split].
  - simpl.
    destruct (allocate_sized_found_cases None n p self pre b e post)
      as (s' & r & Heq & _ & _ & Hnone); auto.
    destruct (Hnone eq_refl) as [-> ->]. exact Heq.
  - intros r Hin Hr. rewrite Hl in Hin, Hsorted.
    apply elem_of_app in Hin as [Hin | Hin].
    + rewrite Forall_forall in Hpre. rewrite (Hpre r Hin) in Hr. discriminate.
    + apply elem_of_cons in Hin as [-> | Hin]; [simpl; lia|].
      apply sorted_by_begin_app_inv in Hsorted.
      rewrite Forall_forall in Hsorted. exact (Hsorted r Hin).
  - intros d Hd s' r Heq. simpl in Heq. rewrite Hd in Heq.
    destruct (allocate_sized_found_cases (Some d) n p self pre b e post)
      as (s2 & r2 & Heq2 & Hr & Hres & _); auto.
    rewrite Heq2 in Heq. injection Heq as <- <-. auto.
Qed.

Lemma allocate_first_fit_witness :
  let self := mkAllocatableBlock (mkBlock (replicate 16 x00%byte) 16)
                                 [(0, 1); (3, 9); (11, 13)] in
  allocate None (Some 3) None self
    = (set_ranges self [(0, 1); (6, 9); (11, 13)], Ok 3).
Proof.
  intros self.
  refine (proj1 (allocate_first_fit self 3 None [(0, 1)] 3 9 [(11, 13)] _ _ _ _ _)).
  all: try reflexivity; try lia; repeat constructor; simpl; lia.
Defined.

(** The two ways [allocate] can go once its arguments are accepted. *)
Lemma allocate_sized_cases data_ n p self :
  0 < n ->
  match data_ with Some d => len d = n | None => True end ->
  (Forall (fun r => qualifies n p r = false) (unallocated_ranges self) /\
   allocate_sized data_ n p self = (self, Raise NotEnoughUnallocatedSpaceError))
  \/
  (exists mid b e post s' r,
     unallocated_ranges self = mid ++ (b, e) :: post /\
     Forall (fun r => qualifies n p r = false) mid /\
     qualifies n p (b, e) = true /\
     allocate_sized data_ n p self = (s', r) /\
     unallocated_ranges s' = shrink_front n mid b e post /\
     (r = Ok b \/ r = Raise OutOfBoundsError \/ r = Raise OverflowError)).
Proof.
  intros Hn Hd.
  destruct (first_qualifying (qualifies n p) (unallocated_ranges self))
    as [Hnone | (mid & [b e] & post & Hl & Hmid & Hq)].
  - left. split; [assumption|]. apply allocate_sized_none; assumption.
  - right.
    destruct (allocate_sized_found_cases data_ n p self mid b e post)
      as (s' & r & Heq & Hr & Hres & _); auto.
    exists mid, b, e, post, s', r. repeat split; assumption.
Qed.

(** [allocate] on accepted arguments is [allocate_sized] on the effective
    size, and the data, when given, has that length. *)
Lemma allocate_valid_request data_ size_ p n :
  effective_size data_ size_ = Some n ->
  ~ invalid_request data_ size_ ->
  0 < n /\ match data_ with Some d => len d = n | None => True end /\
  allocate data_ size_ p = allocate_sized data_ n p.
Proof.
  intros Heff Hv. unfold invalid_request in Hv.
  assert (0 < n) by (destruct (Z.lt_ge_cases 0 n); [assumption|];
                     exfalso; apply Hv; right; right; exists n; split; [assumption|lia]).
  split; [assumption|].
  destruct data_ as [d|], size_ as [s|]; simpl in *; try discriminate.
  - injection Heff as ->.
    destruct (Z.eqb_spec n (len d)) as [->|Hne]; simpl; [auto|].
    exfalso. apply Hv. right. left. eauto.
  - injection Heff as <-. auto.
  - injection Heff as ->. auto.
Qed.

Lemma allocate_invalid_request data_ size_ p self :
  invalid_request data_ size_ ->
  allocate data_ size_ p self = (self, Raise InvalidArgumentError).
Proof.
  intros [[-> ->] | [(d & s & -> & -> & Hne) | (n & Heff & Hn)]].
  - reflexivity.
  - simpl. destruct (Z.eqb_spec s (len d)); [contradiction|]. reflexivity.
  - destruct data_ as [d|], size_ as [s|]; simpl in *; try discriminate.
    + injection Heff as ->. destruct (negb (n =? len d)); [reflexivity|].
      apply allocate_sized_invalid; assumption.
    + injection Heff as <-. apply allocate_sized_invalid; assumption.
    + injection Heff as ->. apply allocate_sized_invalid; assumption.
Qed.

Lemma invalid_request_dec data_ size_ :
  invalid_request data_ size_ \/
  exists n, effective_size data_ size_ = Some n /\ ~ invalid_request data_ size_.
Proof.
  unfold invalid_request.
  destruct data_ as [d|], size_ as [s|]; simpl.
  - destruct (Z.eq_dec s (len d)) as [->|Hne].
    + destruct (Z.lt_ge_cases 0 (len d)).
      * right. exists (len d). split; [reflexivity|].
        intros [[? ?] | [(d' & s' & [= <-] & [= <-] & Hne) | (n & [= <-] & Hn)]];
          [discriminate | congruence | lia].
      * left. right. right. exists (len d). split; [reflexivity|lia].
    + left. right. left. eauto.
  - destruct (Z.lt_ge_cases 0 (len d)).
    + right. exists (len d). split; [reflexivity|].
      intros [[? ?] | [(d' & s' & _ & ? & _) | (n & [= <-] & Hn)]];
        [discriminate | discriminate | lia].
    + left. right. right. exists (len d). split; [reflexivity|lia].
  - destruct (Z.lt_ge_cases 0 s).
    + right. exists s. split; [reflexivity|].
      intros [[? ?] | [(d' & s' & ? & _) | (n & [= <-] & Hn)]];
        [discriminate | discriminate | lia].
    + left. right. right. exists s. split; [reflexivity|lia].
  - left. left. auto.
Qed.

(** C7. [allocate] raises [InvalidArgumentError] exactly when neither
    [data] nor [size] is given, or both are given and differ in length, or
    the effective size is not positive; and on valid arguments it raises
    [NotEnoughUnallocatedSpaceError] exactly when no free range is long
    enough with a begin that passes the placement predicate. *)
Theorem allocate_error_cases (data_ : option (list Z)) (size_ : option Z)
    (p : option (Z -> bool)) (self : AllocatableBlock) :
  ((allocate data_ size_ p self).2 = Raise InvalidArgumentError
   <-> invalid_request data_ size_)
  /\
  (forall n, effective_size data_ size_ = Some n ->
     ~ invalid_request data_ size_ ->
     ((allocate data_ size_ p self).2 = Raise NotEnoughUnallocatedSpaceError
      <-> ~ exists r, r ∈ unallocated_ranges self /\ qualifies n p r = true)).
Proof.
  assert (Hvalid : forall n, effective_size data_ size_ = Some n ->
            ~ invalid_request data_ size_ ->
            (allocate data_ size_ p self).2 <> Raise InvalidArgumentError /\
            ((allocate data_ size_ p self).2 = Raise NotEnoughUnallocatedSpaceError
             <-> ~ exists r, r ∈ unallocated_ranges self /\ qualifies n p r = true)).
  { intros n Heff Hv.
    destruct (allocate_valid_request data_ size_ p n Heff Hv) as (Hn & Hd & ->).
    destruct (allocate_sized_cases data_ n p self Hn Hd)
      as [[Hnone ->] | (mid & b & e & post & s' & r & Hl & Hmid & Hq & -> & _ & Hr)];
      simpl.
    - split; [discriminate|]. split; [|reflexivity].
      intros _ (r & Hin & Hr). rewrite Forall_forall in Hnone.
      rewrite (Hnone r Hin) in Hr. discriminate.
    - split; [destruct Hr as [-> | [-> | ->]]; discriminate|].
      split; [destruct Hr as [-> | [-> | ->]]; discriminate|].
      intros Hno. exfalso. apply Hno. exists (b, e). split; [|assumption].
      rewrite Hl. apply elem_of_app. right. apply elem_of_cons. left. reflexivity. }
  split.
  - split.
    + intros Hr. destruct (invalid_request_dec data_ size_) as [Hi | (n & Heff & Hv)];
        [assumption|].
      destruct (Hvalid n Heff Hv) as [Hne _]. contradiction.
    + intros Hi. rewrite allocate_invalid_request by assumption. reflexivity.
  - intros n Heff Hv. apply Hvalid; assumption.
Qed.

Lemma allocate_error_cases_witness :
  let self := mkAllocatableBlock (mkBlock (replicate 16 x00%byte) 16) [(0, 1); (3, 4)] in
  (allocate None (Some 3) None self).2 = Raise NotEnoughUnallocatedSpaceError
  <-> ~ exists r, r ∈ unallocated_ranges self /\ qualifies 3 None r = true.
Proof.
  intros self.
  refine (proj2 (allocate_error_cases None (Some 3) None self) 3 eq_refl _).
  intros [[_ H] | [(d & s & H & _) | (n & [= <-] & Hn)]];
    [discriminate | discriminate | lia].
Defined.

(** C10. When [allocate] raises [InvalidArgumentError] or
    [NotEnoughUnallocatedSpaceError], the free ranges and the bytes are what
    they were before the call; [mark_allocated], in contrast, can have
    changed the free ranges when it raises [CouldNotAllocateError]. *)
Theorem allocate_failure_atomic :
  (forall data_ size_ p self s' e,
     allocate data_ size_ p self = (s', Raise e) ->
     e = InvalidArgumentError \/ e = NotEnoughUnallocatedSpaceError ->
     s' = self)
  /\
  (exists self r s',
     mark_allocated r self = Some (s', Raise CouldNotAllocateError) /\
     unallocated_ranges s' <> unallocated_ranges self).
Proof.
  split.
  - intros data_ size_ p self s' e Heq He.
    destruct (invalid_request_dec data_ size_) as [Hi | (n & Heff & Hv)].
    + rewrite allocate_invalid_request in Heq by assumption. congruence.
    + destruct (allocate_valid_request data_ size_ p n Heff Hv) as (Hn & Hd & Hal).
      rewrite Hal in Heq.
      destruct (allocate_sized_cases data_ n p self Hn Hd)
        as [[_ Heq'] | (mid & b & e' & post & s2 & r & _ & _ & _ & Heq' & _ & Hr)];
        rewrite Heq' in Heq.
      * congruence.
      * injection Heq as <- ->.
        destruct He as [-> | ->], Hr as [? | [? | ?]]; discriminate.
  - exists (mkAllocatableBlock (mkBlock (replicate 10 x00%byte) 10) [(0, 5)]), (3, 7).
    eexists. split; [vm_compute; reflexivity|]. simpl. discriminate.
Qed.

Lemma allocate_failure_atomic_witness :
  let self := mkAllocatableBlock (mkBlock (replicate 16 x00%byte) 16) [(0, 1); (3, 4)] in
  allocate None (Some 3) None self = (self, Raise NotEnoughUnallocatedSpaceError)
  /\ (allocate None (Some 3) None self).1 = self.
Proof.
  intros self. split; [reflexivity|].
  refine (proj1 allocate_failure_atomic None (Some 3) None self _
                NotEnoughUnallocatedSpaceError _ _).
  - reflexivity.
  - right. reflexivity.
Defined.

(** ** RangeAllocator: [mark_allocated] *)

Lemma mark_allocated_loop_scan rec ab ae self rest : forall pre,
  unallocated_ranges self = pre ++ rest ->
  mark_allocated_loop rec ab ae (length pre) (length rest) self
  = mark_scan rec ab ae pre rest self.
Proof.
  induction rest as [|[b e] post IH]; intros pre Hl; simpl; [reflexivity|].
  rewrite Hl, list_lookup_middle by reflexivity.
  rewrite delete_middle.
  rewrite !insert_app_r_alt, !Nat.sub_diag by lia. simpl.
  unfold list_insert_at.
  rewrite take_app_length, drop_app_length.
  specialize (IH (pre ++ [(b, e)])).
  rewrite length_app, Nat.add_1_r, <- app_assoc in IH.
  rewrite (IH Hl). reflexivity.
Qed.

Lemma mark_allocated_fuel_unfold fuel ab ae self :
  mark_allocated_fuel (S fuel) (ab, ae) self
  = match check_range_validity (ab, ae) (size (block self)) with
    | Raise e => Some (self, Raise e)
    | Ok _ => mark_scan (mark_allocated_fuel fuel) ab ae [] (unallocated_ranges self) self
    end.
Proof.
  cbn [mark_allocated_fuel].
  destruct (check_range_validity (ab, ae) (size (block self))); [|reflexivity].
  exact (mark_allocated_loop_scan _ ab ae self (unallocated_ranges self) [] eq_refl).
Qed.

Lemma check_range_validity_ok b e sz :
  check_range_validity (b, e) sz = Ok tt <-> 0 <= b /\ b <= e /\ e < sz.
Proof.
  unfold check_range_validity.
  destruct (Z.ltb_spec e b), (Z.ltb_spec b 0), (Z.geb_spec e sz); simpl;
    split; intros H'; try discriminate; try lia; reflexivity.
Qed.

Lemma check_range_validity_ok_inv r sz u :
  check_range_validity r sz = Ok u -> 0 <= r.1 /\ r.1 <= r.2 /\ r.2 < sz.
Proof.
  destruct r as [b e], u. apply check_range_validity_ok.
Qed.

(** *** Properties kept by every mutation of the free-range list *)

Section mark_invariant.
Variable P : list range -> Prop.
Hypothesis P_shrink_front : forall pre b e post ae,
  P (pre ++ (b, e) :: post) -> b <= ae -> ae < e -> P (pre ++ (ae + 1, e) :: post).
Hypothesis P_delete : forall pre r post,
  P (pre ++ r :: post) -> P (pre ++ post).
Hypothesis P_split : forall pre b e post ab ae,
  P (pre ++ (b, e) :: post) -> b < ab -> ab <= ae -> ae < e ->
  P (sort (pre ++ (ae + 1, e) :: (b, ab - 1) :: post)).
Hypothesis P_shrink_back : forall pre b e post ab,
  P (pre ++ (b, e) :: post) -> b < ab -> ab <= e -> P (pre ++ (b, ab - 1) :: post).

Lemma mark_scan_invariant rec ab ae self :
  ab <= ae ->
  (forall r s s' res, P (unallocated_ranges s) -> rec r s = Some (s', res) ->
                      P (unallocated_ranges s')) ->
  forall rest pre s' res,
    P (pre ++ rest) -> P (unallocated_ranges self) ->
    mark_scan rec ab ae pre rest self = Some (s', res) ->
    P (unallocated_ranges s').
Proof.
  intros Hr Hrec. induction rest as [|[b e] post IH]; intros pre s' res HP Hself; simpl.
  - intros [= <- <-]. exact Hself.
  - destruct (Z.eqb_spec ab b) as [-> | Hne].
    + destruct (Z.ltb_spec ae e).
      * intros [= <- <-]. simpl. apply P_shrink_front with b; auto.
      * destruct (Z.eqb_spec ae e).
        -- intros [= <- <-]. simpl. eapply P_delete; eauto.
        -- intros Heq. eapply Hrec; [|exact Heq]. simpl. eapply P_delete; eauto.
    + destruct (Z.gtb_spec ab b); simpl.
      * destruct (Z.leb_spec ae e); simpl.
        -- destruct (Z.eqb_spec ae e); simpl.
           ++ intros [= <- <-]. simpl. apply P_shrink_back with e; auto; lia.
           ++ intros [= <- <-]. simpl. apply P_split; auto; lia.
        -- destruct (Z.ltb_spec ab e); simpl.
           ++ destruct (Z.gtb_spec ae e); [|lia].
              intros Heq. eapply Hrec; [|exact Heq]. simpl.
              apply P_shrink_back with e; auto; lia.
           ++ intros Heq. apply (IH (pre ++ [(b, e)]) s' res); auto.
              rewrite <- app_assoc. exact HP.
      * intros Heq. apply (IH (pre ++ [(b, e)]) s' res); auto.
        rewrite <- app_assoc. exact HP.
Qed.

Lemma mark_allocated_fuel_invariant fuel : forall r self s' res,
  P (unallocated_ranges self) ->
  mark_allocated_fuel fuel r self = Some (s', res) ->
  P (unallocated_ranges s').
Proof.
  induction fuel as [|fuel IH]; intros [ab ae] self s' res HP; [discriminate|].
  rewrite mark_allocated_fuel_unfold.
  destruct (check_range_validity (ab, ae) (size (block self))) as [[]|err] eqn:Hc.
  - apply check_range_validity_ok in Hc.
    intros Heq.
    refine (mark_scan_invariant _ ab ae self _ _ _ [] s' res HP HP Heq);
      [lia | intros r s s2 res2; apply IH].
  - intros [= <- <-]. exact HP.
Qed.
End mark_invariant.

(** The buffer itself is never touched. *)
Lemma mark_scan_block rec ab ae self :
  (forall r s s' res, rec r s = Some (s', res) -> block s' = block s) ->
  forall rest pre s' res,
    mark_scan rec ab ae pre rest self = Some (s', res) -> block s' = block self.
Proof.
  intros Hrec. induction rest as [|[b e] post IH]; intros pre s' res; simpl.
  - intros [= <- <-]. reflexivity.
  - repeat match goal with
           | |- context [if ?c then _ else _] => destruct c
           end;
      try (intros [= <- <-]; reflexivity);
      try (intros Heq; apply Hrec in Heq; exact Heq).
    all: apply IH.
Qed.

Lemma mark_allocated_fuel_block fuel : forall r self s' res,
  mark_allocated_fuel fuel r self = Some (s', res) -> block s' = block self.
Proof.
  induction fuel as [|fuel IH]; intros [ab ae] self s' res; [discriminate|].
  rewrite mark_allocated_fuel_unfold.
  destruct (check_range_validity (ab, ae) (size (block self))).
  - apply mark_scan_block. intros r s s2 res2. apply IH.
  - intros [= <- <-]. reflexivity.
Qed.

(** *** Termination: the depth bound is never reached *)

Lemma mark_measure_bound self r :
  (mark_measure self r < mark_allocated_depth self)%nat.
Proof.
  unfold mark_measure, mark_allocated_depth.
  destruct (check_range_validity r (size (block self))) eqn:Hc; [|lia].
  apply check_range_validity_ok_inv in Hc. nia.
Qed.

Lemma mark_scan_some rec ab ae self fuel :
  0 <= ab -> ab <= ae -> ae < size (block self) ->
  (forall r s, (mark_measure s r < fuel)%nat -> is_Some (rec r s)) ->
  forall rest pre,
    (length (pre ++ rest) * Z.to_nat (size (block self))
     + Z.to_nat (size (block self) - ab) <= fuel)%nat ->
    is_Some (mark_scan rec ab ae pre rest self).
Proof.
  intros H0 Hr Hsz Hrec.
  assert (Hrec' : forall e l,
            ab <= e -> e < ae ->
            (length l * Z.to_nat (size (block self))
             + Z.to_nat (size (block self) - (e + 1)) < fuel)%nat ->
            is_Some (rec (e + 1, ae) (set_ranges self l))).
  { intros e l He1 He2 Hm. apply Hrec. unfold mark_measure.
    cbn [set_ranges block unallocated_ranges fst].
    destruct (check_range_validity (e + 1, ae) (size (block self))); lia. }
  induction rest as [|[b e] post IH]; intros pre Hm; simpl; [eauto|].
  rewrite length_app in Hm. simpl in Hm.
  destruct (Z.eqb_spec ab b) as [-> | Hne].
  - destruct (Z.ltb_spec ae e); [eauto|].
    destruct (Z.eqb_spec ae e); [eauto|].
    destruct (Z.le_gt_cases b e).
    + apply Hrec'; [lia | lia |]. rewrite length_app. nia.
    + apply Hrec. unfold mark_measure.
      cbn [set_ranges block unallocated_ranges fst].
      destruct (check_range_validity (e + 1, ae) (size (block self))) as [[]|err] eqn:Hc;
        [|lia].
      apply check_range_validity_ok in Hc. rewrite length_app. simpl. nia.
  - destruct (Z.gtb_spec ab b); simpl.
    + destruct (Z.leb_spec ae e); simpl.
      * destruct (negb (ae =? e)); eauto.
      * destruct (Z.ltb_spec ab e); simpl.
        -- destruct (Z.gtb_spec ae e); [|lia].
           apply Hrec'; [lia | lia |]. rewrite length_app. simpl. lia.
        -- apply IH. rewrite <- app_assoc, length_app. simpl. lia.
    + apply IH. rewrite <- app_assoc, length_app. simpl. lia.
Qed.

Lemma mark_allocated_fuel_some fuel : forall r self,
  (mark_measure self r < fuel)%nat -> is_Some (mark_allocated_fuel fuel r self).
Proof.
  induction fuel as [|fuel IH]; intros [ab ae] self Hm; [lia|].
  rewrite mark_allocated_fuel_unfold. unfold mark_measure in Hm.
  destruct (check_range_validity (ab, ae) (size (block self))) as [[]|err] eqn:Hc; [|eauto].
  apply check_range_validity_ok in Hc. simpl in Hm.
  apply mark_scan_some with fuel; auto; try lia. simpl. lia.
Qed.

(** [mark_allocated] always produces an outcome. *)
Lemma mark_allocated_total r self : is_Some (mark_allocated r self).
Proof.
  apply mark_allocated_fuel_some, mark_measure_bound.
Qed.

(** A larger depth bound gives the same outcome. *)
Lemma mark_scan_mono (rec rec' : range -> AllocatableBlock -> option outcome) ab ae self :
  (forall r s out, rec r s = Some out -> rec' r s = Some out) ->
  forall rest pre out,
    mark_scan rec ab ae pre rest self = Some out ->
    mark_scan rec' ab ae pre rest self = Some out.
Proof.
  intros Hrec. induction rest as [|[b e] post IH]; intros pre out; simpl; [auto|].
  repeat match goal with
         | |- context [if ?c then _ else _] => destruct c
         end; auto.
Qed.

Lemma mark_allocated_fuel_mono fuel : forall r self out,
  mark_allocated_fuel fuel r self = Some out ->
  forall fuel', (fuel <= fuel')%nat -> mark_allocated_fuel fuel' r self = Some out.
Proof.
  induction fuel as [|fuel IH]; intros [ab ae] self out Heq fuel' Hle; [discriminate|].
  destruct fuel' as [|fuel']; [lia|].
  rewrite mark_allocated_fuel_unfold in *.
  destruct (check_range_validity (ab, ae) (size (block self))); [|exact Heq].
  eapply mark_scan_mono; [|exact Heq].
  intros r s out' Hout. apply (IH r s out' Hout). lia.
Qed.

(** *** The free-range invariant *)

Lemma gapped_app l1 l2 :
  gapped (l1 ++ l2) <->
  gapped l1 /\ gapped l2 /\ Forall (fun r1 => Forall (fun r2 => r1.2 + 1 < r2.1) l2) l1.
Proof.
  induction l1 as [|a l1 IH]; simpl.
  - split; [intros H; repeat split; auto | intros (_ & H & _); exact H].
  - rewrite IH, Forall_app, Forall_cons. tauto.
Qed.

Lemma gapped_replace pre b e post b' e' :
  gapped (pre ++ (b, e) :: post) -> b <= b' -> b' <= e' -> e' <= e ->
  gapped (pre ++ (b', e') :: post).
Proof.
  rewrite !gapped_app. simpl. unfold valid_range. simpl.
  intros (Hpre & (Hv & Hpost & Hg) & Hcross) H1 H2 H3.
  repeat split; auto.
  - eapply Forall_impl; [exact Hpost|]. simpl. intros; lia.
  - eapply Forall_impl; [exact Hcross|]. simpl. intros r Hr.
    inversion Hr; subst. constructor; auto. simpl in *. lia.
Qed.

Lemma gapped_delete pre r post :
  gapped (pre ++ r :: post) -> gapped (pre ++ post).
Proof.
  rewrite !gapped_app. simpl. intros (Hpre & (Hv & Hpost & Hg) & Hcross).
  repeat split; auto.
  eapply Forall_impl; [exact Hcross|]. simpl. intros r' Hr. inversion Hr; auto.
Qed.

Lemma gapped_split pre b e post ab ae :
  gapped (pre ++ (b, e) :: post) -> b < ab -> ab <= ae -> ae < e ->
  gapped (pre ++ (b, ab - 1) :: (ae + 1, e) :: post).
Proof.
  rewrite !gapped_app. simpl. unfold valid_range. simpl.
  intros (Hpre & (Hv & Hpost & Hg) & Hcross) H1 H2 H3.
  repeat split; auto; try lia.
  - constructor; [simpl; lia|].
    eapply Forall_impl; [exact Hpost|]. simpl. intros; lia.
  - eapply Forall_impl; [exact Hcross|]. simpl. intros r Hr.
    inversion Hr; subst. simpl in *. repeat constructor; auto; simpl; lia.
Qed.

Lemma free_set_wf_gapped l : free_set_wf l <-> gapped l.
Proof.
  unfold free_set_wf, sorted_by_begin. induction l as [|a l IH]; simpl.
  - split; auto. intros _. repeat constructor.
  - split.
    + intros (Hv & Hs & Hp).
      inversion Hv as [|? ? Hva Hvl]; inversion Hs as [|? ? Hsl Hsa];
        inversion Hp as [|? ? Hpa Hpl]; subst.
      split; [exact Hva|]. split; [|apply IH; auto].
      rewrite Forall_forall in *. intros r Hr.
      specialize (Hvl r Hr). specialize (Hsa r Hr). specialize (Hpa r Hr).
      unfold valid_range, no_touch in *. lia.
    + intros (Hva & Ha & Hg). apply IH in Hg as (Hvl & Hsl & Hpl).
      repeat split; constructor; auto.
      * eapply Forall_impl; [exact Ha|]. unfold valid_range in *. simpl. intros; lia.
      * eapply Forall_impl; [exact Ha|]. unfold no_touch. simpl. intros; lia.
Qed.

(** *** [sort] *)

Lemma elem_of_sort_insert r x l : r ∈ sort_insert x l <-> r = x \/ r ∈ l.
Proof.
  induction l as [|y l IH]; simpl.
  - rewrite list_elem_of_singleton, elem_of_nil. tauto.
  - destruct (tuple_le x y).
    + rewrite elem_of_cons. tauto.
    + rewrite !elem_of_cons, IH. tauto.
Qed.

Lemma elem_of_sort r l : r ∈ sort l <-> r ∈ l.
Proof.
  induction l as [|x l IH]; simpl; [tauto|].
  rewrite elem_of_sort_insert, elem_of_cons, IH. tauto.
Qed.

Lemma sort_insert_head x l :
  match l with [] => True | y :: _ => tuple_le x y = true end ->
  sort_insert x l = x :: l.
Proof.
  destruct l as [|y l]; simpl; [reflexivity|]. intros ->. reflexivity.
Qed.

Lemma gapped_head_tuple_le a l :
  gapped (a :: l) -> match l with [] => True | y :: _ => tuple_le a y = true end.
Proof.
  destruct l as [|y l]; [auto|]. simpl. intros (Hv & Ha & _).
  inversion Ha; subst. unfold tuple_le, valid_range in *.
  destruct (Z.ltb_spec a.1 y.1); [reflexivity|lia].
Qed.

Lemma foldr_sort_insert_gapped pre : forall s,
  gapped (pre ++ s) -> foldr sort_insert s pre = pre ++ s.
Proof.
  induction pre as [|a pre IH]; intros s Hg; simpl; [reflexivity|].
  rewrite IH by (simpl in Hg; tauto).
  apply sort_insert_head, gapped_head_tuple_le. exact Hg.
Qed.

Lemma sort_gapped l : gapped l -> sort l = l.
Proof.
  intros Hg. unfold sort.
  rewrite <- (app_nil_r l) at 2. apply foldr_sort_insert_gapped.
  rewrite app_nil_r. exact Hg.
Qed.

Lemma sort_swap_gapped pre x y post :
  gapped (pre ++ x :: y :: post) ->
  sort (pre ++ y :: x :: post) = pre ++ x :: y :: post.
Proof.
  intros Hg. unfold sort. rewrite foldr_app. simpl.
  pose proof Hg as Hg'. apply gapped_app in Hg' as (_ & Hxy & _).
  pose proof Hxy as (Hvx & Hx & Hvy & Hy & Hpost).
  fold (sort post). rewrite (sort_gapped post Hpost).
  rewrite (sort_insert_head x post).
  - simpl. inversion Hx as [|? ? Hxy' Hxp]; subst.
    unfold tuple_le at 1. unfold valid_range in *.
    destruct (Z.ltb_spec y.1 x.1); [lia|].
    destruct (Z.eqb_spec y.1 x.1); [lia|]. simpl.
    rewrite (sort_insert_head y post).
    + apply foldr_sort_insert_gapped. exact Hg.
    + apply gapped_head_tuple_le. simpl. auto.
  - apply gapped_head_tuple_le. simpl. inversion Hx; subst. auto.
Qed.

(** C3. On a free-range set that is sorted ascending by begin with no two
    ranges touching or overlapping, every successful [allocate] and every
    successful [mark_allocated] leaves a free-range set with the same
    properties. *)
Theorem allocation_preserves_free_set (self : AllocatableBlock) :
  free_set_wf (unallocated_ranges self) ->
  (forall data_ size_ p s' offset,
     allocate data_ size_ p self = (s', Ok offset) ->
     free_set_wf (unallocated_ranges s'))
  /\
  (forall r s',
     mark_allocated r self = Some (s', Ok tt) ->
     free_set_wf (unallocated_ranges s')).
Proof.
  intros Hwf. split.
  - intros data_ size_ p s' offset Heq.
    destruct (invalid_request_dec data_ size_) as [Hi | (n & Heff & Hv)].
    { rewrite allocate_invalid_request in Heq by assumption. discriminate. }
    destruct (allocate_valid_request data_ size_ p n Heff Hv) as (Hn & Hd & Hal).
    rewrite Hal in Heq.
    destruct (allocate_sized_cases data_ n p self Hn Hd)
      as [[_ Heq'] | (mid & b & e & post & s2 & r & Hl & _ & Hq & Heq' & Hr & _)];
      rewrite Heq' in Heq; [discriminate|].
    injection Heq as <- _. rewrite Hr.
    apply free_set_wf_gapped. apply free_set_wf_gapped in Hwf. rewrite Hl in Hwf.
    unfold shrink_front. unfold qualifies in Hq. simpl in Hq.
    apply andb_true_iff in Hq as [Hq _]. apply Z.leb_le in Hq.
    destruct (Z.eqb_spec (b + n - 1) e).
    + eapply gapped_delete; eauto.
    + apply gapped_replace with b e; auto; lia.
  - intros r s' Heq. apply free_set_wf_gapped. apply free_set_wf_gapped in Hwf.
    revert Heq. unfold mark_allocated.
    apply mark_allocated_fuel_invariant; auto.
    + intros pre b e post ae Hg H1 H2. apply gapped_replace with b e; auto; lia.
    + apply gapped_delete.
    + intros pre b e post ab ae Hg H1 H2 H3.
      pose proof (gapped_split pre b e post ab ae Hg H1 H2 H3) as Hs.
      rewrite sort_swap_gapped; auto.
    + intros pre b e post ab Hg H1 H2. apply gapped_replace with b e; auto; lia.
Qed.

Lemma allocation_preserves_free_set_witness :
  let self := mkAllocatableBlock (mkBlock (replicate 16 x00%byte) 16)
                                 [(0, 2); (5, 12)] in
  free_set_wf (unallocated_ranges self) /\
  mark_allocated (7, 8) self = Some (set_ranges self [(0, 2); (5, 6); (9, 12)], Ok tt) /\
  free_set_wf [(0, 2); (5, 6); (9, 12)].
Proof.
  intros self.
  assert (Hwf : free_set_wf (unallocated_ranges self)).
  { apply free_set_wf_gapped. simpl. unfold valid_range. simpl.
    repeat split; repeat constructor; simpl; lia. }
  split; [exact Hwf|]. split; [reflexivity|].
  exact (proj2 (allocation_preserves_free_set self Hwf) (7, 8) _ eq_refl).
Defined.

(** *** Marking makes the range allocated *)

Lemma target_replace ab0 ae0 pre b e post b' e' :
  misses (ab0, ae0) (pre ++ (b, e) :: post) -> b <= b' -> e' <= e -> misses (ab0, ae0) (pre ++ (b', e') :: post).
Proof.
  unfold misses. rewrite !Forall_app, !Forall_cons. unfold inside. simpl.
  intros (Hpre & Hx & Hpost) H1 H2. repeat split; auto. lia.
Qed.

Lemma target_delete ab0 ae0 pre r post : misses (ab0, ae0) (pre ++ r :: post) -> misses (ab0, ae0) (pre ++ post).
Proof.
  unfold misses. rewrite !Forall_app, !Forall_cons. tauto.
Qed.

Lemma target_sort ab0 ae0 l : misses (ab0, ae0) l -> misses (ab0, ae0) (sort l).
Proof.
  unfold misses. rewrite !Forall_forall. intros H r Hr. apply H, elem_of_sort, Hr.
Qed.

Lemma mark_allocated_fuel_target ab0 ae0 fuel r self s' res :
  misses (ab0, ae0) (unallocated_ranges self) ->
  mark_allocated_fuel fuel r self = Some (s', res) ->
  misses (ab0, ae0) (unallocated_ranges s').
Proof.
  apply mark_allocated_fuel_invariant.
  - intros pre b e post ae Ht H1 H2. apply target_replace with b e; auto; lia.
  - apply target_delete.
  - intros pre b e post ab ae Ht H1 H2 H3. apply target_sort.
    unfold misses in *. rewrite !Forall_app, !Forall_cons in *. unfold inside in *.
    simpl in *. destruct Ht as (Hpre & Hx & Hpost).
    repeat split; auto; try lia.
  - intros pre b e post ab Ht H1 H2. apply target_replace with b e; auto; lia.
Qed.

(** The first call: the entries passed over do not hold the range, the
    entry that stops the loop is cut so that it no longer does, and no
    later entry can, since it shares no byte with that one. *)
Lemma mark_scan_target ab0 ae0 fuel self :
  ab0 <= ae0 ->
  forall rest pre s' res,
    unallocated_ranges self = pre ++ rest ->
    misses (ab0, ae0) pre -> Forall valid_range rest -> ForallOrdPairs no_overlap rest ->
    mark_scan (mark_allocated_fuel fuel) ab0 ae0 pre rest self = Some (s', res) ->
    misses (ab0, ae0) (unallocated_ranges s').
Proof.
  intros Hr. induction rest as [|[b e] post IH];
    intros pre s' res Hl Hpre Hvalid Hdisj; simpl.
  - intros [= <- <-]. rewrite Hl, app_nil_r. exact Hpre.
  - inversion Hvalid as [|? ? Hv Hvpost]; inversion Hdisj as [|? ? Hno Hdpost]; subst.
    unfold valid_range in Hv. simpl in Hv.
    assert (Hpost : b <= ab0 <= e -> misses (ab0, ae0) post).
    { intros Hcov. unfold misses. rewrite Forall_forall in *. intros f Hf Hin.
      specialize (Hno f Hf). specialize (Hvpost f Hf).
      unfold no_overlap, inside, valid_range in *. simpl in *. lia. }
    destruct (Z.eqb_spec ab0 b) as [Heq | Hne].
    + assert (Tpost : misses (ab0, ae0) post) by (apply Hpost; lia).
      destruct (Z.ltb_spec ae0 e).
      * intros [= <- <-]. simpl. unfold misses in *.
        rewrite Forall_app, Forall_cons. unfold inside. simpl.
        repeat split; auto. lia.
      * destruct (Z.eqb_spec ae0 e).
        -- intros [= <- <-]. simpl. unfold misses in *. rewrite Forall_app. auto.
        -- apply mark_allocated_fuel_target. simpl. unfold misses in *.
           rewrite Forall_app. auto.
    + destruct (Z.gtb_spec ab0 b); simpl.
      * destruct (Z.leb_spec ae0 e); simpl.
        -- assert (Tpost : misses (ab0, ae0) post) by (apply Hpost; lia).
           destruct (Z.eqb_spec ae0 e); simpl.
           ++ intros [= <- <-]. simpl. unfold misses in *.
              rewrite Forall_app, Forall_cons. unfold inside. simpl.
              repeat split; auto. lia.
           ++ intros [= <- <-]. simpl. apply target_sort. unfold misses in *.
              rewrite Forall_app, !Forall_cons. unfold inside. simpl.
              repeat split; auto; lia.
        -- destruct (Z.ltb_spec ab0 e); simpl.
           ++ destruct (Z.gtb_spec ae0 e); [|lia].
              assert (Tpost : misses (ab0, ae0) post) by (apply Hpost; lia).
              apply mark_allocated_fuel_target. simpl. unfold misses in *.
              rewrite Forall_app, Forall_cons. unfold inside. simpl.
              repeat split; auto. lia.
           ++ apply IH; auto.
              ** rewrite <- app_assoc. exact Hl.
              ** unfold misses in *. rewrite Forall_app, Forall_singleton.
                 unfold inside. simpl. split; auto. lia.
      * apply IH; auto.
        ** rewrite <- app_assoc. exact Hl.
        ** unfold misses in *. rewrite Forall_app, Forall_singleton.
           unfold inside. simpl. split; auto. lia.
Qed.

Lemma is_allocated_target (r : range) self :
  check_range_validity r (size (block self)) = Ok tt ->
  misses r (unallocated_ranges self) ->
  is_allocated r self = (self, Ok true).
Proof.
  intros Hc Ht. unfold is_allocated, bind, is_unallocated. rewrite Hc.
  destruct r as [ab ae].
  replace (existsb _ (unallocated_ranges self)) with false; [reflexivity|].
  symmetry. induction Ht as [|[b e] l Hx Hl IH]; simpl; [reflexivity|].
  rewrite IH, orb_false_r. unfold inside in Hx. simpl in Hx.
  destruct (Z.geb_spec ab b), (Z.leb_spec ae e); simpl; auto. lia.
Qed.

(** C4 (amended). On a free-range list of well-formed ranges no two of
    which overlap, for every valid in-bounds range, once [mark_allocated]
    has been called on it (whether it returned or raised
    [CouldNotAllocateError]), [is_allocated] of the same range is true. *)
Theorem mark_allocated_then_is_allocated (self : AllocatableBlock) (r : range) :
  Forall valid_range (unallocated_ranges self) ->
  ForallOrdPairs no_overlap (unallocated_ranges self) ->
  check_range_validity r (size (block self)) = Ok tt ->
  exists s' res,
    mark_allocated r self = Some (s', res) /\
    is_allocated r s' = (s', Ok true).
Proof.
  intros Hvalid Hdisj Hc.
  destruct (mark_allocated_total r self) as [[s' res] Heq].
  exists s', res. split; [exact Heq|].
  pose proof (mark_allocated_fuel_block _ _ _ _ _ Heq) as Hblk.
  apply is_allocated_target; [rewrite Hblk; exact Hc|].
  destruct r as [ab ae]. unfold mark_allocated, mark_allocated_depth in Heq.
  rewrite mark_allocated_fuel_unfold, Hc in Heq.
  apply check_range_validity_ok in Hc.
  eapply mark_scan_target; [| |constructor | | |exact Heq]; auto; lia.
Qed.

Lemma mark_allocated_then_is_allocated_witness :
  let self := mkAllocatableBlock (mkBlock (replicate 16 x00%byte) 16)
                                 [(0, 5); (6, 12)] in
  exists s' res,
    mark_allocated (4, 8) self = Some (s', res) /\
    is_allocated (4, 8) s' = (s', Ok true).
Proof.
  intros self. apply (mark_allocated_then_is_allocated self (4, 8)).
  - repeat constructor; unfold valid_range; simpl; lia.
  - repeat constructor; unfold no_overlap; simpl; lia.
  - reflexivity.
Defined.

(** The claim as stated fails once [deallocate] has put overlapping
    entries into the free list: after releasing [(0, 10)] twice, marking
    [(2, 3)] succeeds and [is_allocated] of [(2, 3)] is false. *)
Lemma mark_allocated_then_is_allocated_counterexample :
  let self0 := mkAllocatableBlock (mkBlock (replicate 11 x00%byte) 11) [] in
  let self1 := (deallocate (0, 10) self0).1 in
  let self2 := (deallocate (0, 10) self1).1 in
  (deallocate (0, 10) self0).2 = Ok tt /\
  (deallocate (0, 10) self1).2 = Ok tt /\
  check_range_validity (2, 3) (size (block self2)) = Ok tt /\
  exists s',
    mark_allocated (2, 3) self2 = Some (s', Ok tt) /\
    is_allocated (2, 3) s' = (s', Ok false).
Proof.
  simpl. repeat split. eexists. split; reflexivity.
Qed.

(** C2. The third branch of [mark_allocated] tests
    [allocated_begin < end], so a range that begins on the last byte of a
    free entry and runs past it is not split off: with free ranges
    [(0, 5)] and [(6, 10)], marking [(5, 7)], every byte of which is free,
    raises [CouldNotAllocateError] and leaves the list as it was, while
    marking [(4, 7)] splits the head off and marks the remainder against
    the next entry, and a one-byte entry [(5, 5)] is handled by the first
    branch. *)
Theorem mark_allocated_last_byte_overlap :
  let self := mkAllocatableBlock (mkBlock (replicate 11 x00%byte) 11)
                                 [(0, 5); (6, 10)] in
  mark_allocated (5, 7) self = Some (self, Raise CouldNotAllocateError) /\
  is_unallocated (5, 5) self = (self, Ok true) /\
  is_unallocated (6, 7) self = (self, Ok true) /\
  mark_allocated (4, 7) self = Some (set_ranges self [(0, 3); (8, 10)], Ok tt) /\
  mark_allocated (5, 7) (set_ranges self [(5, 5); (6, 10)])
    = Some (set_ranges self [(8, 10)], Ok tt) /\
  mark_allocated (5, 7) (set_ranges self [(0, 5)])
    = Some (set_ranges self [(0, 5)], Raise CouldNotAllocateError).
Proof.
  repeat split.
Qed.

(** *** When marking fails

    On a free-range set that satisfies the invariant, [mark_allocated]
    returns exactly when one free entry holds the whole range and raises
    [CouldNotAllocateError] otherwise: a range that runs past the end of
    its entry continues on a byte that no entry holds. *)

Lemma misses_not_inside r l f : misses r l -> f ∈ l -> ~ inside r f.
Proof.
  unfold misses. rewrite Forall_forall. auto.
Qed.

Lemma mark_scan_gapped rec ab ae self :
  0 <= ab -> ab <= ae -> ae < size (block self) ->
  (forall e l out,
     ab <= e -> e < ae -> gapped l -> misses (e + 1, ae) l ->
     rec (e + 1, ae) (set_ranges self l) = Some out ->
     out.2 = Raise CouldNotAllocateError) ->
  forall rest pre out,
    gapped (pre ++ rest) -> misses (ab, ae) pre ->
    mark_scan rec ab ae pre rest self = Some out ->
    (out.2 = Ok tt /\ exists f, f ∈ pre ++ rest /\ inside (ab, ae) f) \/
    (out.2 = Raise CouldNotAllocateError /\ misses (ab, ae) (pre ++ rest)).
Proof.
  intros H0 Hr Hsz Hrec. induction rest as [|[b e] post IH]; intros pre out Hg Hpre; simpl.
  - intros [= <-]. right. rewrite app_nil_r. auto.
  - pose proof Hg as Hg'. apply gapped_app in Hg' as (_ & (Hv & Hpost & _) & Hcross).
    unfold valid_range in Hv. simpl in Hv, Hpost.
    assert (Hhere : b <= ab -> ae <= e ->
              exists f, f ∈ pre ++ (b, e) :: post /\ inside (ab, ae) f).
    { intros. exists (b, e). split; [|unfold inside; simpl; lia].
      apply elem_of_app. right. apply elem_of_cons. left. reflexivity. }
    assert (Hpre_end : Forall (fun f : range => f.2 + 1 < b) pre).
    { eapply Forall_impl; [exact Hcross|]. simpl. intros f Hf. inversion Hf; auto. }
    assert (Hrest : forall l1,
              ab <= e -> e < ae -> gapped l1 ->
              (forall f, f ∈ l1 -> f ∈ pre \/ f.2 < ab \/ f ∈ post) ->
              forall out', rec (e + 1, ae) (set_ranges self l1) = Some out' ->
              out'.2 = Raise CouldNotAllocateError /\
              misses (ab, ae) (pre ++ (b, e) :: post)).
    { intros l1 He1 He2 Hg1 Hl1 out' Heq. split.
      - apply (Hrec e l1 out' He1 He2 Hg1); [|exact Heq].
        unfold misses. rewrite Forall_forall. intros f Hf. unfold inside. simpl.
        destruct (Hl1 f Hf) as [Hin | [Hlt | Hin]].
        + rewrite Forall_forall in Hpre_end. specialize (Hpre_end f Hin). lia.
        + lia.
        + rewrite Forall_forall in Hpost. specialize (Hpost f Hin). lia.
      - unfold misses in *. rewrite Forall_app, Forall_cons. unfold inside. simpl.
        repeat split; auto; [lia|].
        rewrite Forall_forall in *. intros f Hin. specialize (Hpost f Hin). simpl. lia. }
    destruct (Z.eqb_spec ab b) as [Heq | Hne].
    + destruct (Z.ltb_spec ae e).
      * intros [= <-]. left. split; [reflexivity|]. apply Hhere; lia.
      * destruct (Z.eqb_spec ae e).
        -- intros [= <-]. left. split; [reflexivity|]. apply Hhere; lia.
        -- intros Hout. right. apply (Hrest (pre ++ post)); auto; try lia.
           ++ eapply gapped_delete; eauto.
           ++ intros f Hf. apply elem_of_app in Hf. tauto.
    + destruct (Z.gtb_spec ab b); simpl.
      * destruct (Z.leb_spec ae e); simpl.
        -- destruct (negb (ae =? e)); intros [= <-]; left;
             (split; [reflexivity|]); apply Hhere; lia.
        -- destruct (Z.ltb_spec ab e); simpl.
           ++ destruct (Z.gtb_spec ae e); [|lia].
              intros Hout. right.
              apply (Hrest (pre ++ (b, ab - 1) :: post)); auto; try lia.
              ** apply gapped_replace with b e; auto; lia.
              ** intros f Hf. apply elem_of_app in Hf as [Hf | Hf]; [auto|].
                 apply elem_of_cons in Hf as [-> | Hf]; [right; left; simpl; lia | auto].
           ++ rewrite (app_assoc pre [(b, e)] post : pre ++ (b, e) :: post = _).
              apply IH.
              ** rewrite <- app_assoc. exact Hg.
              ** unfold misses in *. rewrite Forall_app, Forall_singleton.
                 unfold inside. simpl. split; auto. lia.
      * rewrite (app_assoc pre [(b, e)] post : pre ++ (b, e) :: post = _).
        apply IH.
        ** rewrite <- app_assoc. exact Hg.
        ** unfold misses in *. rewrite Forall_app, Forall_singleton.
           unfold inside. simpl. split; auto. lia.
Qed.

Lemma mark_allocated_fuel_gapped fuel : forall r self out,
  gapped (unallocated_ranges self) ->
  check_range_validity r (size (block self)) = Ok tt ->
  mark_allocated_fuel fuel r self = Some out ->
  (out.2 = Ok tt /\ exists f, f ∈ unallocated_ranges self /\ inside r f) \/
  (out.2 = Raise CouldNotAllocateError /\ misses r (unallocated_ranges self)).
Proof.
  induction fuel as [|fuel IH]; intros [ab ae] self out Hg Hc; [discriminate|].
  rewrite mark_allocated_fuel_unfold, Hc.
  apply check_range_validity_ok in Hc.
  intros Heq.
  refine (mark_scan_gapped _ ab ae self _ _ _ _ _ [] out Hg _ Heq);
    try lia; [|constructor].
  intros e l out' He1 He2 Hg1 Hmiss Hout.
  destruct (IH (e + 1, ae) (set_ranges self l) out' Hg1) as [[_ (f & Hf & Hin)] | [Hres _]];
    [apply check_range_validity_ok; simpl; lia | exact Hout | | exact Hres].
  destruct (misses_not_inside _ _ _ Hmiss Hf Hin).
Qed.

(** On the invariant, [mark_allocated] succeeds exactly on the ranges that
    one free entry holds, and raises [CouldNotAllocateError] on all others. *)
Lemma mark_allocated_gapped_result (self : AllocatableBlock) (r : range) :
  free_set_wf (unallocated_ranges self) ->
  check_range_validity r (size (block self)) = Ok tt ->
  exists s' res,
    mark_allocated r self = Some (s', res) /\
    ((res = Ok tt /\ exists f, f ∈ unallocated_ranges self /\ inside r f) \/
     (res = Raise CouldNotAllocateError /\ misses r (unallocated_ranges self))).
Proof.
  intros Hwf Hc. apply free_set_wf_gapped in Hwf.
  destruct (mark_allocated_total r self) as [[s' res] Heq].
  exists s', res. split; [exact Heq|].
  exact (mark_allocated_fuel_gapped _ r self (s', res) Hwf Hc Heq).
Qed.

(** ** FormatDetector *)

Lemma getitem_state key blk : (getitem (PyInt key) blk).1 = blk.
Proof.
  unfold getitem. destruct (key >=? size blk); [reflexivity|].
  destruct (array_get (data blk) key); reflexivity.
Qed.

Lemma getitem_ok_bound key blk x :
  (getitem (PyInt key) blk).2 = Ok x -> key < size blk.
Proof.
  unfold getitem. destruct (Z.geb_spec key (size blk)); [discriminate|]. intros _. lia.
Qed.

Lemma getitem_slice_state start stop blk : (getitem_slice start stop blk).1 = blk.
Proof.
  unfold getitem_slice. destruct (start >? stop); [reflexivity|].
  destruct ((start <? 0) || (stop - 1 >=? size blk)); reflexivity.
Qed.

(** A probe only reads; when it succeeds, its first offset is inside the
    buffer. *)
Lemma probe_spec a b c d offset data_ blk :
  (probe a b c d offset data_ blk).1 = blk /\
  ((probe a b c d offset data_ blk).2 = Ok true -> a < size blk).
Proof.
  unfold probe, bind, ret.
  pose proof (getitem_state a blk) as Hs. pose proof (getitem_ok_bound a blk) as Hb.
  destruct (getitem (PyInt a) blk) as [s1 [xa|e1]]; simpl in Hs; subst s1;
    [|split; [reflexivity|discriminate]].
  specialize (Hb xa eq_refl).
  pose proof (getitem_state b blk) as Hs.
  destruct (getitem (PyInt b) blk) as [s1 [xb|e1]]; simpl in Hs; subst s1;
    [|split; [reflexivity|discriminate]].
  destruct (negb (Z.land (Z.lnot xa) 255 =? xb)); [split; [reflexivity|discriminate]|].
  pose proof (getitem_state c blk) as Hs.
  destruct (getitem (PyInt c) blk) as [s1 [xc|e1]]; simpl in Hs; subst s1;
    [|split; [reflexivity|discriminate]].
  pose proof (getitem_state d blk) as Hs.
  destruct (getitem (PyInt d) blk) as [s1 [xd|e1]]; simpl in Hs; subst s1;
    [|split; [reflexivity|discriminate]].
  destruct (negb (Z.land (Z.lnot xc) 255 =? xd)); [split; [reflexivity|discriminate]|].
  pose proof (getitem_slice_state offset (offset + len data_) blk) as Hs.
  destruct (getitem_slice offset (offset + len data_) blk) as [s1 [sl|e1]];
    simpl in Hs; subst s1; [|split; [reflexivity|discriminate]].
  simpl. split; [reflexivity|]. intros _. exact Hb.
Qed.

Lemma on_rom_block_eq {A} (m : M Block A) self :
  on_rom_block m self = (set_block (m (rom_block self)).1 self, (m (rom_block self)).2).
Proof.
  unfold on_rom_block, on_ablock, on_block, set_block, with_block, rom_block.
  destruct (m (block (ablock self))). reflexivity.
Qed.

Lemma set_block_same self : set_block (rom_block self) self = self.
Proof.
  destruct self as [[blk l] ty]. reflexivity.
Qed.

(** One guarded probe of [_detect_type]: it leaves the buffer alone unless
    it is a headered probe that matches, and then it removes the first
    [0x200] bytes of a buffer longer than the probed offset. *)
Lemma try_probe_spec a b c d offset data_ strip type_name v self s' r :
  try_probe a b c d offset data_ strip type_name v self = (s', r) ->
  (r = Ok (Some (type_name, v)) /\ a < rom_size self /\
   s' = if strip then with_block remove_header self else self)
  \/ (s' = self /\ forall x, r <> Ok (Some x)).
Proof.
  unfold try_probe, try_except_OutOfBounds, bind.
  rewrite on_rom_block_eq.
  destruct (probe_spec a b c d offset data_ (rom_block self)) as [Hs Hb].
  destruct (probe a b c d offset data_ (rom_block self)) as [blk [hit|e]].
  - cbn [fst snd] in *. subst blk. rewrite set_block_same. destruct hit.
    + specialize (Hb eq_refl).
      destruct strip; unfold modify, ret; intros [= <- <-]; left; auto.
    + unfold ret. intros [= <- <-]. right. split; [reflexivity|]. discriminate.
  - cbn [fst snd] in *. subst blk. rewrite set_block_same.
    destruct e; intros [= <- <-]; right; (split; [reflexivity|]); discriminate.
Qed.

Lemma detect_entry_spec type_name d self s' r :
  detect_entry type_name d self = (s', r) ->
  (exists v, r = Ok (Some (type_name, v)) /\
     ((headered v /\ 0x81dc < rom_size self /\ s' = with_block remove_header self) \/
      (~ headered v /\ s' = self)))
  \/ (s' = self /\ forall x, r <> Ok (Some x)).
Proof.
  unfold detect_entry, headered.
  destruct (String.eqb (d_platform d) "SNES").
  - unfold bind at 1.
    destruct (try_probe 65500 65502 65501 65503 (d_offset d) (d_data d) false
                        type_name UnheaderedHiROM self) as [s1 r1] eqn:H1.
    apply try_probe_spec in H1 as [(-> & _ & ->) | (-> & Hn1)].
    { unfold ret. intros [= <- <-]. left. eexists. split; [reflexivity|].
      right. split; [intros [?|?]; discriminate | reflexivity]. }
    destruct r1 as [[x|]|e]; [destruct (Hn1 x eq_refl)| |intros [= <- <-]; right; auto].
    unfold bind at 1.
    destruct (try_probe 32732 32734 32733 32735 (d_offset d) (d_data d) false
                        type_name UnheaderedLoROM self) as [s2 r2] eqn:H2.
    apply try_probe_spec in H2 as [(-> & _ & ->) | (-> & Hn2)].
    { unfold ret. intros [= <- <-]. left. eexists. split; [reflexivity|].
      right. split; [intros [?|?]; discriminate | reflexivity]. }
    destruct r2 as [[x|]|e]; [destruct (Hn2 x eq_refl)| |intros [= <- <-]; right; auto].
    unfold bind at 1.
    destruct (try_probe 66012 66014 66013 66015 (d_offset d + 512) (d_data d) true
                        type_name HeaderedHiROM self) as [s3 r3] eqn:H3.
    apply try_probe_spec in H3 as [(-> & Hb & ->) | (-> & Hn3)].
    { unfold ret. intros [= <- <-]. left. eexists. split; [reflexivity|].
      left. repeat split; auto. lia. }
    destruct r3 as [[x|]|e]; [destruct (Hn3 x eq_refl)| |intros [= <- <-]; right; auto].
    intros H4.
    apply try_probe_spec in H4 as [(-> & Hb & ->) | (-> & Hn4)].
    { left. eexists. split; [reflexivity|]. left. repeat split; auto. }
    right. auto.
  - unfold try_except_OutOfBounds, bind. rewrite on_rom_block_eq.
    pose proof (getitem_slice_state (d_offset d) (d_offset d + len (d_data d))
                                    (rom_block self)) as Hs.
    destruct (getitem_slice (d_offset d) (d_offset d + len (d_data d)) (rom_block self))
      as [blk [sl|e]]; cbn [fst snd] in *; subst blk; rewrite set_block_same.
    + destruct (list_eqb (to_list sl) (d_data d)); unfold ret; intros [= <- <-].
      * left. eexists. split; [reflexivity|].
        right. split; [intros [?|?]; discriminate | reflexivity].
      * right. split; [reflexivity|]. discriminate.
    + destruct e; intros [= <- <-]; right; (split; [reflexivity|]); discriminate.
Qed.

Lemma detect_type_variant_spec table : forall self s' name v,
  detect_type_variant table self = (s', Ok (name, v)) ->
  (headered v /\ 0x81dc < rom_size self /\ s' = with_block remove_header self) \/
  (~ headered v /\ s' = self).
Proof.
  induction table as [|[type_name d] rest IH]; intros self s' name v; simpl.
  - unfold ret. intros [= <- <- <-]. right. split; [|reflexivity].
    intros [?|?]; discriminate.
  - unfold bind.
    destruct (detect_entry type_name d self) as [s1 r1] eqn:H1.
    apply detect_entry_spec in H1 as [(v1 & -> & Hv) | (-> & Hn)].
    + unfold ret. intros [= <- <- <-]. exact Hv.
    + destruct r1 as [[x|]|e]; [destruct (Hn x eq_refl) | apply IH | discriminate].
Qed.

(** C9. When [_detect_type] returns from one of its headered probes, the
    buffer has lost its first [0x200] bytes: [size] is smaller by exactly
    [0x200] and the byte at each new offset [i] is the one that was at
    [i + 0x200]. *)
Theorem detect_type_strips_header (ROM_TYPE_MAP : list (string * descriptor))
    (self s' : Rom) (name : string) (v : variant) :
  detect_type_variant ROM_TYPE_MAP self = (s', Ok (name, v)) ->
  headered v ->
  _detect_type ROM_TYPE_MAP self = (s', Ok name) /\
  rom_size s' = rom_size self - 0x200 /\
  rom_data s' = drop (Z.to_nat 0x200) (rom_data self) /\
  (forall i : nat, rom_data s' !! i = rom_data self !! (Z.to_nat 0x200 + i)%nat) /\
  (block_wf (rom_block self) ->
   len (rom_data s') = len (rom_data self) - 0x200 /\ block_wf (rom_block s')) /\
  unallocated_ranges (ablock s') = unallocated_ranges (ablock self) /\
  type s' = type self.
Proof.
  intros Heq Hv. split.
  { unfold _detect_type, bind. rewrite Heq. reflexivity. }
  apply detect_type_variant_spec in Heq as [(_ & Hb & ->) | (Hn & _)]; [|contradiction].
  assert (Hdata : rom_data (with_block remove_header self)
                  = drop (Z.to_nat 0x200) (rom_data self)) by reflexivity.
  assert (Hsize : rom_size (with_block remove_header self) = rom_size self - 0x200)
    by reflexivity.
  repeat split; auto.
  - intros i. rewrite Hdata. apply lookup_drop.
  - unfold block_wf, rom_block in H. fold (rom_data self) in H. fold (rom_size self) in H.
    rewrite Hdata. unfold len in *. rewrite length_drop. lia.
  - unfold block_wf. change (len (rom_data (with_block remove_header self))
                             = rom_size (with_block remove_header self)).
    unfold block_wf, rom_block in H. fold (rom_data self) in H. fold (rom_size self) in H.
    rewrite Hdata, Hsize. unfold len in *. rewrite length_drop. lia.
Qed.

Lemma detect_type_strips_header_witness :
  let s' := (detect_type_variant example_type_map headered_lorom_example).1 in
  detect_type_variant example_type_map headered_lorom_example
    = (s', Ok ("Earthbound"%string, HeaderedLoROM)) /\
  rom_size s' = rom_size headered_lorom_example - 0x200 /\
  rom_data s' = drop (Z.to_nat 0x200) (rom_data headered_lorom_example).
Proof.
  intros s'.
  assert (Hr : (detect_type_variant example_type_map headered_lorom_example).2
               = Ok ("Earthbound"%string, HeaderedLoROM))
    by (vm_compute; reflexivity).
  assert (H : detect_type_variant example_type_map headered_lorom_example
              = (s', Ok ("Earthbound"%string, HeaderedLoROM))).
  { rewrite <- Hr. apply surjective_pairing. }
  split; [exact H|].
  pose proof (detect_type_strips_header example_type_map headered_lorom_example s'
                "Earthbound" HeaderedLoROM H (or_intror eq_refl)) as (_ & Hs & Hd & _).
  split; assumption.
Defined.

(** ** FormatExpander *)

Lemma byte_to_Z_inj a b : byte_to_Z a = byte_to_Z b -> a = b.
Proof.
  unfold byte_to_Z. intros H. apply N2Z.inj in H.
  pose proof (Byte.of_to_N a) as Ha. rewrite H, Byte.of_to_N in Ha. congruence.
Qed.

Lemma setitem_byte blk key b :
  block_wf blk -> 0 <= key < size blk ->
  setitem (PyInt key) (PyInt (byte_to_Z b)) blk
  = (mkBlock (<[Z.to_nat key := b]> (data blk)) (size blk), Ok tt).
Proof.
  intros Hwf Hk.
  destruct (setitem_in_bounds blk key (byte_to_Z b) Hwf Hk (byte_to_Z_range b))
    as (b' & Hb & ->).
  apply byte_to_Z_inj in Hb. subst b'. reflexivity.
Qed.

Lemma bind_gets {S A B} (f : S -> A) (k : A -> M S B) s :
  bind (gets f) k s = k (f s) s.
Proof. reflexivity. Qed.

Lemma bind_modify {S B} (f : S -> S) (k : unit -> M S B) s :
  bind (modify f) k s = k tt (f s).
Proof. reflexivity. Qed.

Lemma bind_ret {S A B} (a : A) (k : A -> M S B) s : bind (ret a) k s = k a s.
Proof. reflexivity. Qed.

Lemma bind_on_rom_block {A B} (m : M Block A) (k : A -> M Rom B) self blk' a :
  m (rom_block self) = (blk', Ok a) ->
  bind (on_rom_block m) k self = k a (set_block blk' self).
Proof.
  intros Hm. unfold bind. rewrite on_rom_block_eq, Hm. reflexivity.
Qed.

(** The mirroring loop of [expand]: [n] iterations from [lo] copy the
    bytes at [lo .. lo+n-1] to [0x400000+lo ..]. *)
Lemma mirror_loop n : forall lo self,
  block_wf (rom_block self) ->
  0 <= lo -> lo + Z.of_nat n <= 0x400000 ->
  0x400000 + lo + Z.of_nat n <= rom_size self ->
  exists d',
    for_count lo n
      (fun i => let! x := on_rom_block (getitem (PyInt i)) in
                on_rom_block (setitem (PyInt (0x400000 + i)) (PyInt x))) self
    = (set_block (mkBlock d' (rom_size self)) self, Ok tt) /\
    length d' = length (rom_data self) /\
    forall i : nat,
      d' !! i = if (0x400000 + lo <=? Z.of_nat i) && (Z.of_nat i <? 0x400000 + lo + Z.of_nat n)
                then rom_data self !! Z.to_nat (Z.of_nat i - 0x400000)
                else rom_data self !! i.
Proof.
  induction n as [|n IH]; intros lo self Hwf Hlo Hn Hsz.
  - exists (rom_data self). split; [|split; [reflexivity|]].
    + cbn [for_count]. unfold ret. f_equal.
      destruct self as [[[d s] l] ty]. reflexivity.
    + intros i.
      destruct (Z.leb_spec (0x400000 + lo) (Z.of_nat i)),
               (Z.ltb_spec (Z.of_nat i) (0x400000 + lo + Z.of_nat 0)); try reflexivity; lia.
  - cbn [for_count].
    change (rom_size self) with (size (rom_block self)) in *.
    change (rom_data self) with (data (rom_block self)) in *.
    set (blk := rom_block self) in *.
    destruct (getitem_in_bounds blk lo Hwf) as (b & Hb & Hget); [lia|].
    unfold bind at 1. unfold bind at 1.
    rewrite on_rom_block_eq. fold blk. rewrite Hget. cbn [fst snd].
    rewrite on_rom_block_eq.
    replace (rom_block (set_block blk self)) with blk by reflexivity.
    rewrite setitem_byte by (auto; lia). cbn [fst snd].
    set (blk1 := mkBlock (<[Z.to_nat (0x400000 + lo) := b]> (data blk)) (size blk)).
    replace (set_block blk1 (set_block blk self)) with (set_block blk1 self) by reflexivity.
    assert (Hwf1 : block_wf blk1).
    { unfold block_wf, blk1, len in *. cbn [data size]. rewrite length_insert. exact Hwf. }
    destruct (IH (lo + 1) (set_block blk1 self)) as (d' & Hloop & Hlen & Hlk);
      [exact Hwf1 | lia | lia | change (rom_size (set_block blk1 self)) with (size blk); lia |].
    exists d'. split; [|split].
    + rewrite Hloop. reflexivity.
    + rewrite Hlen. change (rom_data (set_block blk1 self)) with (data blk1).
      unfold blk1. cbn [data]. apply length_insert.
    + intros i. rewrite Hlk.
      change (rom_data (set_block blk1 self)) with (data blk1). unfold blk1. cbn [data].
      assert (Hlen0 : len (data blk) = size blk) by exact Hwf. unfold len in Hlen0.
      destruct (Z.leb_spec (0x400000 + (lo + 1)) (Z.of_nat i)),
               (Z.ltb_spec (Z.of_nat i) (0x400000 + (lo + 1) + Z.of_nat n)),
               (Z.leb_spec (0x400000 + lo) (Z.of_nat i)),
               (Z.ltb_spec (Z.of_nat i) (0x400000 + lo + Z.of_nat (S n)));
        cbn [andb]; try lia; try (apply list_lookup_insert_ne; lia).
      replace i with (Z.to_nat (0x400000 + lo)) by lia.
      rewrite list_lookup_insert_eq by lia.
      rewrite <- Hb. f_equal. lia.
Qed.

Lemma expanded_base_length d :
  length d = Z.to_nat 0x300000 -> length (expanded_base d) = Z.to_nat 0x600000.
Proof.
  intros Hd. unfold expanded_base.
  rewrite length_app, !length_insert, length_app, !length_replicate, Hd. lia.
Qed.

Lemma expanded_base_lookup d (i : nat) :
  length d = Z.to_nat 0x300000 ->
  expanded_base d !! i =
    if Z.of_nat i =? 0x00ffd7 then Some x0d%byte
    else if Z.of_nat i =? 0x00ffd5 then Some x25%byte
    else if Z.of_nat i <? 0x300000 then d !! i
    else if Z.of_nat i <? 0x600000 then Some x00%byte
    else None.
Proof.
  intros Hd. unfold expanded_base.
  set (d1 := d ++ replicate (Z.to_nat 0x100000) x00%byte).
  assert (Hd1 : length d1 = Z.to_nat 0x400000).
  { unfold d1. rewrite length_app, length_replicate, Hd. lia. }
  set (d2 := <[Z.to_nat 0x00ffd5 := x25%byte]> d1).
  assert (Hd2 : length d2 = Z.to_nat 0x400000).
  { unfold d2. rewrite length_insert. exact Hd1. }
  set (d3 := <[Z.to_nat 0x00ffd7 := x0d%byte]> d2).
  assert (Hd3 : length d3 = Z.to_nat 0x400000).
  { unfold d3. rewrite length_insert. exact Hd2. }
  destruct (Z.eqb_spec (Z.of_nat i) 0x00ffd7) as [E7 | N7].
  { rewrite lookup_app_l by lia. unfold d3.
    replace i with (Z.to_nat 0x00ffd7) by lia.
    apply list_lookup_insert_eq. lia. }
  destruct (Z.eqb_spec (Z.of_nat i) 0x00ffd5) as [E5 | N5].
  { rewrite lookup_app_l by lia. unfold d3.
    rewrite list_lookup_insert_ne by lia. unfold d2.
    replace i with (Z.to_nat 0x00ffd5) by lia.
    apply list_lookup_insert_eq. lia. }
  destruct (Z.ltb_spec (Z.of_nat i) 0x300000).
  { rewrite lookup_app_l by lia. unfold d3, d2, d1.
    rewrite !list_lookup_insert_ne by lia.
    apply lookup_app_l. lia. }
  destruct (Z.ltb_spec (Z.of_nat i) 0x600000).
  - destruct (Z.lt_ge_cases (Z.of_nat i) 0x400000).
    + rewrite lookup_app_l by lia. unfold d3, d2, d1.
      rewrite !list_lookup_insert_ne by lia.
      rewrite lookup_app_r by lia. apply lookup_replicate_2. lia.
    + rewrite lookup_app_r by lia. apply lookup_replicate_2. lia.
  - apply lookup_ge_None. rewrite length_app, length_replicate. lia.
Qed.

(** [expand(0x600000)] on an Earthbound ROM of [0x300000] bytes, step by
    step: grow to [0x400000], patch the two bytes, grow to [0x600000], and
    mirror the bytes at [0x8000 .. 0xffff] to [0x408000 .. 0x40ffff]. *)
Lemma expand_0x600000_data self :
  type self = "Earthbound"%string ->
  block_wf (rom_block self) ->
  rom_size self = 0x300000 ->
  exists d',
    expand 0x600000 self = (set_block (mkBlock d' 0x600000) self, Ok tt) /\
    length d' = Z.to_nat 0x600000 /\
    forall i : nat,
      d' !! i = if (0x408000 <=? Z.of_nat i) && (Z.of_nat i <? 0x410000)
                then expanded_base (rom_data self) !! Z.to_nat (Z.of_nat i - 0x400000)
                else expanded_base (rom_data self) !! i.
Proof.
  intros Hty Hwf Hsz.
  assert (Hlen : length (rom_data self) = Z.to_nat 0x300000).
  { unfold block_wf, len in Hwf. change (data (rom_block self)) with (rom_data self) in Hwf.
    change (size (rom_block self)) with (rom_size self) in Hwf. lia. }
  unfold expand. rewrite bind_gets, Hty.
  replace (String.eqb "Earthbound" "Earthbound") with true by (symmetry; apply String.eqb_refl).
  change (negb (0x600000 =? 0x400000) && negb (0x600000 =? 0x600000)) with false.
  cbv iota. rewrite bind_gets, Hsz.
  change (0x300000 =? 0x300000) with true. cbv iota.
  rewrite bind_modify, bind_gets.
  set (s1 := with_block (append_zeros 0x100000) self).
  assert (Hs1 : rom_size s1 = 0x400000).
  { change (rom_size s1) with (rom_size self + 0x100000). lia. }
  rewrite Hs1.
  change ((0x600000 =? 0x600000) && (0x400000 =? 0x400000)) with true. cbv iota.
  set (d1 := rom_data self ++ replicate (Z.to_nat 0x100000) x00%byte).
  assert (Hb1 : rom_block s1 = mkBlock d1 (rom_size self + 0x100000)) by reflexivity.
  assert (Hd1 : length d1 = Z.to_nat 0x400000).
  { unfold d1. rewrite length_app, length_replicate, Hlen. lia. }
  assert (Hwf1 : block_wf (rom_block s1)).
  { rewrite Hb1. unfold block_wf, len. cbn [data size]. lia. }
  change 0x25 with (byte_to_Z x25%byte). change 0x0d with (byte_to_Z x0d%byte).
  erewrite bind_on_rom_block; [|apply setitem_byte; [exact Hwf1 | rewrite Hb1; cbn [size]; lia]].
  rewrite Hb1. cbn [data size].
  set (d2 := <[Z.to_nat 0x00ffd5 := x25%byte]> d1).
  set (s2 := set_block (mkBlock d2 (rom_size self + 0x100000)) s1).
  assert (Hwf2 : block_wf (rom_block s2)).
  { change (rom_block s2) with (mkBlock d2 (rom_size self + 0x100000)).
    unfold block_wf, len, d2. cbn [data size]. rewrite length_insert. lia. }
  erewrite bind_on_rom_block;
    [|apply setitem_byte; [exact Hwf2 | change (size (rom_block s2)) with (rom_size self + 0x100000); lia]].
  change (data (rom_block s2)) with d2.
  change (size (rom_block s2)) with (rom_size self + 0x100000).
  set (d3 := <[Z.to_nat 0x00ffd7 := x0d%byte]> d2).
  rewrite bind_modify.
  set (s4 := with_block (append_zeros 0x200000) _).
  assert (Hb4 : rom_block s4 = mkBlock (expanded_base (rom_data self))
                                       (rom_size self + 0x100000 + 0x200000))
    by reflexivity.
  assert (Hwf4 : block_wf (rom_block s4)).
  { rewrite Hb4. unfold block_wf, len. cbn [data size].
    rewrite expanded_base_length by exact Hlen. lia. }
  assert (Hs4 : rom_size s4 = 0x600000).
  { change (rom_size s4) with (rom_size self + 0x100000 + 0x200000). lia. }
  unfold for_xrange.
  destruct (mirror_loop (Z.to_nat (0x8000 + 0x8000 - 0x8000)) 0x8000 s4 Hwf4)
    as (d' & Hloop & Hlen' & Hlk); [lia | lia | lia |].
  exists d'. split; [|split].
  - rewrite Hloop, Hs4. reflexivity.
  - rewrite Hlen'. change (rom_data s4) with (expanded_base (rom_data self)).
    apply expanded_base_length. exact Hlen.
  - intros i. rewrite Hlk. change (rom_data s4) with (expanded_base (rom_data self)).
    destruct (Z.leb_spec (0x400000 + 0x8000) (Z.of_nat i)),
             (Z.ltb_spec (Z.of_nat i)
                         (0x400000 + 0x8000 + Z.of_nat (Z.to_nat (0x8000 + 0x8000 - 0x8000)))),
             (Z.leb_spec 0x408000 (Z.of_nat i)),
             (Z.ltb_spec (Z.of_nat i) 0x410000); cbn [andb]; try reflexivity; lia.
Qed.

Lemma expand_0x500000 self :
  type self = "Earthbound"%string ->
  expand 0x500000 self = (self, Raise InvalidArgumentError).
Proof.
  intros Hty. unfold expand. rewrite bind_gets, Hty.
  replace (String.eqb "Earthbound" "Earthbound") with true by (symmetry; apply String.eqb_refl).
  reflexivity.
Qed.

Lemma earthbound_example_wf :
  type earthbound_example = "Earthbound"%string /\
  block_wf (rom_block earthbound_example) /\
  rom_size earthbound_example = 0x300000.
Proof.
  split; [reflexivity|]. split; [|reflexivity].
  unfold block_wf, len.
  change (data (rom_block earthbound_example))
    with (x01%byte :: replicate (Z.to_nat (0x300000 - 1)) x00%byte).
  change (size (rom_block earthbound_example)) with 0x300000.
  cbn [length]. rewrite length_replicate. lia.
Qed.

(** C5 (amended). On an Earthbound ROM of [0x300000] bytes,
    [expand(0x600000)] succeeds with a buffer of exactly [0x600000] bytes in
    which offset [0x00ffd5] holds [0x25] and offset [0x00ffd7] holds [0x0d],
    the bytes at offsets [0x8000 .. 0xffff] (patches included) are mirrored
    at [0x408000 .. 0x40ffff], the other original bytes are unchanged and
    the rest of the new space is zero; [expand(0x500000)] raises
    [InvalidArgumentError]. *)
Theorem expand_earthbound (self : Rom) :
  type self = "Earthbound"%string ->
  block_wf (rom_block self) ->
  rom_size self = 0x300000 ->
  (exists s',
     expand 0x600000 self = (s', Ok tt) /\
     rom_size s' = 0x600000 /\
     len (rom_data s') = 0x600000 /\
     rom_data s' !! Z.to_nat 0x00ffd5 = Some x25%byte /\
     rom_data s' !! Z.to_nat 0x00ffd7 = Some x0d%byte /\
     (forall i, 0x8000 <= i < 0x10000 ->
        rom_data s' !! Z.to_nat (0x400000 + i) = rom_data s' !! Z.to_nat i) /\
     (forall i, 0 <= i < 0x300000 -> i <> 0x00ffd5 -> i <> 0x00ffd7 ->
        rom_data s' !! Z.to_nat i = rom_data self !! Z.to_nat i) /\
     (forall i, 0x300000 <= i < 0x600000 -> ~ (0x408000 <= i < 0x410000) ->
        rom_data s' !! Z.to_nat i = Some x00%byte))
  /\ expand 0x500000 self = (self, Raise InvalidArgumentError).
Proof.
  intros Hty Hwf Hsz. split; [|apply expand_0x500000; exact Hty].
  assert (Hlen : length (rom_data self) = Z.to_nat 0x300000).
  { unfold block_wf, len in Hwf. change (data (rom_block self)) with (rom_data self) in Hwf.
    change (size (rom_block self)) with (rom_size self) in Hwf. lia. }
  destruct (expand_0x600000_data self Hty Hwf Hsz) as (d' & -> & Hd' & Hlk).
  eexists. split; [reflexivity|].
  change (rom_data (set_block (mkBlock d' 0x600000) self)) with d'.
  assert (Hat : forall i : Z, 0 <= i ->
            d' !! Z.to_nat i =
              if (0x408000 <=? i) && (i <? 0x410000)
              then expanded_base (rom_data self) !! Z.to_nat (i - 0x400000)
              else expanded_base (rom_data self) !! Z.to_nat i).
  { intros i Hi. rewrite Hlk, Z2Nat.id by lia. reflexivity. }
  assert (Hbase : forall i : Z, 0 <= i ->
            expanded_base (rom_data self) !! Z.to_nat i =
              if i =? 0x00ffd7 then Some x0d%byte
              else if i =? 0x00ffd5 then Some x25%byte
              else if i <? 0x300000 then rom_data self !! Z.to_nat i
              else if i <? 0x600000 then Some x00%byte
              else None).
  { intros i Hi. rewrite expanded_base_lookup, Z2Nat.id by (auto; lia). reflexivity. }
  split; [reflexivity|]. split; [unfold len; lia|].
  repeat split.
  - rewrite Hat by lia. destruct (Z.leb_spec 0x408000 0x00ffd5); [lia|]. cbn [andb].
    rewrite Hbase by lia. reflexivity.
  - rewrite Hat by lia. destruct (Z.leb_spec 0x408000 0x00ffd7); [lia|]. cbn [andb].
    rewrite Hbase by lia. reflexivity.
  - intros i Hi. rewrite !Hat by lia.
    destruct (Z.leb_spec 0x408000 (0x400000 + i)), (Z.ltb_spec (0x400000 + i) 0x410000),
             (Z.leb_spec 0x408000 i), (Z.ltb_spec i 0x410000); cbn [andb]; try lia.
    f_equal. f_equal. lia.
  - intros i Hi N5 N7. rewrite Hat by lia.
    destruct (Z.leb_spec 0x408000 i); [lia|]. cbn [andb]. rewrite Hbase by lia.
    destruct (Z.eqb_spec i 0x00ffd7), (Z.eqb_spec i 0x00ffd5), (Z.ltb_spec i 0x300000);
      try lia; reflexivity.
  - intros i Hi Hout. rewrite Hat by lia.
    destruct (Z.leb_spec 0x408000 i), (Z.ltb_spec i 0x410000); cbn [andb]; try lia;
      rewrite Hbase by lia;
      destruct (Z.eqb_spec i 0x00ffd7), (Z.eqb_spec i 0x00ffd5), (Z.ltb_spec i 0x300000),
               (Z.ltb_spec i 0x600000); try lia; reflexivity.
Qed.

Lemma expand_earthbound_witness :
  (exists s',
     expand 0x600000 earthbound_example = (s', Ok tt) /\
     rom_size s' = 0x600000 /\
     len (rom_data s') = 0x600000 /\
     rom_data s' !! Z.to_nat 0x00ffd5 = Some x25%byte /\
     rom_data s' !! Z.to_nat 0x00ffd7 = Some x0d%byte /\
     (forall i, 0x8000 <= i < 0x10000 ->
        rom_data s' !! Z.to_nat (0x400000 + i) = rom_data s' !! Z.to_nat i) /\
     (forall i, 0 <= i < 0x300000 -> i <> 0x00ffd5 -> i <> 0x00ffd7 ->
        rom_data s' !! Z.to_nat i = rom_data earthbound_example !! Z.to_nat i) /\
     (forall i, 0x300000 <= i < 0x600000 -> ~ (0x408000 <= i < 0x410000) ->
        rom_data s' !! Z.to_nat i = Some x00%byte))
  /\ expand 0x500000 earthbound_example = (earthbound_example, Raise InvalidArgumentError).
Proof.
  exact (expand_earthbound earthbound_example
           (proj1 earthbound_example_wf)
           (proj1 (proj2 earthbound_example_wf))
           (proj2 (proj2 earthbound_example_wf))).
Defined.

(** The claim as stated has the first [0x8000] bytes copied to offset
    [0x400000]; on a ROM whose first byte is [1] the byte at [0x400000] is
    [0] after the expansion. *)
Lemma expand_mirror_counterexample :
  exists s',
    expand 0x600000 earthbound_example = (s', Ok tt) /\
    rom_data earthbound_example !! Z.to_nat 0 = Some x01%byte /\
    rom_data s' !! Z.to_nat (0x400000 + 0) = Some x00%byte.
Proof.
  destruct earthbound_example_wf as (Hty & Hwf & Hsz).
  assert (Hlen : length (rom_data earthbound_example) = Z.to_nat 0x300000).
  { unfold block_wf, len in Hwf.
    change (data (rom_block earthbound_example)) with (rom_data earthbound_example) in Hwf.
    change (size (rom_block earthbound_example)) with (rom_size earthbound_example) in Hwf.
    lia. }
  destruct (expand_0x600000_data earthbound_example Hty Hwf Hsz) as (d' & -> & Hd' & Hlk).
  eexists. split; [reflexivity|]. split; [reflexivity|].
  change (rom_data (set_block (mkBlock d' 0x600000) earthbound_example)) with d'.
  rewrite Hlk.
  destruct (Z.leb_spec 0x408000 (Z.of_nat (Z.to_nat (0x400000 + 0)))); [lia|]. cbn [andb].
  rewrite expanded_base_lookup by exact Hlen.
  destruct (Z.eqb_spec (Z.of_nat (Z.to_nat (0x400000 + 0))) 0x00ffd7); [lia|].
  destruct (Z.eqb_spec (Z.of_nat (Z.to_nat (0x400000 + 0))) 0x00ffd5); [lia|].
  destruct (Z.ltb_spec (Z.of_nat (Z.to_nat (0x400000 + 0))) 0x300000); [lia|].
  destruct (Z.ltb_spec (Z.of_nat (Z.to_nat (0x400000 + 0))) 0x600000); [|lia].
  reflexivity.
Qed.

(** * Further properties *)

(** ** ByteBlock: slices *)

Lemma getitem_result blk blk' key :
  data blk' = data blk -> size blk' = size blk ->
  (getitem (PyInt key) blk').2 = (getitem (PyInt key) blk).2.
Proof.
  intros Hd Hs. unfold getitem. rewrite Hd, Hs.
  destruct (key >=? size blk); [reflexivity|].
  destruct (array_get (data blk) key); reflexivity.
Qed.

Lemma getitem_lookup blk blk' k k' :
  block_wf blk -> block_wf blk' ->
  0 <= k < size blk -> 0 <= k' < size blk' ->
  data blk !! Z.to_nat k = data blk' !! Z.to_nat k' ->
  (getitem (PyInt k) blk).2 = (getitem (PyInt k') blk').2.
Proof.
  intros Hwf Hwf' Hk Hk' Hlk.
  destruct (getitem_in_bounds blk k Hwf Hk) as (b & Hb & ->).
  destruct (getitem_in_bounds blk' k' Hwf' Hk') as (b' & Hb' & ->).
  simpl. congruence.
Qed.

(** X1. Reading a slice never changes the block; it raises
    [InvalidArgumentError] exactly when [stop < start], and otherwise
    [OutOfBoundsError] exactly when [start < 0] or [stop > size]; no other
    exception is raised.  An empty slice at [start = stop = size] is in
    bounds. *)
Theorem getitem_slice_errors (blk : Block) (start stop : Z) :
  (getitem_slice start stop blk).1 = blk /\
  ((getitem_slice start stop blk).2 = Raise InvalidArgumentError <-> stop < start) /\
  ((getitem_slice start stop blk).2 = Raise OutOfBoundsError
   <-> start <= stop /\ (start < 0 \/ size blk < stop)) /\
  (forall e, (getitem_slice start stop blk).2 = Raise e ->
             e = InvalidArgumentError \/ e = OutOfBoundsError).
Proof.
  unfold getitem_slice.
  destruct (Z.gtb_spec start stop), (Z.ltb_spec start 0),
           (Z.geb_spec (stop - 1) (size blk)); simpl;
    (split; [reflexivity|]); (split; [|split]);
    try (split; [intros; try discriminate; lia | intros; try reflexivity; lia]);
    intros e [= <-]; auto.
Qed.

(** X2. On a block whose size is its length, a slice with
    [0 <= start <= stop <= size] is a block of [stop - start] bytes whose
    byte at [i] is the byte at [start + i] of the original. *)
Theorem getitem_slice_content (blk : Block) (start stop : Z) :
  block_wf blk -> 0 <= start -> start <= stop -> stop <= size blk ->
  exists sub,
    getitem_slice start stop blk = (blk, Ok sub) /\
    size sub = stop - start /\
    block_wf sub /\
    forall i, 0 <= i < stop - start ->
      (getitem (PyInt i) sub).2 = (getitem (PyInt (start + i)) blk).2.
Proof.
  intros Hwf H0 H1 H2. unfold getitem_slice.
  destruct (Z.gtb_spec start stop); [lia|].
  destruct (Z.ltb_spec start 0); [lia|].
  destruct (Z.geb_spec (stop - 1) (size blk)); [lia|]. simpl.
  eexists. split; [reflexivity|].
  assert (Hlen : length (array_slice (data blk) start stop) = Z.to_nat (stop - start)).
  { unfold array_slice. rewrite length_take, length_drop.
    unfold block_wf, len in Hwf. lia. }
  assert (Hsub : block_wf (from_array (array_slice (data blk) start stop))).
  { unfold block_wf, from_array. reflexivity. }
  split; [unfold from_array, len; simpl; lia|]. split; [exact Hsub|].
  intros i Hi. apply getitem_lookup; auto.
  - unfold from_array, len. simpl. lia.
  - lia.
  - unfold from_array, array_slice. simpl.
    rewrite lookup_take_lt by lia. rewrite lookup_drop. f_equal. lia.
Qed.

Lemma getitem_slice_content_witness :
  let blk := mkBlock [x07; x09; x00; x01]%byte 4 in
  exists sub,
    getitem_slice 1 3 blk = (blk, Ok sub) /\
    size sub = 3 - 1 /\
    block_wf sub /\
    forall i, 0 <= i < 3 - 1 -> (getitem (PyInt i) sub).2 = (getitem (PyInt (1 + i)) blk).2.
Proof.
  intros blk. apply (getitem_slice_content blk 1 3); [reflexivity | lia | lia | simpl; lia].
Defined.

Lemma array_of_list_bytes item : forall a,
  array_of_list item = Ok a -> map byte_to_Z a = item /\ Forall is_byte item.
Proof.
  induction item as [|z item IH]; simpl; intros a.
  - intros [= <-]. split; constructor.
  - unfold byte_of_Z at 1.
    destruct (Z.ltb_spec z 0); [discriminate|].
    destruct (Z.ltb_spec 255 z); [discriminate|]. simpl.
    destruct (Byte.of_N (Z.to_N z)) as [b|] eqn:Hb; [|discriminate].
    destruct (array_of_list item) as [bs|]; [|discriminate].
    intros [= <-]. destruct (IH bs eq_refl) as [Hm Hf].
    apply Byte.to_of_N in Hb. split.
    + simpl. rewrite Hm. f_equal. unfold byte_to_Z. rewrite Hb. lia.
    + constructor; [unfold is_byte; lia | exact Hf].
Qed.

Lemma array_of_list_ok item :
  Forall is_byte item -> exists a, array_of_list item = Ok a /\ map byte_to_Z a = item.
Proof.
  induction 1 as [|z item Hz _ (a & Ha & Hm)]; simpl.
  - exists []. auto.
  - destruct (byte_of_Z_ok z Hz) as (b & -> & Hb). rewrite Ha.
    exists (b :: a). simpl. rewrite Hb, Hm. auto.
Qed.

Lemma array_of_list_length item a : array_of_list item = Ok a -> length a = length item.
Proof.
  intros H. apply array_of_list_bytes in H as [<- _]. rewrite length_map. reflexivity.
Qed.

(** X3. Writing a slice raises [InvalidArgumentError] exactly when
    [stop < start] or, for a range inside the block, when the data has the
    wrong length or the range is empty; it raises [OutOfBoundsError]
    exactly when [start <= stop] and [start < 0] or [stop > size];
    whatever it raises, the block is unchanged. *)
Theorem setitem_slice_errors (blk : Block) (start stop : Z) (item : list Z) :
  ((setitem_slice start stop item blk).2 = Raise InvalidArgumentError
   <-> stop < start \/
       (0 <= start /\ start <= stop /\ stop <= size blk /\
        (len item <> stop - start \/ stop = start))) /\
  ((setitem_slice start stop item blk).2 = Raise OutOfBoundsError
   <-> start <= stop /\ (start < 0 \/ size blk < stop)) /\
  (forall e, (setitem_slice start stop item blk).2 = Raise e ->
             (setitem_slice start stop item blk).1 = blk).
Proof.
  unfold setitem_slice.
  destruct (Z.gtb_spec start stop); simpl.
  { repeat split; intros; try discriminate; try reflexivity; lia. }
  destruct (Z.ltb_spec start 0); simpl.
  { repeat split; intros; try discriminate; try reflexivity; lia. }
  destruct (Z.geb_spec (stop - 1) (size blk)); simpl.
  { repeat split; intros; try discriminate; try reflexivity; lia. }
  destruct (Z.eqb_spec (len item) (stop - start)); simpl.
  2:{ repeat split; intros; try discriminate; try reflexivity; lia. }
  destruct (Z.eqb_spec (stop - start) 0); simpl.
  { repeat split; intros; try discriminate; try reflexivity; lia. }
  destruct (array_of_list item) as [a|err] eqn:Ha; simpl.
  - repeat split; intros; try discriminate; lia.
  - apply array_of_list_error in Ha. subst err.
    repeat split; intros; try discriminate; try reflexivity; lia.
Qed.

(** X4. On a block whose size is its length, writing [stop - start > 0]
    bytes to a slice inside the block succeeds, keeps the size, and the
    same slice reads back the written list; every byte outside the slice
    is as before. *)
Theorem setitem_slice_getitem_slice (blk : Block) (start stop : Z) (item : list Z) :
  block_wf blk -> 0 <= start -> start < stop -> stop <= size blk ->
  len item = stop - start -> Forall is_byte item ->
  exists blk',
    setitem_slice start stop item blk = (blk', Ok tt) /\
    size blk' = size blk /\
    block_wf blk' /\
    (exists sub, getitem_slice start stop blk' = (blk', Ok sub) /\ to_list sub = item) /\
    (forall i, 0 <= i < start \/ stop <= i < size blk ->
       (getitem (PyInt i) blk').2 = (getitem (PyInt i) blk).2).
Proof.
  intros Hwf H0 H1 H2 Hlen Hbytes. unfold setitem_slice.
  destruct (Z.gtb_spec start stop); [lia|].
  destruct (Z.ltb_spec start 0); [lia|].
  destruct (Z.geb_spec (stop - 1) (size blk)); [lia|]. simpl.
  destruct (Z.eqb_spec (len item) (stop - start)); [|lia]. simpl.
  destruct (Z.eqb_spec (stop - start) 0); [lia|].
  destruct (array_of_list_ok item Hbytes) as (a & Ha & Hm). rewrite Ha.
  assert (Hla : length a = Z.to_nat (stop - start)).
  { rewrite (array_of_list_length item a Ha). unfold len in Hlen. lia. }
  assert (Hld : length (data blk) = Z.to_nat (size blk)).
  { unfold block_wf, len in Hwf. lia. }
  set (d' := array_set_slice (data blk) start stop a).
  assert (Hd' : length d' = length (data blk)).
  { unfold d', array_set_slice. rewrite !length_app, length_take, length_drop. lia. }
  assert (Hwf' : block_wf (mkBlock d' (size blk))).
  { unfold block_wf, len in *. simpl. lia. }
  eexists. split; [reflexivity|]. split; [reflexivity|]. split; [exact Hwf'|]. split.
  - unfold getitem_slice. simpl.
    destruct (Z.gtb_spec start stop); [lia|].
    destruct (Z.ltb_spec start 0); [lia|].
    destruct (Z.geb_spec (stop - 1) (size blk)); [lia|]. simpl.
    eexists. split; [reflexivity|].
    unfold to_list, from_array, array_slice, d', array_set_slice. simpl.
    rewrite drop_app_length' by (rewrite length_take; lia).
    rewrite take_app_length' by lia. exact Hm.
  - intros i Hi. apply getitem_lookup; auto; simpl; try lia.
    unfold d', array_set_slice. destruct Hi as [Hi | Hi].
    + rewrite lookup_app_l by (rewrite length_take; lia).
      apply lookup_take_lt. lia.
    + rewrite lookup_app_r by (rewrite length_take; lia).
      rewrite lookup_app_r by (rewrite length_take; lia).
      rewrite lookup_drop, length_take. f_equal. lia.
Qed.

Lemma setitem_slice_getitem_slice_witness :
  let blk := mkBlock [x07; x09; x00; x01]%byte 4 in
  exists blk',
    setitem_slice 1 3 [200; 3] blk = (blk', Ok tt) /\
    size blk' = size blk /\
    block_wf blk' /\
    (exists sub, getitem_slice 1 3 blk' = (blk', Ok sub) /\ to_list sub = [200; 3]) /\
    (forall i, 0 <= i < 1 \/ 3 <= i < size blk ->
       (getitem (PyInt i) blk').2 = (getitem (PyInt i) blk).2).
Proof.
  intros blk. apply (setitem_slice_getitem_slice blk 1 3 [200; 3]);
    [reflexivity | lia | lia | simpl; lia | reflexivity |
     repeat constructor; unfold is_byte; lia].
Defined.

(** ** ByteBlock: single bytes *)

(** X5. On a block whose size is its length, writing a byte at an offset
    in [[0, size)] and reading the same offset returns that byte; the size
    and every other byte stay as they were. *)
Theorem setitem_getitem (blk : Block) (key item : Z) :
  block_wf blk -> 0 <= key < size blk -> is_byte item ->
  exists blk',
    setitem (PyInt key) (PyInt item) blk = (blk', Ok tt) /\
    size blk' = size blk /\
    block_wf blk' /\
    getitem (PyInt key) blk' = (blk', Ok item) /\
    (forall k, 0 <= k < size blk -> k <> key ->
       (getitem (PyInt k) blk').2 = (getitem (PyInt k) blk).2).
Proof.
  intros Hwf Hk Hi.
  destruct (setitem_in_bounds blk key item Hwf Hk Hi) as (b & Hb & ->).
  set (blk' := mkBlock (<[Z.to_nat key := b]> (data blk)) (size blk)).
  assert (Hwf' : block_wf blk').
  { unfold block_wf, blk', len in *. simpl. rewrite length_insert. exact Hwf. }
  exists blk'. split; [reflexivity|]. split; [reflexivity|]. split; [exact Hwf'|]. split.
  - destruct (getitem_in_bounds blk' key Hwf' Hk) as (b' & Hb' & ->).
    unfold blk' in Hb'. simpl in Hb'.
    rewrite list_lookup_insert_eq in Hb' by (unfold block_wf, len in Hwf; lia).
    injection Hb' as <-. rewrite Hb. reflexivity.
  - intros k Hk' Hne. apply getitem_lookup; auto.
    unfold blk'. simpl. apply list_lookup_insert_ne. lia.
Qed.

Lemma setitem_getitem_witness :
  let blk := mkBlock [x07; x09; x00; x01]%byte 4 in
  exists blk',
    setitem (PyInt 2) (PyInt 0xab) blk = (blk', Ok tt) /\
    size blk' = size blk /\
    block_wf blk' /\
    getitem (PyInt 2) blk' = (blk', Ok 0xab) /\
    (forall k, 0 <= k < size blk -> k <> 2 -> (getitem (PyInt k) blk').2 = (getitem (PyInt k) blk).2).
Proof.
  intros blk. apply (setitem_getitem blk 2 0xab); [reflexivity | simpl; lia | unfold is_byte; lia].
Defined.

(** What a single-byte write of an [int] at an [int] offset can do. *)
Lemma setitem_int_cases k z blk :
  (~ is_byte z /\ setitem (PyInt k) (PyInt z) blk = (blk, Raise ValueNotUnsignedByteError)) \/
  (is_byte z /\ setitem (PyInt k) (PyInt z) blk = (blk, Raise OutOfBoundsError)) \/
  (is_byte z /\ setitem (PyInt k) (PyInt z) blk = (blk, Raise IndexError)) \/
  (is_byte z /\ exists d, setitem (PyInt k) (PyInt z) blk = (mkBlock d (size blk), Ok tt)).
Proof.
  unfold setitem, is_byte.
  destruct (Z.ltb_spec z 0); simpl; [left; split; [lia | reflexivity]|].
  destruct (Z.gtb_spec z 255); simpl; [left; split; [lia | reflexivity]|].
  right. destruct (k >=? size blk); [left; split; [lia | reflexivity]|].
  right. destruct (byte_of_Z_ok z) as (b & -> & _); [lia|].
  unfold array_set. destruct (array_index (data blk) k); simpl.
  - right. split; [lia|]. eexists. reflexivity.
  - left. split; [lia | reflexivity].
Qed.

(** X6. A single-byte write tests the types before anything else: it
    raises [TypeError] exactly when the offset or the value is a [long],
    whatever their values, as a single-byte read does for a [long]
    offset.  For two [int]s the value check comes next: it raises
    [ValueNotUnsignedByteError] exactly when the value is outside
    [[0, 255]], whatever the offset.  The array's own [OverflowError] is
    never reached, and whatever is raised, the block is unchanged. *)
Theorem setitem_value_check (blk : Block) (key item : integer) :
  ((setitem key item blk).2 = Raise TypeError
   <-> isinstance_int key && isinstance_int item = false) /\
  ((getitem key blk).2 = Raise TypeError <-> isinstance_int key = false) /\
  ((setitem key item blk).2 = Raise ValueNotUnsignedByteError
   <-> isinstance_int key && isinstance_int item = true /\ ~ is_byte (value item)) /\
  (setitem key item blk).2 <> Raise OverflowError /\
  (forall e, (setitem key item blk).2 = Raise e -> (setitem key item blk).1 = blk).
Proof.
  assert (Hget : (getitem key blk).2 = Raise TypeError <-> isinstance_int key = false).
  { destruct key as [k | k]; simpl; [|split; reflexivity].
    split; [|discriminate]. unfold getitem.
    destruct (k >=? size blk); [discriminate|].
    unfold array_get. destruct (array_index (data blk) k) as [n|]; [|discriminate].
    destruct (data blk !! n); discriminate. }
  split; [|split; [exact Hget|]].
  - destruct (isinstance_int key && isinstance_int item) eqn:Ht.
    + split; [|discriminate].
      destruct key as [k | k], item as [z | z]; try discriminate Ht.
      destruct (setitem_int_cases k z blk) as [[_ ->] | [[_ ->] | [[_ ->] | [_ [d ->]]]]];
        discriminate.
    + rewrite setitem_long by exact Ht. split; reflexivity.
  - destruct (isinstance_int key && isinstance_int item) eqn:Ht.
    + destruct key as [k | k], item as [z | z]; try discriminate Ht. cbn [value].
      destruct (setitem_int_cases k z blk) as [[Hz ->] | [[Hz ->] | [[Hz ->] | [Hz [d ->]]]]];
        cbn [fst snd]; repeat split; try discriminate; try tauto;
        intros; try reflexivity; try discriminate; tauto.
    + rewrite setitem_long by exact Ht. cbn [fst snd].
      repeat split; try discriminate; intros; try reflexivity. destruct H; discriminate.
Qed.

(** ** ByteBlock: multi-byte integers, widths and bounds *)

(** X7. A negative width is an [InvalidArgumentError] for both multi-byte
    operations.  A width of zero reads as [0] at every offset, even outside
    the block, while a write of width zero still checks the offset and
    raises [OutOfBoundsError] outside [[0, size)]; neither changes the
    block, and neither looks at the type of the offset or of the value. *)
Theorem multi_byte_degenerate_width (maxint : Z) (blk : Block) (key item : integer) (w : Z) :
  (w < 0 ->
   read_multi (value key) w blk = (blk, Raise InvalidArgumentError) /\
   write_multi maxint key item w blk = (blk, Raise InvalidArgumentError)) /\
  read_multi (value key) 0 blk = (blk, Ok 0) /\
  (0 <= value key < size blk -> write_multi maxint key item 0 blk = (blk, Ok tt)) /\
  (~ (0 <= value key < size blk) ->
   write_multi maxint key item 0 blk = (blk, Raise OutOfBoundsError)).
Proof.
  unfold read_multi, write_multi, bind, gets, raise, ret. repeat split.
  - destruct (Z.ltb_spec w 0); [reflexivity|lia].
  - destruct (Z.ltb_spec w 0); [reflexivity|lia].
  - intros Hk. simpl.
    destruct (Z.ltb_spec (value key) 0); [lia|].
    destruct (Z.geb_spec (value key) (size blk)); [lia|].
    destruct (Z.gtb_spec (value key + 0) (size blk)); [lia|]. reflexivity.
  - intros Hk. simpl.
    destruct (Z.ltb_spec (value key) 0); [reflexivity|].
    destruct (Z.geb_spec (value key) (size blk)); [reflexivity|]. lia.
Qed.

Lemma multi_byte_degenerate_width_witness :
  let blk := mkBlock [] 0 in
  read_multi 0 (-1) blk = (blk, Raise InvalidArgumentError) /\
  read_multi 0 0 blk = (blk, Ok 0) /\
  write_multi (2 ^ 31 - 1) (PyInt 0) (PyInt 7) 0 blk = (blk, Raise OutOfBoundsError).
Proof.
  intros blk.
  pose proof (multi_byte_degenerate_width (2 ^ 31 - 1) blk (PyInt 0) (PyInt 7) (-1))
    as (Hneg & Hr0 & _ & Hw0).
  split; [apply Hneg; lia|]. split; [exact Hr0|]. apply Hw0. simpl. lia.
Defined.

Lemma is_byte_testbit_high b i : is_byte b -> 8 <= i -> Z.testbit b i = false.
Proof.
  intros Hb Hi. unfold is_byte in Hb.
  rewrite <- (Z.mod_small b (2 ^ 8)) by (change (2 ^ 8) with 256; lia).
  rewrite Z.testbit_mod_pow2 by lia.
  destruct (Z.ltb_spec i 8); [lia|]. reflexivity.
Qed.

Lemma le_value_testbit_high l : forall i,
  Forall is_byte l -> 8 * len l <= i -> Z.testbit (le_value l) i = false.
Proof.
  induction l as [|b l IH]; intros i Hl Hi.
  - apply Z.bits_0.
  - inversion Hl as [|? ? Hb Hl']; subst.
    change (le_value (b :: l)) with (Z.lor (Z.shiftl (le_value l) 8) b).
    unfold len in *. simpl length in Hi.
    rewrite Z.lor_spec, Z.shiftl_spec by lia.
    rewrite IH by (auto; lia). rewrite is_byte_testbit_high by (auto; lia). reflexivity.
Qed.

Lemma le_value_bound l :
  Forall is_byte l -> 0 <= le_value l < 2 ^ (8 * len l).
Proof.
  intros Hl.
  assert (Hmod : le_value l = le_value l mod 2 ^ (8 * len l)).
  { apply Z.bits_inj'. intros i Hi.
    rewrite Z.testbit_mod_pow2 by (unfold len; lia).
    destruct (Z.ltb_spec i (8 * len l)); [reflexivity|].
    simpl. apply le_value_testbit_high; auto. }
  rewrite Hmod. apply Z.mod_pos_bound. apply Z.pow_pos_nonneg; unfold len; lia.
Qed.

Lemma le_value_low_byte b l : is_byte b -> le_value (b :: l) mod 256 = b.
Proof.
  intros Hb.
  change (le_value (b :: l)) with (Z.lor (Z.shiftl (le_value l) 8) b).
  rewrite <- (Z.mod_small b 256) at 2 by (unfold is_byte in Hb; lia).
  change 256 with (2 ^ 8). apply Z.bits_inj'. intros i Hi.
  rewrite !Z.testbit_mod_pow2 by lia.
  destruct (Z.ltb_spec i 8); [|reflexivity]. simpl.
  rewrite Z.lor_spec, Z.shiftl_spec_low by lia. reflexivity.
Qed.

Lemma map_byte_to_Z_is_byte (a : list byte) : Forall is_byte (map byte_to_Z a).
Proof.
  induction a as [|b a IH]; constructor; [apply byte_to_Z_range | exact IH].
Qed.

(** X8. On a block whose size is its length, a multi-byte read of width
    [w > 0] inside the block returns a value in [[0, 2^(8w))] whose low
    byte is the byte at the offset itself, and leaves the block alone. *)
Theorem read_multi_value (blk : Block) (o w : Z) :
  block_wf blk -> 0 <= o -> 0 < w -> o + w <= size blk ->
  exists v,
    read_multi o w blk = (blk, Ok v) /\
    0 <= v < 2 ^ (8 * w) /\
    v = le_value (map byte_to_Z (array_slice (data blk) o (o + w))) /\
    getitem (PyInt o) blk = (blk, Ok (v mod 256)).
Proof.
  intros Hwf Ho Hw Hspan.
  destruct (getitem_in_bounds blk o Hwf) as (b & Hb & Hget); [lia|]. rewrite Hget.
  unfold read_multi, bind, gets, raise, ret.
  destruct (Z.ltb_spec w 0); [lia|].
  destruct (Z.eqb_spec w 0); [lia|].
  destruct (Z.ltb_spec o 0); [lia|].
  destruct (Z.geb_spec o (size blk)); [lia|].
  destruct (Z.gtb_spec (o + w) (size blk)); [lia|]. simpl.
  unfold getitem_slice.
  destruct (Z.gtb_spec o (o + w)); [lia|].
  destruct (Z.ltb_spec o 0); [lia|].
  destruct (Z.geb_spec (o + w - 1) (size blk)); [lia|]. simpl.
  unfold lift_result, to_list, from_array. simpl.
  set (sl := array_slice (data blk) o (o + w)).
  assert (Hlen : length sl = Z.to_nat w).
  { unfold sl, array_slice. rewrite length_take, length_drop.
    unfold block_wf, len in Hwf. lia. }
  assert (Hsl : exists tl, sl = b :: tl).
  { unfold sl, array_slice. rewrite (drop_S _ _ _ Hb).
    destruct (Z.to_nat (o + w - o)) eqn:E; [lia|]. simpl. eauto. }
  destruct Hsl as (tl & Hsl).
  rewrite reduce_rev_le_value by (rewrite Hsl; discriminate).
  eexists. split; [reflexivity|]. split; [|split; [reflexivity|]].
  - pose proof (le_value_bound (map byte_to_Z sl) (map_byte_to_Z_is_byte sl)) as Hbd.
    unfold len in Hbd. rewrite length_map, Hlen, Z2Nat.id in Hbd by lia. exact Hbd.
  - rewrite Hsl. simpl map. rewrite le_value_low_byte by apply byte_to_Z_range.
    reflexivity.
Qed.

Lemma read_multi_value_witness :
  let blk := mkBlock [x07; x09; x00; x01]%byte 4 in
  exists v,
    read_multi 1 3 blk = (blk, Ok v) /\
    0 <= v < 2 ^ (8 * 3) /\
    v = le_value (map byte_to_Z (array_slice (data blk) 1 (1 + 3))) /\
    getitem (PyInt 1) blk = (blk, Ok (v mod 256)).
Proof.
  intros blk. apply (read_multi_value blk 1 3); [reflexivity | lia | lia | simpl; lia].
Defined.

(** X9. On a block whose size is its length and an [int], a multi-byte
    write at an [int] offset inside the block succeeds exactly when the
    value is an [int] or the width is zero; a [long] value raises
    [TypeError] on the first byte and nothing is written.  Either way the
    size is kept and every byte outside the span [[o, o + w)] is as
    before. *)
Theorem write_multi_frame (maxint : Z) (blk : Block) (o w : Z) (item : integer) :
  block_wf blk -> size blk <= maxint ->
  0 <= o < size blk -> 0 <= w -> o + w <= size blk ->
  exists blk',
    write_multi maxint (PyInt o) item w blk
      = (blk', if isinstance_int item || (w =? 0) then Ok tt else Raise TypeError) /\
    (isinstance_int item = false -> blk' = blk) /\
    size blk' = size blk /\
    block_wf blk' /\
    (forall i, 0 <= i < o \/ o + w <= i < size blk ->
       (getitem (PyInt i) blk').2 = (getitem (PyInt i) blk).2).
Proof.
  intros Hwf Hmax Ho Hw Hspan.
  unfold write_multi, bind, gets, raise, ret. cbn [value].
  destruct (Z.ltb_spec w 0); [lia|].
  destruct (Z.ltb_spec o 0); [lia|].
  destruct (Z.geb_spec o (size blk)); [lia|].
  destruct (Z.gtb_spec (o + w) (size blk)); [lia|]. simpl.
  destruct (Z.eqb_spec w 0) as [-> | Hw0].
  { exists blk. rewrite orb_true_r. repeat split; auto. }
  rewrite orb_false_r.
  destruct item as [v | v]; cbn [isinstance_int].
  - destruct (write_multi_loop_slice maxint (Z.to_nat w) o v blk Hwf)
      as (d' & -> & Hlen & Htake & Hdrop & _); [lia | lia | lia |].
    assert (Hwf' : block_wf (mkBlock d' (size blk))).
    { unfold block_wf, len in *. simpl. lia. }
    eexists. split; [reflexivity|]. split; [discriminate|].
    split; [reflexivity|]. split; [exact Hwf'|].
    intros i Hi. apply getitem_lookup; auto; simpl; try lia.
    destruct Hi as [Hi | Hi].
    + rewrite <- (lookup_take_lt d' (Z.to_nat o)) by lia.
      rewrite Htake. apply lookup_take_lt. lia.
    + replace (Z.to_nat i) with (Z.to_nat o + Z.to_nat w + (Z.to_nat i - Z.to_nat (o + w)))%nat
        by lia.
      rewrite <- !lookup_drop. rewrite Hdrop. reflexivity.
  - destruct (Z.to_nat w) as [|n] eqn:En; [lia|].
    rewrite write_multi_loop_long by reflexivity.
    exists blk. repeat split; auto.
Qed.

Lemma write_multi_frame_witness :
  let blk := mkBlock [x07; x09; x00; x01]%byte 4 in
  (exists blk',
     write_multi (2 ^ 31 - 1) (PyInt 1) (PyInt 0x1234) 2 blk = (blk', Ok tt) /\
     (forall i, 0 <= i < 1 \/ 1 + 2 <= i < size blk ->
        (getitem (PyInt i) blk').2 = (getitem (PyInt i) blk).2)) /\
  write_multi (2 ^ 31 - 1) (PyInt 1) (PyLong 0x1234) 2 blk = (blk, Raise TypeError).
Proof.
  intros blk. split.
  - destruct (write_multi_frame (2 ^ 31 - 1) blk 1 2 (PyInt 0x1234))
      as (blk' & Hw & _ & _ & _ & Hf); [reflexivity | simpl; lia | simpl; lia | lia | simpl; lia |].
    exists blk'. split; [exact Hw | exact Hf].
  - destruct (write_multi_frame (2 ^ 31 - 1) blk 1 2 (PyLong 0x1234))
      as (blk' & Hw & Hl & _); [reflexivity | simpl; lia | simpl; lia | lia | simpl; lia |].
    rewrite (Hl eq_refl) in Hw. exact Hw.
Defined.

(** ** ByteBlock: construction and equality *)

(** X10. [from_list] followed by [to_list] returns the list, with [size]
    its length, when every element is an unsigned byte; otherwise
    [from_list] raises [OverflowError] and leaves an empty array with
    [size] already set to the length of the list. *)
Theorem from_list_to_list (data_list : list Z) (blk0 : Block) :
  (Forall is_byte data_list ->
   exists blk, from_list data_list blk0 = (blk, Ok tt) /\
               to_list blk = data_list /\ size blk = len data_list /\ block_wf blk) /\
  (~ Forall is_byte data_list ->
   from_list data_list blk0 = (mkBlock [] (len data_list), Raise OverflowError)).
Proof.
  unfold from_list. split.
  - intros Hb. destruct (array_of_list_ok data_list Hb) as (a & Ha & Hm). rewrite Ha.
    eexists. split; [reflexivity|]. split; [exact Hm|]. split; [reflexivity|].
    unfold block_wf, len. simpl. rewrite (array_of_list_length _ _ Ha). reflexivity.
  - intros Hn. destruct (array_of_list data_list) as [a|e] eqn:Ha.
    + apply array_of_list_bytes in Ha as [_ Hb]. contradiction.
    + apply array_of_list_error in Ha. subst e. reflexivity.
Qed.

Lemma from_list_to_list_witness :
  (exists blk, from_list [7; 9; 255] reset = (blk, Ok tt) /\
               to_list blk = [7; 9; 255] /\ size blk = len [7; 9; 255] /\ block_wf blk) /\
  from_list [7; 256] reset = (mkBlock [] (len [7; 256]), Raise OverflowError).
Proof.
  split.
  - apply (proj1 (from_list_to_list [7; 9; 255] reset)).
    repeat constructor; unfold is_byte; lia.
  - apply (proj2 (from_list_to_list [7; 256] reset)).
    intros H. inversion H as [|? ? _ H']. inversion H' as [|? ? Hb _].
    unfold is_byte in Hb. lia.
Defined.

Lemma array_eqb_eq a : forall b, array_eqb a b = true <-> a = b.
Proof.
  induction a as [|x a IH]; intros [|y b]; simpl; try (split; [discriminate|discriminate]).
  - split; reflexivity.
  - rewrite andb_true_iff, IH. split.
    + intros [Hxy ->]. apply Byte.byte_dec_bl in Hxy. subst. reflexivity.
    + intros [= -> ->]. split; [apply Byte.byte_dec_lb|]; reflexivity.
Qed.

(** X11. [==] compares the arrays only, so on blocks whose size is their
    length it holds exactly for blocks with the same length and bytes:
    the two blocks are then the same record; [!=] is its negation, and the
    copy that slicing the whole block returns is [==] to the block. *)
Theorem block_eq_spec (b1 b2 : Block) :
  block_wf b1 -> block_wf b2 ->
  (block_eq b1 b2 = true <-> b1 = b2) /\
  (block_ne b1 b2 = true <-> b1 <> b2) /\
  (exists copy, getitem_slice 0 (block_len b1) b1 = (b1, Ok copy) /\
                block_eq copy b1 = true).
Proof.
  intros Hwf1 Hwf2.
  assert (Heq : block_eq b1 b2 = true <-> b1 = b2).
  { unfold block_eq. rewrite array_eqb_eq. split; [|intros ->; reflexivity].
    intros Hd. destruct b1 as [d1 s1], b2 as [d2 s2]. unfold block_wf in *. simpl in *.
    subst d2. congruence. }
  split; [exact Heq|]. split.
  - unfold block_ne. rewrite negb_true_iff, <- Heq. destruct (block_eq b1 b2); split; congruence.
  - unfold block_len, getitem_slice.
    assert (0 <= size b1) by (unfold block_wf, len in Hwf1; lia).
    destruct (Z.gtb_spec 0 (size b1)); [lia|].
    destruct (Z.geb_spec (size b1 - 1) (size b1)); [lia|]. simpl.
    eexists. split; [reflexivity|].
    unfold block_eq, from_array, array_slice. simpl. apply array_eqb_eq.
    rewrite drop_0. apply take_ge. unfold block_wf, len in Hwf1. lia.
Qed.

Lemma block_eq_spec_witness :
  let b1 := mkBlock [x07; x09]%byte 2 in
  let b2 := mkBlock [x07; x0a]%byte 2 in
  (block_eq b1 b2 = true <-> b1 = b2) /\
  (block_ne b1 b2 = true <-> b1 <> b2) /\
  (exists copy, getitem_slice 0 (block_len b1) b1 = (b1, Ok copy) /\
                block_eq copy b1 = true).
Proof.
  intros b1 b2. apply (block_eq_spec b1 b2); reflexivity.
Defined.

(** ** RangeAllocator: validation, release and queries *)

(** X12. Every operation that takes a range validates it first: a range
    with [end < begin] raises [InvalidArgumentError], and otherwise a range
    with [begin < 0] or [end >= size] raises [OutOfBoundsError], in
    [mark_allocated], [is_unallocated], [is_allocated] and [deallocate]
    alike, with the allocator unchanged. *)
Theorem range_operations_validate_first (self : AllocatableBlock) (r : range) :
  let e := if r.2 <? r.1 then InvalidArgumentError else OutOfBoundsError in
  r.2 < r.1 \/ r.1 < 0 \/ size (block self) <= r.2 ->
  mark_allocated r self = Some (self, Raise e) /\
  is_unallocated r self = (self, Raise e) /\
  is_allocated r self = (self, Raise e) /\
  deallocate r self = (self, Raise e).
Proof.
  intros e Hbad.
  assert (Hc : check_range_validity r (size (block self)) = Raise e).
  { unfold e, check_range_validity. destruct r as [b e']. simpl in *.
    destruct (Z.ltb_spec e' b); [reflexivity|].
    destruct (Z.ltb_spec b 0); [reflexivity|].
    destruct (Z.geb_spec e' (size (block self))); [reflexivity|]. lia. }
  unfold mark_allocated, mark_allocated_depth, is_allocated, bind, is_unallocated, deallocate.
  cbn [mark_allocated_fuel]. rewrite Hc. auto.
Qed.

Lemma range_operations_validate_first_witness :
  let self := mkAllocatableBlock (mkBlock (replicate 8 x00%byte) 8) [(0, 7)] in
  mark_allocated (5, 8) self = Some (self, Raise OutOfBoundsError) /\
  is_unallocated (5, 8) self = (self, Raise OutOfBoundsError) /\
  is_allocated (5, 8) self = (self, Raise OutOfBoundsError) /\
  deallocate (5, 8) self = (self, Raise OutOfBoundsError).
Proof.
  intros self. apply (range_operations_validate_first self (5, 8)). simpl. lia.
Defined.

Lemma tuple_le_total a b : tuple_le a b = false -> tuple_le b a = true.
Proof.
  unfold tuple_le.
  destruct (Z.ltb_spec a.1 b.1), (Z.eqb_spec a.1 b.1), (Z.leb_spec a.2 b.2),
           (Z.ltb_spec b.1 a.1), (Z.eqb_spec b.1 a.1), (Z.leb_spec b.2 a.2);
    simpl; intros; try discriminate; try reflexivity; lia.
Qed.

Lemma tuple_le_trans a b c :
  tuple_le a b = true -> tuple_le b c = true -> tuple_le a c = true.
Proof.
  unfold tuple_le.
  destruct (Z.ltb_spec a.1 b.1), (Z.eqb_spec a.1 b.1), (Z.leb_spec a.2 b.2),
           (Z.ltb_spec b.1 c.1), (Z.eqb_spec b.1 c.1), (Z.leb_spec b.2 c.2),
           (Z.ltb_spec a.1 c.1), (Z.eqb_spec a.1 c.1), (Z.leb_spec a.2 c.2);
    simpl; intros; try discriminate; try reflexivity; lia.
Qed.

Lemma sort_insert_perm x l : Permutation (sort_insert x l) (x :: l).
Proof.
  induction l as [|y l IH]; simpl; [reflexivity|].
  destruct (tuple_le x y); [reflexivity|].
  rewrite IH. apply perm_swap.
Qed.

Lemma sort_perm l : Permutation (sort l) l.
Proof.
  induction l as [|x l IH]; simpl; [reflexivity|].
  rewrite sort_insert_perm. constructor. exact IH.
Qed.

Lemma sort_insert_sorted x l :
  StronglySorted tuple_le_prop l -> StronglySorted tuple_le_prop (sort_insert x l).
Proof.
  induction 1 as [|y l Hl IH Hy]; simpl.
  - repeat constructor.
  - destruct (tuple_le x y) eqn:Hxy.
    + constructor; [constructor; assumption|].
      constructor; [exact Hxy|].
      eapply Forall_impl; [exact Hy|]. intros z Hz. eapply tuple_le_trans; eauto.
    + constructor; [exact IH|].
      rewrite sort_insert_perm. constructor; [|exact Hy].
      apply tuple_le_total. exact Hxy.
Qed.

Lemma sort_sorted l : StronglySorted tuple_le_prop (sort l).
Proof.
  induction l as [|x l IH]; simpl; [constructor|]. apply sort_insert_sorted, IH.
Qed.

Lemma tuple_le_begin a b : tuple_le a b = true -> a.1 <= b.1.
Proof.
  unfold tuple_le.
  destruct (Z.ltb_spec a.1 b.1), (Z.eqb_spec a.1 b.1); simpl; intros; try discriminate; lia.
Qed.

Lemma sorted_lex_sorted_by_begin l :
  StronglySorted tuple_le_prop l -> sorted_by_begin l.
Proof.
  unfold sorted_by_begin. induction 1 as [|x l Hl IH Hx]; constructor; auto.
  eapply Forall_impl; [exact Hx|]. intros y. apply tuple_le_begin.
Qed.

(** X13. [deallocate] of a valid range leaves the buffer alone and turns
    the free list into the sorted rearrangement of the old list with the
    range added: sorted in tuple order, hence ascending by begin, whatever
    the order of the list before; nothing is merged or dropped. *)
Theorem deallocate_sorted_permutation (self : AllocatableBlock) (r : range) :
  check_range_validity r (size (block self)) = Ok tt ->
  exists s',
    deallocate r self = (s', Ok tt) /\
    block s' = block self /\
    Permutation (unallocated_ranges s') (r :: unallocated_ranges self) /\
    StronglySorted tuple_le_prop (unallocated_ranges s') /\
    sorted_by_begin (unallocated_ranges s').
Proof.
  intros Hc. unfold deallocate. rewrite Hc.
  eexists. split; [reflexivity|]. split; [reflexivity|]. simpl. split; [|split].
  - rewrite sort_perm. rewrite Permutation_app_comm. reflexivity.
  - apply sort_sorted.
  - apply sorted_lex_sorted_by_begin, sort_sorted.
Qed.

Lemma deallocate_sorted_permutation_witness :
  let self := mkAllocatableBlock (mkBlock (replicate 16 x00%byte) 16)
                                 [(9, 12); (0, 2)] in
  exists s',
    deallocate (4, 6) self = (s', Ok tt) /\
    block s' = block self /\
    Permutation (unallocated_ranges s') ((4, 6) :: unallocated_ranges self) /\
    StronglySorted tuple_le_prop (unallocated_ranges s') /\
    sorted_by_begin (unallocated_ranges s').
Proof.
  intros self. apply (deallocate_sorted_permutation self (4, 6)). reflexivity.
Defined.

Lemma is_unallocated_true (q : range) self :
  check_range_validity q (size (block self)) = Ok tt ->
  (is_unallocated q self = (self, Ok true)
   <-> exists f, f ∈ unallocated_ranges self /\ inside q f).
Proof.
  intros Hc. unfold is_unallocated. rewrite Hc. destruct q as [qb qe].
  assert (Hex : existsb (fun '(begin, end_) => (qb >=? begin) && (qe <=? end_))
                        (unallocated_ranges self) = true
                <-> exists f, f ∈ unallocated_ranges self /\ inside (qb, qe) f).
  { rewrite existsb_exists. split.
    - intros ([b e] & Hin & Hf). exists (b, e). split; [apply list_elem_of_In; exact Hin|].
      unfold inside. simpl. apply andb_true_iff in Hf as [H1 H2].
      apply Z.geb_le in H1. apply Z.leb_le in H2. lia.
    - intros ([b e] & Hin & Hf). exists (b, e). split; [apply list_elem_of_In; exact Hin|].
      unfold inside in Hf. simpl in Hf.
      destruct (Z.geb_spec qb b), (Z.leb_spec qe e); simpl; try reflexivity; lia. }
  rewrite <- Hex.
  destruct (existsb _ (unallocated_ranges self)); split; congruence.
Qed.

(** X14. After [deallocate] of a valid range, [is_unallocated] of that
    range is true, and every range that was unallocated before still is. *)
Theorem deallocate_then_is_unallocated (self : AllocatableBlock) (r : range) :
  check_range_validity r (size (block self)) = Ok tt ->
  exists s',
    deallocate r self = (s', Ok tt) /\
    is_unallocated r s' = (s', Ok true) /\
    (forall q, is_unallocated q self = (self, Ok true) ->
               is_unallocated q s' = (s', Ok true)).
Proof.
  intros Hc. unfold deallocate. rewrite Hc.
  set (s' := set_ranges self (sort (unallocated_ranges self ++ [r]))).
  exists s'. split; [reflexivity|]. split.
  - apply is_unallocated_true; [exact Hc|]. exists r. split.
    + unfold s'. simpl. apply elem_of_sort, elem_of_app. right.
      apply list_elem_of_singleton. reflexivity.
    + unfold inside. lia.
  - intros q Hq.
    assert (Hcq : check_range_validity q (size (block self)) = Ok tt).
    { unfold is_unallocated in Hq.
      destruct (check_range_validity q (size (block self))) as [[]|]; [reflexivity|].
      discriminate. }
    apply is_unallocated_true; [exact Hcq|].
    apply is_unallocated_true in Hq as (f & Hf & Hin); [|exact Hcq].
    exists f. split; [|exact Hin].
    unfold s'. simpl. apply elem_of_sort, elem_of_app. left. exact Hf.
Qed.

Lemma deallocate_then_is_unallocated_witness :
  let self := mkAllocatableBlock (mkBlock (replicate 16 x00%byte) 16) [(9, 12)] in
  exists s',
    deallocate (4, 6) self = (s', Ok tt) /\
    is_unallocated (4, 6) s' = (s', Ok true) /\
    (forall q, is_unallocated q self = (self, Ok true) ->
               is_unallocated q s' = (s', Ok true)).
Proof.
  intros self. apply (deallocate_then_is_unallocated self (4, 6)). reflexivity.
Defined.

(** X15. After [deallocate] of a valid range, an [allocate] asking for
    exactly the size of that range, without data or predicate, succeeds:
    it returns the begin of a free entry at least that long. *)
Theorem deallocate_then_allocate (self : AllocatableBlock) (r : range) :
  check_range_validity r (size (block self)) = Ok tt ->
  exists s' s'' offset e,
    deallocate r self = (s', Ok tt) /\
    allocate None (Some (r.2 - r.1 + 1)) None s' = (s'', Ok offset) /\
    (offset, e) ∈ unallocated_ranges s' /\
    r.2 - r.1 <= e - offset.
Proof.
  intros Hc. unfold deallocate. rewrite Hc.
  set (s' := set_ranges self (sort (unallocated_ranges self ++ [r]))).
  set (n := r.2 - r.1 + 1).
  assert (Hn : 0 < n).
  { destruct r. apply check_range_validity_ok in Hc. unfold n. simpl. lia. }
  assert (Hr : r ∈ unallocated_ranges s').
  { unfold s'. simpl. apply elem_of_sort, elem_of_app. right.
    apply list_elem_of_singleton. reflexivity. }
  assert (Hqr : qualifies n None r = true).
  { unfold qualifies, n. rewrite andb_true_r. apply Z.leb_le. lia. }
  destruct (first_qualifying (qualifies n None) (unallocated_ranges s'))
    as [Hnone | (mid & [b e] & post & Hl & Hmid & Hq)].
  { rewrite Forall_forall in Hnone. rewrite (Hnone r Hr) in Hqr. discriminate. }
  destruct (allocate_sized_found_cases None n None s' mid b e post Hn I Hl Hmid Hq)
    as (s'' & res & Heq & _ & _ & Hok).
  destruct (Hok eq_refl) as [-> ->].
  eexists s', _, b, e. split; [reflexivity|]. split; [exact Heq|]. split.
  - rewrite Hl. apply elem_of_app. right. apply elem_of_cons. left. reflexivity.
  - unfold qualifies in Hq. simpl in Hq. rewrite andb_true_r in Hq.
    apply Z.leb_le in Hq. unfold n in Hq. lia.
Qed.

Lemma deallocate_then_allocate_witness :
  let self := mkAllocatableBlock (mkBlock (replicate 16 x00%byte) 16) [(9, 10)] in
  exists s' s'' offset e,
    deallocate (4, 6) self = (s', Ok tt) /\
    allocate None (Some ((4, 6).2 - (4, 6).1 + 1)) None s' = (s'', Ok offset) /\
    (offset, e) ∈ unallocated_ranges s' /\
    (4, 6).2 - (4, 6).1 <= e - offset.
Proof.
  intros self. apply (deallocate_then_allocate self (4, 6)). reflexivity.
Defined.

(** ** RangeAllocator: what a successful [allocate] has done *)

Lemma setitem_slice_ok_inv start stop item blk blk' :
  setitem_slice start stop item blk = (blk', Ok tt) ->
  0 <= start /\ start < stop /\ stop <= size blk /\ len item = stop - start /\
  exists a, array_of_list item = Ok a /\
            blk' = mkBlock (array_set_slice (data blk) start stop a) (size blk).
Proof.
  unfold setitem_slice.
  destruct (Z.gtb_spec start stop); [discriminate|].
  destruct (Z.ltb_spec start 0); [discriminate|].
  destruct (Z.geb_spec (stop - 1) (size blk)); [discriminate|]. simpl.
  destruct (Z.eqb_spec (len item) (stop - start)); [|discriminate]. simpl.
  destruct (Z.eqb_spec (stop - start) 0); [discriminate|].
  destruct (array_of_list item) as [a|]; [|discriminate].
  intros [= <-]. repeat split; try lia. eauto.
Qed.

(** A successful [allocate], taken apart. *)
Lemma allocate_ok_inv data_ size_ p self s' o :
  allocate data_ size_ p self = (s', Ok o) ->
  exists n mid e post,
    effective_size data_ size_ = Some n /\ 0 < n /\
    unallocated_ranges self = mid ++ (o, e) :: post /\
    Forall (fun r => qualifies n p r = false) mid /\
    qualifies n p (o, e) = true /\
    unallocated_ranges s' = shrink_front n mid o e post /\
    match data_ with
    | None => block s' = block self
    | Some d => len d = n /\
                setitem_slice o (o + n) d (block self) = (block s', Ok tt)
    end.
Proof.
  intros Heq.
  destruct (invalid_request_dec data_ size_) as [Hi | (n & Heff & Hv)].
  { rewrite allocate_invalid_request in Heq by assumption. discriminate. }
  destruct (allocate_valid_request data_ size_ p n Heff Hv) as (Hn & Hd & Hal).
  rewrite Hal in Heq.
  destruct (first_qualifying (qualifies n p) (unallocated_ranges self))
    as [Hnone | (mid & [b e] & post & Hl & Hmid & Hq)].
  { rewrite allocate_sized_none in Heq by assumption. discriminate. }
  rewrite (allocate_sized_found data_ n p self mid b e post Hn Hl Hmid Hq) in Heq.
  replace (b + n - 1 + 1) with (b + n) in Heq by lia.
  destruct data_ as [d|].
  - unfold bind, on_block, ret in Heq. simpl in Heq.
    destruct (setitem_slice b (b + n) d (block self)) as [blk' [[]|err]] eqn:Hw;
      [|discriminate].
    injection Heq as <- <-. exists n, mid, e, post. simpl. repeat split; auto.
  - unfold bind, ret in Heq. simpl in Heq. injection Heq as <- <-.
    exists n, mid, e, post. simpl. repeat split; auto.
Qed.

(** X16. The offset a successful [allocate] returns is the begin of a
    free entry that is at least as long as the request and passes the
    placement predicate; the buffer keeps its size and the free list does
    not grow. *)
Theorem allocate_returns_free_range (data_ : option (list Z)) (size_ : option Z)
    (p : option (Z -> bool)) (self s' : AllocatableBlock) (offset : Z) :
  allocate data_ size_ p self = (s', Ok offset) ->
  exists n e,
    effective_size data_ size_ = Some n /\ 0 < n /\
    (offset, e) ∈ unallocated_ranges self /\
    offset + n - 1 <= e /\
    match p with Some f => f offset = true | None => True end /\
    size (block s') = size (block self) /\
    (length (unallocated_ranges s') <= length (unallocated_ranges self))%nat.
Proof.
  intros Heq.
  apply allocate_ok_inv in Heq as (n & mid & e & post & Heff & Hn & Hl & _ & Hq & Hl' & Hblk).
  exists n, e. unfold qualifies in Hq. simpl in Hq.
  apply andb_true_iff in Hq as [Hq1 Hq2]. apply Z.leb_le in Hq1.
  repeat split; auto.
  - rewrite Hl. apply elem_of_app. right. apply elem_of_cons. left. reflexivity.
  - lia.
  - destruct p; auto.
  - destruct data_ as [d|]; [|rewrite Hblk; reflexivity].
    destruct Hblk as [_ Hw]. apply setitem_slice_ok_inv in Hw as (_ & _ & _ & _ & a & _ & ->).
    reflexivity.
  - rewrite Hl', Hl. unfold shrink_front. rewrite !length_app.
    destruct (offset + n - 1 =? e); simpl; lia.
Qed.

Lemma allocate_returns_free_range_witness :
  let self := mkAllocatableBlock (mkBlock (replicate 16 x00%byte) 16)
                                 [(0, 1); (3, 9); (11, 13)] in
  exists n e,
    effective_size (Some [1; 2; 3]) None = Some n /\ 0 < n /\
    (3, e) ∈ unallocated_ranges self /\
    3 + n - 1 <= e /\
    True /\
    size (block (allocate (Some [1; 2; 3]) None None self).1) = size (block self) /\
    (length (unallocated_ranges (allocate (Some [1; 2; 3]%Z) None None self).1)
     <= length (unallocated_ranges self))%nat.
Proof.
  intros self.
  exact (allocate_returns_free_range (Some [1; 2; 3]) None None self _ 3 eq_refl).
Defined.

Lemma ForallOrdPairs_middle (R : range -> range -> Prop) pre x post :
  (forall a b, R a b -> R b a) ->
  ForallOrdPairs R (pre ++ x :: post) -> Forall (R x) (pre ++ post).
Proof.
  intros Hsym. induction pre as [|y pre IH]; simpl; intros H; inversion H; subst.
  - assumption.
  - constructor; [|apply IH; assumption].
    apply Hsym. rewrite Forall_forall in *. apply H2.
    apply elem_of_app. right. apply elem_of_cons. left. reflexivity.
Qed.

Lemma no_overlap_sym a b : no_overlap a b -> no_overlap b a.
Proof. unfold no_overlap. tauto. Qed.

(** Every entry left after an allocation lies wholly before or wholly after
    the allocated range, when the entries did not overlap. *)
Lemma shrink_front_clear n mid o e post :
  ForallOrdPairs no_overlap (mid ++ (o, e) :: post) -> 0 < n -> o + n - 1 <= e ->
  Forall (fun f : range => f.2 < o \/ o + n - 1 < f.1) (shrink_front n mid o e post).
Proof.
  intros Hd Hn He.
  apply (ForallOrdPairs_middle _ _ _ _ no_overlap_sym) in Hd.
  apply Forall_app in Hd as [Hmid Hpost].
  assert (Hclear : forall l, Forall (no_overlap (o, e)) l ->
                             Forall (fun f : range => f.2 < o \/ o + n - 1 < f.1) l).
  { intros l Hl. eapply Forall_impl; [exact Hl|]. unfold no_overlap. simpl. intros; lia. }
  unfold shrink_front. apply Forall_app. split; [auto|].
  destruct (o + n - 1 =? e); [auto|]. constructor; [simpl; lia | auto].
Qed.

(** X17. On a free list whose entries do not overlap one another, the
    ranges handed out by two successive successful allocations are
    disjoint. *)
Theorem successive_allocations_disjoint
    (d1 d2 : option (list Z)) (z1 z2 : option Z) (p1 p2 : option (Z -> bool))
    (self s1 s2 : AllocatableBlock) (o1 o2 n1 n2 : Z) :
  ForallOrdPairs no_overlap (unallocated_ranges self) ->
  allocate d1 z1 p1 self = (s1, Ok o1) -> effective_size d1 z1 = Some n1 ->
  allocate d2 z2 p2 s1 = (s2, Ok o2) -> effective_size d2 z2 = Some n2 ->
  o1 + n1 <= o2 \/ o2 + n2 <= o1.
Proof.
  intros Hd H1 E1 H2 E2.
  apply allocate_ok_inv in H1 as (n & mid & e & post & Heff & Hn & Hl & _ & Hq & Hl' & _).
  rewrite E1 in Heff. injection Heff as <-.
  apply allocate_ok_inv in H2 as (n & mid2 & e2 & post2 & Heff & Hn2 & Hl2 & _ & Hq2 & _ & _).
  rewrite E2 in Heff. injection Heff as <-.
  unfold qualifies in Hq, Hq2. simpl in Hq, Hq2.
  apply andb_true_iff in Hq as [Hq _]. apply Z.leb_le in Hq.
  apply andb_true_iff in Hq2 as [Hq2 _]. apply Z.leb_le in Hq2.
  rewrite Hl in Hd.
  pose proof (shrink_front_clear n1 mid o1 e post Hd Hn ltac:(lia)) as Hclear.
  rewrite <- Hl', Hl2 in Hclear.
  apply Forall_app in Hclear as [_ Hclear]. inversion Hclear as [|? ? Hx _]; subst.
  simpl in Hx. lia.
Qed.

Lemma successive_allocations_disjoint_witness :
  let self := mkAllocatableBlock (mkBlock (replicate 16 x00%byte) 16)
                                 [(0, 1); (3, 9); (11, 13)] in
  3 + 3 <= 6 \/ 6 + 4 <= 3.
Proof.
  intros self.
  refine (successive_allocations_disjoint None None (Some 3) (Some 4) None None
            self _ _ 3 6 3 4 _ eq_refl eq_refl eq_refl eq_refl).
  repeat constructor; unfold no_overlap; simpl; lia.
Defined.

(** X18. When a successful [allocate] was given data, the block keeps
    its size and length, the data reads back from the returned offset, and
    every byte outside the allocated range is as before. *)
Theorem allocate_writes_data (d : list Z) (size_ : option Z) (p : option (Z -> bool))
    (self s' : AllocatableBlock) (offset : Z) :
  block_wf (block self) ->
  allocate (Some d) size_ p self = (s', Ok offset) ->
  block_wf (block s') /\
  size (block s') = size (block self) /\
  (exists sub, getitem_slice offset (offset + len d) (block s') = (block s', Ok sub) /\
               to_list sub = d) /\
  (forall i, 0 <= i < offset \/ offset + len d <= i < size (block self) ->
     (getitem (PyInt i) (block s')).2 = (getitem (PyInt i) (block self)).2).
Proof.
  intros Hwf Heq.
  apply allocate_ok_inv in Heq as (n & mid & e & post & _ & Hn & _ & _ & _ & _ & Hd & Hw).
  subst n. pose proof Hw as Hinv.
  apply setitem_slice_ok_inv in Hinv as (H0 & H1 & H2 & _ & a & Ha & Hblk).
  assert (Hm : map byte_to_Z a = d) by (apply array_of_list_bytes in Ha; tauto).
  assert (Hla : length a = Z.to_nat (len d)).
  { rewrite (array_of_list_length d a Ha). unfold len. lia. }
  assert (Hld : length (data (block self)) = Z.to_nat (size (block self))).
  { unfold block_wf, len in Hwf. lia. }
  set (d' := array_set_slice (data (block self)) offset (offset + len d) a) in *.
  assert (Hd' : length d' = length (data (block self))).
  { unfold d', array_set_slice. rewrite !length_app, length_take, length_drop. lia. }
  rewrite Hblk.
  assert (Hwf' : block_wf (mkBlock d' (size (block self)))).
  { unfold block_wf, len in *. simpl. lia. }
  split; [exact Hwf'|]. split; [reflexivity|]. split.
  - unfold getitem_slice. simpl.
    destruct (Z.gtb_spec offset (offset + len d)); [lia|].
    destruct (Z.ltb_spec offset 0); [lia|].
    destruct (Z.geb_spec (offset + len d - 1) (size (block self))); [lia|]. simpl.
    eexists. split; [reflexivity|].
    unfold to_list, from_array, array_slice. simpl.
    unfold d', array_set_slice.
    rewrite drop_app_length' by (rewrite length_take; lia).
    rewrite take_app_length' by lia. exact Hm.
  - intros i Hi. apply getitem_lookup; auto; simpl; try lia.
    unfold d', array_set_slice. destruct Hi as [Hi | Hi].
    + rewrite lookup_app_l by (rewrite length_take; lia).
      apply lookup_take_lt. lia.
    + rewrite lookup_app_r by (rewrite length_take; lia).
      rewrite lookup_app_r by (rewrite length_take; lia).
      rewrite lookup_drop, length_take. f_equal. lia.
Qed.

Lemma allocate_writes_data_witness :
  let self := mkAllocatableBlock (mkBlock (replicate 16 x00%byte) 16)
                                 [(0, 1); (3, 9); (11, 13)] in
  let s' := (allocate (Some [1; 2; 3]) None None self).1 in
  block_wf (block s') /\
  size (block s') = size (block self) /\
  (exists sub, getitem_slice 3 (3 + len [1; 2; 3]) (block s') = (block s', Ok sub) /\
               to_list sub = [1; 2; 3]) /\
  (forall i, 0 <= i < 3 \/ 3 + len [1; 2; 3] <= i < size (block self) ->
     (getitem (PyInt i) (block s')).2 = (getitem (PyInt i) (block self)).2).
Proof.
  intros self s'.
  exact (allocate_writes_data [1; 2; 3] None None self s' 3 eq_refl eq_refl).
Defined.

(** X19. On a free list whose entries do not overlap one another, a
    successful [allocate] removes exactly the allocated bytes from the free
    space: a byte is free afterwards if and only if it was free before and
    lies outside the allocated range. *)
Theorem allocate_free_bytes (data_ : option (list Z)) (size_ : option Z)
    (p : option (Z -> bool)) (self s' : AllocatableBlock) (offset n : Z) :
  ForallOrdPairs no_overlap (unallocated_ranges self) ->
  allocate data_ size_ p self = (s', Ok offset) ->
  effective_size data_ size_ = Some n ->
  forall x, free_byte (unallocated_ranges s') x
            <-> free_byte (unallocated_ranges self) x /\ ~ (offset <= x < offset + n).
Proof.
  intros Hd Heq Heff x.
  apply allocate_ok_inv in Heq as (n' & mid & e & post & Heff' & Hn & Hl & _ & Hq & Hl' & _).
  rewrite Heff in Heff'. injection Heff' as <-.
  unfold qualifies in Hq. simpl in Hq.
  apply andb_true_iff in Hq as [Hq _]. apply Z.leb_le in Hq.
  rewrite Hl in Hd.
  pose proof (shrink_front_clear n mid offset e post Hd Hn ltac:(lia)) as Hclear.
  rewrite Hl', Hl. unfold free_byte, shrink_front in *. split.
  - intros (f & Hf & Hx). split.
    + apply elem_of_app in Hf as [Hf | Hf].
      * exists f. split; [apply elem_of_app; auto | exact Hx].
      * destruct (offset + n - 1 =? e).
        -- exists f. split; [|exact Hx]. apply elem_of_app. right.
           apply elem_of_cons. auto.
        -- apply elem_of_cons in Hf as [-> | Hf].
           ++ exists (offset, e). split; [|simpl in *; lia].
              apply elem_of_app. right. apply elem_of_cons. auto.
           ++ exists f. split; [|exact Hx]. apply elem_of_app. right.
              apply elem_of_cons. auto.
    + rewrite Forall_forall in Hclear. specialize (Hclear f Hf). lia.
  - intros [(f & Hf & Hx) Hout].
    apply elem_of_app in Hf as [Hf | Hf]; [exists f; split; [apply elem_of_app; auto | exact Hx]|].
    apply elem_of_cons in Hf as [-> | Hf].
    + simpl in Hx. destruct (Z.eqb_spec (offset + n - 1) e); [lia|].
      exists (offset + n, e). split; [|simpl; lia].
      apply elem_of_app. right. apply elem_of_cons. auto.
    + exists f. split; [|exact Hx]. apply elem_of_app. right.
      destruct (offset + n - 1 =? e); [exact Hf | apply elem_of_cons; auto].
Qed.

Lemma allocate_free_bytes_witness :
  let self := mkAllocatableBlock (mkBlock (replicate 16 x00%byte) 16)
                                 [(0, 1); (3, 9); (11, 13)] in
  let s' := (allocate None (Some 3) None self).1 in
  (free_byte (unallocated_ranges s') 4
   <-> free_byte (unallocated_ranges self) 4 /\ ~ (3 <= 4 < 3 + 3)) /\
  (free_byte (unallocated_ranges s') 7
   <-> free_byte (unallocated_ranges self) 7 /\ ~ (3 <= 7 < 3 + 3)).
Proof.
  intros self s'.
  assert (Hd : ForallOrdPairs no_overlap (unallocated_ranges self))
    by (repeat constructor; unfold no_overlap; simpl; lia).
  split.
  - exact (allocate_free_bytes None (Some 3) None self s' 3 3 Hd eq_refl eq_refl 4).
  - exact (allocate_free_bytes None (Some 3) None self s' 3 3 Hd eq_refl eq_refl 7).
Defined.

(** ** RangeAllocator: what a successful [mark_allocated] has done *)

Lemma mark_scan_gapped_ok rec ab ae self :
  0 <= ab -> ab <= ae ->
  (forall e l out,
     ab <= e -> e < ae -> gapped l -> misses (e + 1, ae) l ->
     rec (e + 1, ae) (set_ranges self l) = Some out ->
     out.2 = Raise CouldNotAllocateError) ->
  forall rest pre s',
    gapped (pre ++ rest) ->
    mark_scan rec ab ae pre rest self = Some (s', Ok tt) ->
    exists mid b e post,
      rest = mid ++ (b, e) :: post /\ b <= ab /\ ae <= e /\
      s' = set_ranges self (pre ++ mid ++ remnants b e ab ae ++ post).
Proof.
  intros H0 Hr Hrec. induction rest as [|[b e] post IH]; intros pre s' Hg; simpl.
  - discriminate.
  - pose proof Hg as Hg'. apply gapped_app in Hg' as (_ & (Hv & Hpost & _) & Hcross).
    unfold valid_range in Hv. simpl in Hv, Hpost.
    assert (Hpre_end : Forall (fun f : range => f.2 + 1 < b) pre).
    { eapply Forall_impl; [exact Hcross|]. simpl. intros f Hf. inversion Hf; auto. }
    assert (Hrest : forall l1,
              ab <= e -> e < ae -> gapped l1 ->
              (forall f, f ∈ l1 -> f ∈ pre \/ f.2 < ab \/ f ∈ post) ->
              rec (e + 1, ae) (set_ranges self l1) = Some (s', Ok tt) -> False).
    { intros l1 He1 He2 Hg1 Hl1 Heq.
      assert (Hm : misses (e + 1, ae) l1).
      { unfold misses. rewrite Forall_forall. intros f Hf. unfold inside. simpl.
        destruct (Hl1 f Hf) as [Hin | [Hlt | Hin]].
        - rewrite Forall_forall in Hpre_end. specialize (Hpre_end f Hin). lia.
        - lia.
        - rewrite Forall_forall in Hpost. specialize (Hpost f Hin). lia. }
      pose proof (Hrec e l1 _ He1 He2 Hg1 Hm Heq) as Hres. discriminate. }
    assert (Hhere : forall l',
              b <= ab -> ae <= e -> l' = pre ++ remnants b e ab ae ++ post ->
              exists mid b0 e0 post0,
                (b, e) :: post = mid ++ (b0, e0) :: post0 /\ b0 <= ab /\ ae <= e0 /\
                set_ranges self l'
                = set_ranges self (pre ++ mid ++ remnants b0 e0 ab ae ++ post0)).
    { intros l' Hb He ->. exists [], b, e, post. repeat split; auto. }
    destruct (Z.eqb_spec ab b) as [Heq | Hne].
    + destruct (Z.ltb_spec ae e).
      * intros [= <-]. apply Hhere; try lia. unfold remnants.
        destruct (Z.ltb_spec b ab); [lia|]. destruct (Z.ltb_spec ae e); [|lia]. reflexivity.
      * destruct (Z.eqb_spec ae e).
        -- intros [= <-]. apply Hhere; try lia. unfold remnants.
           destruct (Z.ltb_spec b ab); [lia|]. destruct (Z.ltb_spec ae e); [lia|]. reflexivity.
        -- intros Hout. exfalso. apply (Hrest (pre ++ post)); auto; try lia.
           ++ eapply gapped_delete; eauto.
           ++ intros f Hf. apply elem_of_app in Hf. tauto.
    + destruct (Z.gtb_spec ab b); simpl.
      * destruct (Z.leb_spec ae e); simpl.
        -- destruct (Z.eqb_spec ae e); simpl; intros [= <-]; apply Hhere; try lia;
             unfold remnants; destruct (Z.ltb_spec b ab); try lia;
             destruct (Z.ltb_spec ae e); try lia; try reflexivity.
           apply sort_swap_gapped. apply gapped_split; auto; lia.
        -- destruct (Z.ltb_spec ab e); simpl.
           ++ destruct (Z.gtb_spec ae e); [|lia].
              intros Hout. exfalso.
              apply (Hrest (pre ++ (b, ab - 1) :: post)); auto; try lia.
              ** apply gapped_replace with b e; auto; lia.
              ** intros f Hf. apply elem_of_app in Hf as [Hf | Hf]; [auto|].
                 apply elem_of_cons in Hf as [-> | Hf]; [right; left; simpl; lia | auto].
           ++ intros Hout.
              destruct (IH (pre ++ [(b, e)]) s') as (mid & b0 & e0 & post0 & -> & Hb & He & ->);
                [rewrite <- app_assoc; exact Hg | exact Hout |].
              exists ((b, e) :: mid), b0, e0, post0. rewrite <- app_assoc. auto.
      * intros Hout.
        destruct (IH (pre ++ [(b, e)]) s') as (mid & b0 & e0 & post0 & -> & Hb & He & ->);
          [rewrite <- app_assoc; exact Hg | exact Hout |].
        exists ((b, e) :: mid), b0, e0, post0. rewrite <- app_assoc. auto.
Qed.

(** A successful [mark_allocated] on a free set that satisfies the
    invariant, taken apart. *)
Lemma mark_allocated_ok_inv self ab ae s' :
  free_set_wf (unallocated_ranges self) ->
  mark_allocated (ab, ae) self = Some (s', Ok tt) ->
  0 <= ab /\ ab <= ae /\ ae < size (block self) /\
  exists pre b e post,
    unallocated_ranges self = pre ++ (b, e) :: post /\ b <= ab /\ ae <= e /\
    s' = set_ranges self (pre ++ remnants b e ab ae ++ post).
Proof.
  intros Hwf Heq. apply free_set_wf_gapped in Hwf.
  unfold mark_allocated, mark_allocated_depth in Heq.
  rewrite mark_allocated_fuel_unfold in Heq.
  destruct (check_range_validity (ab, ae) (size (block self))) as [[]|] eqn:Hc;
    [|discriminate].
  apply check_range_validity_ok in Hc. split; [lia|]. split; [lia|]. split; [lia|].
  refine (mark_scan_gapped_ok _ ab ae self _ _ _ _ [] s' Hwf Heq); try lia.
  intros e l out He1 He2 Hg Hm Hout.
  assert (Hc1 : check_range_validity (e + 1, ae) (size (block (set_ranges self l))) = Ok tt)
    by (apply check_range_validity_ok; simpl; lia).
  destruct (mark_allocated_fuel_gapped _ (e + 1, ae) (set_ranges self l) out Hg Hc1 Hout)
    as [[_ (f & Hf & Hin)] | [Hres _]]; [|exact Hres].
  destruct (misses_not_inside _ _ _ Hm Hf Hin).
Qed.

(** X20. On a free set that satisfies the invariant, a successful
    [mark_allocated] replaces the one entry that holds the range by what is
    left of it before and after the range, in place; every other entry and
    the buffer are untouched. *)
Theorem mark_allocated_splits_entry (self s' : AllocatableBlock) (ab ae : Z) :
  free_set_wf (unallocated_ranges self) ->
  mark_allocated (ab, ae) self = Some (s', Ok tt) ->
  exists pre b e post,
    unallocated_ranges self = pre ++ (b, e) :: post /\ b <= ab /\ ae <= e /\
    unallocated_ranges s' = pre ++ remnants b e ab ae ++ post /\
    block s' = block self.
Proof.
  intros Hwf Heq.
  apply mark_allocated_ok_inv in Heq as (_ & _ & _ & pre & b & e & post & Hl & Hb & He & ->);
    [|exact Hwf].
  exists pre, b, e, post. auto.
Qed.

Lemma mark_allocated_splits_entry_witness :
  let self := mkAllocatableBlock (mkBlock (replicate 16 x00%byte) 16)
                                 [(0, 2); (5, 12)] in
  exists pre b e post,
    unallocated_ranges self = pre ++ (b, e) :: post /\ b <= 7 /\ 8 <= e /\
    unallocated_ranges (set_ranges self [(0, 2); (5, 6); (9, 12)])
      = pre ++ remnants b e 7 8 ++ post /\
    block (set_ranges self [(0, 2); (5, 6); (9, 12)]) = block self.
Proof.
  intros self.
  refine (mark_allocated_splits_entry self _ 7 8 _ eq_refl).
  apply free_set_wf_gapped. simpl. unfold valid_range. simpl.
  repeat split; repeat constructor; simpl; lia.
Defined.

(** X21. On a free set that satisfies the invariant, [mark_allocated] of
    a valid range returns exactly when [is_unallocated] reports the range
    free, and raises [CouldNotAllocateError] exactly when [is_allocated]
    reports it allocated; it raises nothing else. *)
Theorem mark_allocated_agrees_with_query (self : AllocatableBlock) (r : range) :
  free_set_wf (unallocated_ranges self) ->
  check_range_validity r (size (block self)) = Ok tt ->
  exists s' res,
    mark_allocated r self = Some (s', res) /\
    (res = Ok tt \/ res = Raise CouldNotAllocateError) /\
    (res = Ok tt <-> is_unallocated r self = (self, Ok true)) /\
    (res = Raise CouldNotAllocateError <-> is_allocated r self = (self, Ok true)).
Proof.
  intros Hwf Hc. apply free_set_wf_gapped in Hwf.
  destruct (mark_allocated_total r self) as [[s' res] Heq].
  exists s', res. split; [exact Heq|].
  pose proof (mark_allocated_fuel_gapped _ r self (s', res) Hwf Hc Heq) as Hres.
  simpl in Hres.
  assert (Hq : is_allocated r self = (self, Ok true) <-> misses r (unallocated_ranges self)).
  { split.
    - intros Ha. unfold misses. rewrite Forall_forall. intros f Hf Hin.
      assert (Hu : is_unallocated r self = (self, Ok true))
        by (apply is_unallocated_true; eauto).
      unfold is_allocated, bind in Ha. rewrite Hu in Ha. discriminate.
    - apply is_allocated_target. exact Hc. }
  rewrite Hq, (is_unallocated_true r self Hc).
  destruct Hres as [[-> Hin] | [-> Hm]].
  - split; [auto|]. split; [tauto|]. split; [discriminate|].
    intros Hm. destruct Hin as (f & Hf & Hin). destruct (misses_not_inside _ _ _ Hm Hf Hin).
  - split; [auto|]. split; [|tauto]. split; [discriminate|].
    intros (f & Hf & Hin). destruct (misses_not_inside _ _ _ Hm Hf Hin).
Qed.

Lemma mark_allocated_agrees_with_query_witness :
  let self := mkAllocatableBlock (mkBlock (replicate 16 x00%byte) 16)
                                 [(0, 2); (5, 12)] in
  exists s' res,
    mark_allocated (2, 5) self = Some (s', res) /\
    (res = Ok tt \/ res = Raise CouldNotAllocateError) /\
    (res = Ok tt <-> is_unallocated (2, 5) self = (self, Ok true)) /\
    (res = Raise CouldNotAllocateError <-> is_allocated (2, 5) self = (self, Ok true)).
Proof.
  intros self. apply (mark_allocated_agrees_with_query self (2, 5)); [|reflexivity].
  apply free_set_wf_gapped. simpl. unfold valid_range. simpl.
  repeat split; repeat constructor; simpl; lia.
Defined.

Lemma free_byte_app l1 l2 x : free_byte (l1 ++ l2) x <-> free_byte l1 x \/ free_byte l2 x.
Proof.
  unfold free_byte. split.
  - intros (f & Hf & Hx). apply elem_of_app in Hf as [Hf | Hf]; eauto.
  - intros [(f & Hf & Hx) | (f & Hf & Hx)]; exists f; (split; [apply elem_of_app; auto | exact Hx]).
Qed.

Lemma free_byte_cons f l x : free_byte (f :: l) x <-> f.1 <= x <= f.2 \/ free_byte l x.
Proof.
  unfold free_byte. split.
  - intros (g & Hg & Hx). apply elem_of_cons in Hg as [-> | Hg]; eauto.
  - intros [Hx | (g & Hg & Hx)]; [exists f | exists g]; (split; [apply elem_of_cons; auto | exact Hx]).
Qed.

Lemma free_byte_nil x : ~ free_byte [] x.
Proof.
  intros (f & Hf & _). apply elem_of_nil in Hf. exact Hf.
Qed.

Lemma free_byte_remnants b e ab ae x :
  b <= ab -> ab <= ae -> ae <= e ->
  (free_byte (remnants b e ab ae) x <-> b <= x <= e /\ ~ (ab <= x <= ae)).
Proof.
  intros Hb Hr He. unfold remnants. rewrite free_byte_app.
  assert (Hnil : free_byte [] x <-> False) by (split; [apply free_byte_nil | tauto]).
  destruct (Z.ltb_spec b ab), (Z.ltb_spec ae e);
    rewrite ?free_byte_cons, ?Hnil; simpl; lia.
Qed.

(** X22. On a free set that satisfies the invariant, a successful
    [mark_allocated] removes exactly the bytes of the range from the free
    space: a byte is free afterwards if and only if it was free before and
    lies outside the range. *)
Theorem mark_allocated_free_bytes (self s' : AllocatableBlock) (ab ae : Z) :
  free_set_wf (unallocated_ranges self) ->
  mark_allocated (ab, ae) self = Some (s', Ok tt) ->
  forall x, free_byte (unallocated_ranges s') x
            <-> free_byte (unallocated_ranges self) x /\ ~ (ab <= x <= ae).
Proof.
  intros Hwf Heq x. pose proof Hwf as Hg. apply free_set_wf_gapped in Hg.
  apply mark_allocated_ok_inv in Heq
    as (H0 & Hr & _ & pre & b & e & post & Hl & Hb & He & ->); [|exact Hwf].
  simpl. rewrite Hl in *. rewrite !free_byte_app, free_byte_cons.
  rewrite free_byte_remnants by lia. simpl.
  apply gapped_app in Hg as (_ & (Hv & Hpost & _) & Hcross).
  unfold valid_range in Hv. simpl in Hv, Hpost.
  assert (Hpre_out : free_byte pre x -> x < b).
  { intros (f & Hf & Hx). rewrite Forall_forall in Hcross.
    specialize (Hcross f Hf). inversion Hcross; subst. simpl in *. lia. }
  assert (Hpost_out : free_byte post x -> e < x).
  { intros (f & Hf & Hx). rewrite Forall_forall in Hpost.
    specialize (Hpost f Hf). lia. }
  split.
  - intros [Hp | [Hx | Hp]].
    + split; [auto|]. specialize (Hpre_out Hp). lia.
    + split; [right; left; lia | tauto].
    + split; [auto|]. specialize (Hpost_out Hp). lia.
  - intros [[Hp | [Hx | Hp]] Hout]; auto.
Qed.

Lemma mark_allocated_free_bytes_witness :
  let self := mkAllocatableBlock (mkBlock (replicate 16 x00%byte) 16)
                                 [(0, 2); (5, 12)] in
  (free_byte [(0, 2); (5, 6); (9, 12)] 7
   <-> free_byte (unallocated_ranges self) 7 /\ ~ (7 <= 7 <= 8)) /\
  (free_byte [(0, 2); (5, 6); (9, 12)] 9
   <-> free_byte (unallocated_ranges self) 9 /\ ~ (7 <= 9 <= 8)).
Proof.
  intros self.
  assert (Hwf : free_set_wf (unallocated_ranges self)).
  { apply free_set_wf_gapped. simpl. unfold valid_range. simpl.
    repeat split; repeat constructor; simpl; lia. }
  split.
  - exact (mark_allocated_free_bytes self (set_ranges self [(0, 2); (5, 6); (9, 12)])
             7 8 Hwf eq_refl 7).
  - exact (mark_allocated_free_bytes self (set_ranges self [(0, 2); (5, 6); (9, 12)])
             7 8 Hwf eq_refl 9).
Defined.

Lemma free_byte_dec l x : free_byte l x \/ ~ free_byte l x.
Proof.
  induction l as [|f l IH].
  - right. apply free_byte_nil.
  - rewrite free_byte_cons.
    destruct (Z.le_gt_cases f.1 x), (Z.le_gt_cases x f.2); try (left; left; lia);
      destruct IH; try (left; right; assumption); right; intros [? | ?]; try lia; auto.
Qed.

(** On a free set that satisfies the invariant, the byte after the end of
    an entry is not free. *)
Lemma gapped_next_byte_not_free l f :
  gapped l -> f ∈ l -> ~ free_byte l (f.2 + 1).
Proof.
  intros Hg Hf (g & Hin & Hy).
  apply list_elem_of_split in Hf as (l1 & l2 & Hl). rewrite Hl in Hin, Hg.
  apply gapped_app in Hg as (_ & (Hv & Hafter & _) & Hbefore).
  unfold valid_range in Hv.
  apply elem_of_app in Hin as [Hin | Hin].
  - rewrite Forall_forall in Hbefore. specialize (Hbefore g Hin).
    inversion Hbefore; subst. lia.
  - apply elem_of_cons in Hin as [-> | Hin]; [lia|].
    rewrite Forall_forall in Hafter. specialize (Hafter g Hin). lia.
Qed.

(** X23. On a free set that satisfies the invariant, [is_unallocated] of
    a valid range is true exactly when every byte of the range is free, so
    [is_allocated] is true as soon as one byte of it is not. *)
Theorem is_unallocated_all_bytes_free (self : AllocatableBlock) (r : range) :
  free_set_wf (unallocated_ranges self) ->
  check_range_validity r (size (block self)) = Ok tt ->
  (is_unallocated r self = (self, Ok true)
   <-> forall x, r.1 <= x <= r.2 -> free_byte (unallocated_ranges self) x) /\
  (is_allocated r self = (self, Ok true)
   <-> exists x, r.1 <= x <= r.2 /\ ~ free_byte (unallocated_ranges self) x).
Proof.
  intros Hwf Hc. apply free_set_wf_gapped in Hwf.
  pose proof (check_range_validity_ok_inv _ _ _ Hc) as (H0 & Hr & Hsz).
  pose proof (is_unallocated_true r self Hc) as Hu.
  assert (Hsome : (exists f, f ∈ unallocated_ranges self /\ inside r f) \/
                  (exists x, r.1 <= x <= r.2 /\ ~ free_byte (unallocated_ranges self) x)).
  { destruct (free_byte_dec (unallocated_ranges self) r.1) as [(f & Hf & Hx) | Hn];
      [|right; exists r.1; split; [lia | exact Hn]].
    destruct (Z.le_gt_cases r.2 f.2).
    - left. exists f. split; [exact Hf|]. unfold inside. lia.
    - right. exists (f.2 + 1). split; [lia|].
      apply gapped_next_byte_not_free; assumption. }
  assert (Hexcl : (exists f, f ∈ unallocated_ranges self /\ inside r f) ->
                  (exists x, r.1 <= x <= r.2 /\ ~ free_byte (unallocated_ranges self) x) ->
                  False).
  { intros (f & Hf & Hin) (x & Hx & Hn). apply Hn. exists f.
    split; [exact Hf|]. unfold inside in Hin. lia. }
  split.
  - rewrite Hu. split.
    + intros (f & Hf & Hin) x Hx. exists f. split; [exact Hf|]. unfold inside in Hin. lia.
    + intros Hfree. destruct Hsome as [Hin | (x & Hx & Hn)]; [exact Hin|].
      destruct (Hn (Hfree x Hx)).
  - split.
    + intros Ha. destruct Hsome as [Hin | Hx]; [|exact Hx].
      apply Hu in Hin. unfold is_allocated, bind in Ha. rewrite Hin in Ha. discriminate.
    + intros Hx. apply is_allocated_target; [exact Hc|].
      unfold misses. rewrite Forall_forall. intros f Hf Hin.
      apply Hexcl; eauto.
Qed.

Lemma is_unallocated_all_bytes_free_witness :
  let self := mkAllocatableBlock (mkBlock (replicate 16 x00%byte) 16)
                                 [(0, 2); (5, 12)] in
  (is_unallocated (2, 5) self = (self, Ok true)
   <-> forall x, 2 <= x <= 5 -> free_byte (unallocated_ranges self) x) /\
  (is_allocated (2, 5) self = (self, Ok true)
   <-> exists x, 2 <= x <= 5 /\ ~ free_byte (unallocated_ranges self) x).
Proof.
  intros self. apply (is_unallocated_all_bytes_free self (2, 5)); [|reflexivity].
  apply free_set_wf_gapped. simpl. unfold valid_range. simpl.
  repeat split; repeat constructor; simpl; lia.
Defined.

(** ** FormatExpander: header insertion and the remaining cases of [expand] *)

Lemma replicate_snoc_cons {A} (n : nat) (x : A) (l : list A) :
  replicate n x ++ x :: l = x :: replicate n x ++ l.
Proof.
  induction n as [|n IH]; simpl; [reflexivity|]. rewrite IH. reflexivity.
Qed.

(** The loop of [add_header]: [n] insertions of a zero at the front. *)
Lemma insert_zeros_loop n : forall lo self,
  for_count lo n
    (fun _ => modify (with_block (fun b => mkBlock (x00%byte :: data b) (size b)))) self
  = (set_block (mkBlock (replicate n x00%byte ++ rom_data self) (rom_size self)) self, Ok tt).
Proof.
  induction n as [|n IH]; intros lo self.
  - simpl. unfold ret. f_equal. destruct self as [[[d s] l] ty]. reflexivity.
  - cbn [for_count]. rewrite bind_modify, IH. f_equal.
    unfold set_block, with_block, rom_data, rom_size. simpl.
    rewrite replicate_snoc_cons. reflexivity.
Qed.

(** X24. [add_header] on an Earthbound ROM puts [0x200] zero bytes in
    front of the buffer and adds [0x200] to its size; the free ranges are
    left as they were, not shifted; dropping the first [0x200] bytes again
    gives the original buffer.  On any other type it raises
    [NotImplementedError] and changes nothing. *)
Theorem add_header_effect (self : Rom) :
  (type self = "Earthbound"%string ->
   exists s',
     add_header self = (s', Ok tt) /\
     rom_size s' = rom_size self + 0x200 /\
     rom_data s' = replicate (Z.to_nat 0x200) x00%byte ++ rom_data self /\
     unallocated_ranges (ablock s') = unallocated_ranges (ablock self) /\
     type s' = type self /\
     remove_header (rom_block s') = rom_block self) /\
  (type self <> "Earthbound"%string ->
   add_header self = (self, Raise NotImplementedError)).
Proof.
  unfold add_header. rewrite bind_gets. split.
  - intros Hty. rewrite Hty.
    replace (String.eqb "Earthbound" "Earthbound") with true
      by (symmetry; apply String.eqb_refl).
    unfold for_xrange, bind at 1. rewrite insert_zeros_loop. cbv beta iota. unfold modify.
    eexists. split; [reflexivity|].
    replace (Z.to_nat (0x200 - 0)) with (Z.to_nat 0x200) by reflexivity.
    split; [reflexivity|]. split; [reflexivity|]. split; [reflexivity|].
    split; [exact Hty|].
    unfold remove_header, rom_block, rom_data, rom_size, set_block, with_block.
    cbn [ablock block data size].
    rewrite drop_app_length' by (rewrite length_replicate; reflexivity).
    destruct self as [[[d s] l] ty]. cbn [ablock block data size]. f_equal. lia.
  - intros Hne. apply String.eqb_neq in Hne. rewrite Hne. reflexivity.
Qed.

Lemma add_header_effect_witness :
  let self := mkRom (mkAllocatableBlock (mkBlock [x07; x09]%byte 2) [(0, 1)]) "Earthbound" in
  exists s',
    add_header self = (s', Ok tt) /\
    rom_size s' = rom_size self + 0x200 /\
    rom_data s' = replicate (Z.to_nat 0x200) x00%byte ++ rom_data self /\
    unallocated_ranges (ablock s') = unallocated_ranges (ablock self) /\
    type s' = type self /\
    remove_header (rom_block s') = rom_block self.
Proof.
  intros self. exact (proj1 (add_header_effect self) eq_refl).
Defined.

(** X25. [expand] raises [NotImplementedError] on a ROM that is not
    Earthbound and [InvalidArgumentError] on an Earthbound ROM for a target
    other than [0x400000] and [0x600000], changing nothing.  With a legal
    target it returns normally and changes nothing when the size is not
    [0x300000] and either the size is not [0x400000] or the target is
    [0x400000]: a ROM of any other size is left at that size without an
    error. *)
Theorem expand_leaves_unchanged (self : Rom) (desired_size : Z) :
  (type self <> "Earthbound"%string ->
   expand desired_size self = (self, Raise NotImplementedError)) /\
  (type self = "Earthbound"%string ->
   desired_size <> 0x400000 -> desired_size <> 0x600000 ->
   expand desired_size self = (self, Raise InvalidArgumentError)) /\
  (type self = "Earthbound"%string ->
   desired_size = 0x400000 \/ desired_size = 0x600000 ->
   rom_size self <> 0x300000 ->
   rom_size self <> 0x400000 \/ desired_size = 0x400000 ->
   expand desired_size self = (self, Ok tt)).
Proof.
  unfold expand. rewrite bind_gets. repeat split.
  - intros Hne. apply String.eqb_neq in Hne. rewrite Hne. reflexivity.
  - intros -> H4 H6. replace (String.eqb "Earthbound" "Earthbound") with true
      by (symmetry; apply String.eqb_refl).
    destruct (Z.eqb_spec desired_size 0x400000); [contradiction|].
    destruct (Z.eqb_spec desired_size 0x600000); [contradiction|]. reflexivity.
  - intros -> Hd H3 H4. replace (String.eqb "Earthbound" "Earthbound") with true
      by (symmetry; apply String.eqb_refl).
    assert (Hlegal : negb (desired_size =? 0x400000) && negb (desired_size =? 0x600000) = false).
    { destruct Hd as [-> | ->]; reflexivity. }
    rewrite Hlegal. cbv iota. rewrite bind_gets.
    destruct (Z.eqb_spec (rom_size self) 0x300000); [contradiction|].
    rewrite bind_ret, bind_gets.
    destruct (Z.eqb_spec desired_size 0x600000) as [-> | _]; [|reflexivity].
    destruct (Z.eqb_spec (rom_size self) 0x400000); [|reflexivity].
    destruct H4 as [H4 | H4]; [contradiction | discriminate].
Qed.

Lemma expand_leaves_unchanged_witness :
  let self := mkRom (mkAllocatableBlock (mkBlock [x07; x09]%byte 2) []) "Earthbound" in
  expand 0x600000 self = (self, Ok tt) /\
  expand 0x500000 self = (self, Raise InvalidArgumentError).
Proof.
  intros self. split.
  - apply (proj2 (proj2 (expand_leaves_unchanged self 0x600000)));
      [reflexivity | right; reflexivity | discriminate | left; discriminate].
  - apply (proj1 (proj2 (expand_leaves_unchanged self 0x500000)));
      [reflexivity | discriminate | discriminate].
Defined.

(** X26. On an Earthbound ROM of [0x300000] bytes, [expand(0x400000)]
    appends [0x100000] zero bytes and changes nothing else, and expanding
    to [0x600000] afterwards gives the same ROM as expanding to [0x600000]
    in one call. *)
Theorem expand_in_two_steps (self : Rom) :
  type self = "Earthbound"%string ->
  rom_size self = 0x300000 ->
  exists s1,
    expand 0x400000 self = (s1, Ok tt) /\
    rom_size s1 = 0x400000 /\
    rom_data s1 = rom_data self ++ replicate (Z.to_nat 0x100000) x00%byte /\
    unallocated_ranges (ablock s1) = unallocated_ranges (ablock self) /\
    type s1 = type self /\
    expand 0x600000 s1 = expand 0x600000 self.
Proof.
  intros Hty Hsz.
  set (s1 := with_block (append_zeros 0x100000) self).
  assert (Hs1 : rom_size s1 = 0x400000).
  { change (rom_size s1) with (rom_size self + 0x100000). lia. }
  assert (Hty1 : type s1 = "Earthbound"%string) by exact Hty.
  exists s1. split; [|split; [exact Hs1|]]; [|repeat split].
  - unfold expand. rewrite bind_gets, Hty.
    replace (String.eqb "Earthbound" "Earthbound") with true
      by (symmetry; apply String.eqb_refl).
    change (negb (0x400000 =? 0x400000) && negb (0x400000 =? 0x600000)) with false.
    cbv iota. rewrite bind_gets, Hsz.
    change (0x300000 =? 0x300000) with true. cbv iota.
    rewrite bind_modify, bind_gets. reflexivity.
  - unfold expand. rewrite !bind_gets, Hty, Hty1.
    replace (String.eqb "Earthbound" "Earthbound") with true
      by (symmetry; apply String.eqb_refl).
    change (negb (0x600000 =? 0x400000) && negb (0x600000 =? 0x600000)) with false.
    cbv iota. rewrite !bind_gets, Hsz, Hs1.
    change (0x300000 =? 0x300000) with true.
    change (0x400000 =? 0x300000) with false. cbv iota.
    rewrite bind_ret, bind_modify. reflexivity.
Qed.

Lemma expand_in_two_steps_witness :
  exists s1,
    expand 0x400000 earthbound_example = (s1, Ok tt) /\
    rom_size s1 = 0x400000 /\
    rom_data s1 = rom_data earthbound_example ++ replicate (Z.to_nat 0x100000) x00%byte /\
    unallocated_ranges (ablock s1) = unallocated_ranges (ablock earthbound_example) /\
    type s1 = type earthbound_example /\
    expand 0x600000 s1 = expand 0x600000 earthbound_example.
Proof.
  exact (expand_in_two_steps earthbound_example
           (proj1 earthbound_example_wf) (proj2 (proj2 earthbound_example_wf))).
Defined.

(** ** FormatDetector: exceptions, provenance of the result, order *)

Lemma getitem_raise key blk e :
  0 <= key -> (getitem (PyInt key) blk).2 = Raise e ->
  e = OutOfBoundsError \/ (e = IndexError /\ ~ block_wf blk).
Proof.
  intros Hk. unfold getitem.
  destruct (Z.geb_spec key (size blk)); [intros [= <-]; auto|].
  destruct (array_get (data blk) key) as [b|e'] eqn:Hg; [discriminate|].
  simpl. intros [= <-]. right.
  assert (He : e' = IndexError).
  { unfold array_get in Hg. destruct (array_index (data blk) key); [|congruence].
    destruct (data blk !! n); congruence. }
  split; [exact He|]. intros Hwf.
  destruct (array_get_nonneg (data blk) key Hk) as (x & _ & Hx);
    [unfold block_wf in Hwf; lia | congruence].
Qed.

Lemma getitem_slice_raise offset n blk e :
  0 <= n -> (getitem_slice offset (offset + n) blk).2 = Raise e -> e = OutOfBoundsError.
Proof.
  intros Hn. unfold getitem_slice.
  destruct (Z.gtb_spec offset (offset + n)); [lia|].
  destruct ((offset <? 0) || (offset + n - 1 >=? size blk)); [|discriminate].
  intros [= <-]. reflexivity.
Qed.

Lemma probe_raise a b c d offset data_ blk e :
  0 <= a -> 0 <= b -> 0 <= c -> 0 <= d ->
  (probe a b c d offset data_ blk).2 = Raise e ->
  e = OutOfBoundsError \/ (e = IndexError /\ ~ block_wf blk).
Proof.
  intros Ha Hb Hc Hd. unfold probe, bind, ret.
  pose proof (getitem_state a blk) as Hs. pose proof (getitem_raise a blk) as Hr.
  destruct (getitem (PyInt a) blk) as [s1 [xa|e1]]; simpl in Hs, Hr; subst s1;
    [|intros [= <-]; auto].
  clear Hr. pose proof (getitem_state b blk) as Hs. pose proof (getitem_raise b blk) as Hr.
  destruct (getitem (PyInt b) blk) as [s1 [xb|e1]]; simpl in Hs, Hr; subst s1;
    [|intros [= <-]; auto].
  destruct (negb (Z.land (Z.lnot xa) 255 =? xb)); [discriminate|].
  clear Hr. pose proof (getitem_state c blk) as Hs. pose proof (getitem_raise c blk) as Hr.
  destruct (getitem (PyInt c) blk) as [s1 [xc|e1]]; simpl in Hs, Hr; subst s1;
    [|intros [= <-]; auto].
  clear Hr. pose proof (getitem_state d blk) as Hs. pose proof (getitem_raise d blk) as Hr.
  destruct (getitem (PyInt d) blk) as [s1 [xd|e1]]; simpl in Hs, Hr; subst s1;
    [|intros [= <-]; auto].
  destruct (negb (Z.land (Z.lnot xc) 255 =? xd)); [discriminate|].
  clear Hr.
  pose proof (getitem_slice_state offset (offset + len data_) blk) as Hs.
  pose proof (getitem_slice_raise offset (len data_) blk) as Hr.
  destruct (getitem_slice offset (offset + len data_) blk) as [s1 [sl|e1]];
    simpl in Hs, Hr; subst s1; [discriminate|].
  intros [= <-]. left. apply Hr; [unfold len; lia | reflexivity].
Qed.

Lemma try_probe_raise a b c d offset data_ strip type_name v self e :
  0 <= a -> 0 <= b -> 0 <= c -> 0 <= d ->
  (try_probe a b c d offset data_ strip type_name v self).2 = Raise e ->
  e = IndexError /\ ~ block_wf (rom_block self).
Proof.
  intros Ha Hb Hc Hd. unfold try_probe, try_except_OutOfBounds, bind.
  rewrite on_rom_block_eq.
  pose proof (probe_raise a b c d offset data_ (rom_block self)) as Hr.
  destruct (probe a b c d offset data_ (rom_block self)) as [blk [hit|e1]];
    cbn [fst snd] in *.
  - destruct hit; [destruct strip|]; unfold bind, modify, ret; discriminate.
  - destruct (Hr e1 Ha Hb Hc Hd eq_refl) as [-> | [-> Hn]]; [discriminate|].
    intros [= <-]. auto.
Qed.

Lemma detect_entry_raise type_name d self e :
  (detect_entry type_name d self).2 = Raise e ->
  e = IndexError /\ ~ block_wf (rom_block self).
Proof.
  unfold detect_entry.
  destruct (String.eqb (d_platform d) "SNES").
  - unfold bind at 1.
    destruct (try_probe 65500 65502 65501 65503 (d_offset d) (d_data d) false
                        type_name UnheaderedHiROM self) as [s1 r1] eqn:H1.
    pose proof (try_probe_raise 65500 65502 65501 65503 (d_offset d) (d_data d) false
                  type_name UnheaderedHiROM self) as R1. rewrite H1 in R1.
    apply try_probe_spec in H1 as [(-> & _ & ->) | (-> & Hn1)]; [discriminate|].
    destruct r1 as [[x|]|e1]; [discriminate| |intros [= <-]; apply R1; try lia; reflexivity].
    unfold bind at 1.
    destruct (try_probe 32732 32734 32733 32735 (d_offset d) (d_data d) false
                        type_name UnheaderedLoROM self) as [s2 r2] eqn:H2.
    pose proof (try_probe_raise 32732 32734 32733 32735 (d_offset d) (d_data d) false
                  type_name UnheaderedLoROM self) as R2. rewrite H2 in R2.
    apply try_probe_spec in H2 as [(-> & _ & ->) | (-> & Hn2)]; [discriminate|].
    destruct r2 as [[x|]|e2]; [discriminate| |intros [= <-]; apply R2; try lia; reflexivity].
    unfold bind at 1.
    destruct (try_probe 66012 66014 66013 66015 (d_offset d + 512) (d_data d) true
                        type_name HeaderedHiROM self) as [s3 r3] eqn:H3.
    pose proof (try_probe_raise 66012 66014 66013 66015 (d_offset d + 512) (d_data d) true
                  type_name HeaderedHiROM self) as R3. rewrite H3 in R3.
    apply try_probe_spec in H3 as [(-> & _ & ->) | (-> & Hn3)]; [discriminate|].
    destruct r3 as [[x|]|e3]; [discriminate| |intros [= <-]; apply R3; try lia; reflexivity].
    apply try_probe_raise; lia.
  - unfold try_except_OutOfBounds, bind. rewrite on_rom_block_eq.
    pose proof (getitem_slice_raise (d_offset d) (len (d_data d)) (rom_block self)) as Hr.
    destruct (getitem_slice (d_offset d) (d_offset d + len (d_data d)) (rom_block self))
      as [blk [sl|e1]]; cbn [fst snd] in *.
    + destruct (list_eqb (to_list sl) (d_data d)); discriminate.
    + rewrite (Hr e1) by (unfold len; lia || reflexivity). discriminate.
Qed.

(** X27. Format detection never lets an [OutOfBoundsError] escape, and on
    a buffer whose size is its length it raises nothing at all: it always
    returns a type name, whatever the table. *)
Theorem detect_type_never_raises (ROM_TYPE_MAP : list (string * descriptor)) (self : Rom) :
  (_detect_type ROM_TYPE_MAP self).2 <> Raise OutOfBoundsError /\
  (block_wf (rom_block self) ->
   exists s' name, _detect_type ROM_TYPE_MAP self = (s', Ok name)).
Proof.
  assert (Hraise : forall e, (detect_type_variant ROM_TYPE_MAP self).2 = Raise e ->
                             e = IndexError /\ ~ block_wf (rom_block self)).
  { induction ROM_TYPE_MAP as [|[type_name d] rest IH]; intros e; simpl; [discriminate|].
    unfold bind.
    pose proof (detect_entry_raise type_name d self) as Hr.
    destruct (detect_entry type_name d self) as [s1 r1] eqn:H1.
    apply detect_entry_spec in H1 as [(v1 & -> & _) | (-> & Hn)]; [discriminate|].
    destruct r1 as [[x|]|e1]; [destruct (Hn x eq_refl) | apply IH |].
    simpl. intros [= <-]. apply Hr. reflexivity. }
  unfold _detect_type, bind.
  destruct (detect_type_variant ROM_TYPE_MAP self) as [s' [[name v]|e]] eqn:Hd;
    simpl in *.
  - split; [discriminate|]. intros _. eauto.
  - destruct (Hraise e eq_refl) as [-> Hn]. split; [discriminate|].
    intros Hwf. contradiction.
Qed.

Lemma detect_type_never_raises_witness :
  exists s' name, _detect_type example_type_map
                    (mkRom (mkAllocatableBlock (mkBlock [x07; x09]%byte 2) []) "x")
                  = (s', Ok name).
Proof.
  apply (proj2 (detect_type_never_raises example_type_map
                  (mkRom (mkAllocatableBlock (mkBlock [x07; x09]%byte 2) []) "x"))).
  reflexivity.
Defined.

Lemma try_probe_variant a b c d offset data_ strip type_name v self s' x :
  try_probe a b c d offset data_ strip type_name v self = (s', Ok (Some x)) ->
  x = (type_name, v).
Proof.
  intros H. apply try_probe_spec in H as [(Hr & _) | (_ & Hn)]; [congruence|].
  destruct (Hn x eq_refl).
Qed.

(** The name and the variant that one table entry can produce. *)
Lemma detect_entry_variant type_name d self s' name v :
  detect_entry type_name d self = (s', Ok (Some (name, v))) ->
  name = type_name /\ v <> NoMatch /\
  (v = Generic <-> d_platform d <> "SNES"%string).
Proof.
  unfold detect_entry.
  destruct (String.eqb_spec (d_platform d) "SNES") as [Hp | Hp].
  - assert (Hv : forall x : variant, x <> Generic -> x <> NoMatch ->
                   (type_name, x) = (name, v) ->
                   name = type_name /\ v <> NoMatch /\ (v = Generic <-> d_platform d <> "SNES"%string)).
    { intros x Hx1 Hx2 [= <- <-]. split; [reflexivity|]. split; [exact Hx2|].
      split; [contradiction | intros Hne; contradiction]. }
    unfold bind at 1.
    destruct (try_probe 65500 65502 65501 65503 (d_offset d) (d_data d) false
                        type_name UnheaderedHiROM self) as [s1 r1] eqn:H1.
    destruct r1 as [[x|]|e1]; [| |discriminate].
    { apply try_probe_variant in H1. subst x. unfold ret. intros Hx.
      apply (Hv UnheaderedHiROM); [discriminate | discriminate | congruence]. }
    unfold bind at 1.
    destruct (try_probe 32732 32734 32733 32735 (d_offset d) (d_data d) false
                        type_name UnheaderedLoROM s1) as [s2 r2] eqn:H2.
    destruct r2 as [[x|]|e2]; [| |discriminate].
    { apply try_probe_variant in H2. subst x. unfold ret. intros Hx.
      apply (Hv UnheaderedLoROM); [discriminate | discriminate | congruence]. }
    unfold bind at 1.
    destruct (try_probe 66012 66014 66013 66015 (d_offset d + 512) (d_data d) true
                        type_name HeaderedHiROM s2) as [s3 r3] eqn:H3.
    destruct r3 as [[x|]|e3]; [| |discriminate].
    { apply try_probe_variant in H3. subst x. unfold ret. intros Hx.
      apply (Hv HeaderedHiROM); [discriminate | discriminate | congruence]. }
    intros H4. apply try_probe_variant in H4.
    apply (Hv HeaderedLoROM); [discriminate | discriminate | congruence].
  - unfold try_except_OutOfBounds, bind. rewrite on_rom_block_eq.
    destruct (getitem_slice (d_offset d) (d_offset d + len (d_data d)) (rom_block self))
      as [blk [sl|e1]]; cbn [fst snd].
    + destruct (list_eqb (to_list sl) (d_data d)); unfold ret; [|discriminate].
      intros [= _ <- <-]. split; [reflexivity|]. split; [discriminate|]. tauto.
    + destruct e1; discriminate.
Qed.

(** On a block whose size is its length, a single-byte read at an offset
    that is not negative returns the byte there or raises
    [OutOfBoundsError]. *)
Lemma getitem_wf blk a :
  block_wf blk -> 0 <= a ->
  getitem (PyInt a) blk =
    (blk, match data blk !! Z.to_nat a with
          | Some x => Ok (byte_to_Z x)
          | None => Raise OutOfBoundsError
          end).
Proof.
  intros Hwf Ha. destruct (Z.lt_ge_cases a (size blk)) as [Hlt | Hge].
  - destruct (getitem_in_bounds blk a Hwf (conj Ha Hlt)) as (x & -> & ->). reflexivity.
  - rewrite lookup_ge_None_2 by (unfold block_wf, len in Hwf; lia).
    unfold getitem. destruct (Z.geb_spec a (size blk)); [reflexivity | lia].
Qed.

Lemma getitem_slice_signature blk offset data_ :
  (exists sl, getitem_slice offset (offset + len data_) blk = (blk, Ok sl) /\
              list_eqb (to_list sl) data_ = signature_at blk offset data_) \/
  (getitem_slice offset (offset + len data_) blk = (blk, Raise OutOfBoundsError) /\
   signature_at blk offset data_ = false).
Proof.
  unfold getitem_slice, signature_at.
  assert (Hlen : 0 <= len data_) by (unfold len; lia).
  destruct (Z.gtb_spec offset (offset + len data_)); [lia|].
  destruct (Z.ltb_spec offset 0), (Z.leb_spec 0 offset); try lia; cbn [orb andb].
  { right. auto. }
  destruct (Z.geb_spec (offset + len data_ - 1) (size blk)),
           (Z.leb_spec (offset + len data_) (size blk)); try lia; cbn [orb andb].
  { right. auto. }
  left. eexists. split; reflexivity.
Qed.

(** A SNES probe reads only, and finds exactly the layout it asks for;
    when it raises, it raises [OutOfBoundsError]. *)
Lemma probe_wf a b c d offset data_ blk :
  block_wf blk -> 0 <= a -> 0 <= b -> 0 <= c -> 0 <= d ->
  probe a b c d offset data_ blk = (blk, Ok (snes_layout blk a b c d offset data_)) \/
  (probe a b c d offset data_ blk = (blk, Raise OutOfBoundsError) /\
   snes_layout blk a b c d offset data_ = false).
Proof.
  intros Hwf Ha Hb Hc Hd. unfold probe, snes_layout, complement_at, bind, ret.
  rewrite (getitem_wf blk a Hwf Ha).
  destruct (data blk !! Z.to_nat a) as [xa|]; [|right; auto].
  rewrite (getitem_wf blk b Hwf Hb).
  destruct (data blk !! Z.to_nat b) as [xb|]; [|right; auto].
  destruct (Z.land (Z.lnot (byte_to_Z xa)) 255 =? byte_to_Z xb); cbn [negb andb];
    [|left; reflexivity].
  rewrite (getitem_wf blk c Hwf Hc).
  destruct (data blk !! Z.to_nat c) as [xc|]; [|right; auto].
  rewrite (getitem_wf blk d Hwf Hd).
  destruct (data blk !! Z.to_nat d) as [xd|]; [|right; auto].
  destruct (Z.land (Z.lnot (byte_to_Z xc)) 255 =? byte_to_Z xd); cbn [negb andb];
    [|left; reflexivity].
  destruct (getitem_slice_signature blk offset data_) as [(sl & -> & <-) | (-> & ->)];
    [left; reflexivity | right; auto].
Qed.

(** The buffer after the [return] statement [v]. *)
Lemma try_probe_wf a b c d offset data_ strip type_name v self :
  block_wf (rom_block self) -> 0 <= a -> 0 <= b -> 0 <= c -> 0 <= d ->
  try_probe a b c d offset data_ strip type_name v self =
    if snes_layout (rom_block self) a b c d offset data_
    then (if strip then with_block remove_header self else self, Ok (Some (type_name, v)))
    else (self, Ok None).
Proof.
  intros Hwf Ha Hb Hc Hd. unfold try_probe, try_except_OutOfBounds, bind.
  rewrite on_rom_block_eq.
  destruct (probe_wf a b c d offset data_ (rom_block self) Hwf Ha Hb Hc Hd)
    as [-> | [-> ->]]; cbn [fst snd]; rewrite set_block_same; [|reflexivity].
  destruct (snes_layout (rom_block self) a b c d offset data_); [|reflexivity].
  destruct strip; reflexivity.
Qed.

(** One table entry: the first layout the buffer shows decides, and the
    header goes with the two headered layouts. *)
Lemma detect_entry_wf type_name d self :
  block_wf (rom_block self) ->
  detect_entry type_name d self =
    match entry_match d (rom_block self) with
    | Some v => (match v with
                 | HeaderedHiROM | HeaderedLoROM => with_block remove_header self
                 | _ => self
                 end, Ok (Some (type_name, v)))
    | None => (self, Ok None)
    end.
Proof.
  intros Hwf. unfold detect_entry, entry_match.
  destruct (String.eqb (d_platform d) "SNES").
  - unfold bind at 1. rewrite try_probe_wf by (auto; lia).
    destruct (snes_layout (rom_block self) 65500 65502 65501 65503 (d_offset d) (d_data d));
      [reflexivity|].
    unfold bind at 1. rewrite try_probe_wf by (auto; lia).
    destruct (snes_layout (rom_block self) 32732 32734 32733 32735 (d_offset d) (d_data d));
      [reflexivity|].
    unfold bind at 1. rewrite try_probe_wf by (auto; lia).
    destruct (snes_layout (rom_block self) 66012 66014 66013 66015 (d_offset d + 512)
                          (d_data d)); [reflexivity|].
    rewrite try_probe_wf by (auto; lia).
    destruct (snes_layout (rom_block self) 33244 33246 33245 33247 (d_offset d + 512)
                          (d_data d)); reflexivity.
  - unfold try_except_OutOfBounds, bind. rewrite on_rom_block_eq.
    destruct (getitem_slice_signature (rom_block self) (d_offset d) (d_data d))
      as [(sl & -> & <-) | (-> & ->)]; cbn [fst snd]; rewrite set_block_same;
      [|reflexivity].
    destruct (list_eqb (to_list sl) (d_data d)); reflexivity.
Qed.

(** X28. On a buffer whose size is its length, [_detect_type] returns
    the name of the first table entry one of whose layouts the bytes of
    the buffer show, through the [return] statement of the first such
    layout, and removes the header exactly for the two headered layouts;
    it returns the "Unknown" name exactly when no entry of the table has a
    layout that the buffer shows, and then the buffer is untouched. *)
Theorem detect_type_result (ROM_TYPE_MAP : list (string * descriptor)) (self : Rom) :
  block_wf (rom_block self) ->
  detect_type_variant ROM_TYPE_MAP self =
    match first_match ROM_TYPE_MAP (rom_block self) with
    | Some (name, v) => (match v with
                         | HeaderedHiROM | HeaderedLoROM => with_block remove_header self
                         | _ => self
                         end, Ok (name, v))
    | None => (self, Ok (ROM_TYPE_NAME_UNKNOWN, NoMatch))
    end /\
  (first_match ROM_TYPE_MAP (rom_block self) = None <->
   forall name d, (name, d) ∈ ROM_TYPE_MAP -> entry_match d (rom_block self) = None) /\
  (forall name v, first_match ROM_TYPE_MAP (rom_block self) = Some (name, v) ->
   exists t1 d t2,
     ROM_TYPE_MAP = t1 ++ (name, d) :: t2 /\
     entry_match d (rom_block self) = Some v /\
     (v = Generic <-> d_platform d <> "SNES"%string) /\
     forall name' d', (name', d') ∈ t1 -> entry_match d' (rom_block self) = None).
Proof.
  intros Hwf. split; [|split].
  - induction ROM_TYPE_MAP as [|[type_name d] rest IH]; [reflexivity|].
    cbn [detect_type_variant first_match]. unfold bind at 1.
    rewrite (detect_entry_wf type_name d self Hwf).
    destruct (entry_match d (rom_block self)) as [v|]; [reflexivity | exact IH].
  - induction ROM_TYPE_MAP as [|[type_name d] rest IH]; cbn [first_match].
    + split; [|reflexivity]. intros _ name d Hin. inversion Hin.
    + destruct (entry_match d (rom_block self)) as [v|] eqn:Hm.
      * split; [discriminate|]. intros Hall.
        rewrite (Hall type_name d) in Hm by (apply elem_of_cons; auto). discriminate.
      * rewrite IH. split.
        -- intros Hall name d' Hin. apply elem_of_cons in Hin as [[= -> ->] | Hin];
             [exact Hm | exact (Hall name d' Hin)].
        -- intros Hall name d' Hin. apply (Hall name). apply elem_of_cons. auto.
  - induction ROM_TYPE_MAP as [|[type_name d] rest IH]; cbn [first_match];
      intros name v; [discriminate|].
    destruct (entry_match d (rom_block self)) as [v1|] eqn:Hm.
    + intros [= <- <-]. exists [], d, rest. split; [reflexivity|]. split; [exact Hm|].
      split; [|intros name' d' Hin; inversion Hin].
      unfold entry_match in Hm.
      destruct (String.eqb_spec (d_platform d) "SNES") as [Hp | Hp].
      * split; [|contradiction]. intros ->.
        repeat match type of Hm with
               | (if ?c then _ else _) = _ => destruct c
               end; discriminate.
      * destruct (signature_at (rom_block self) (d_offset d) (d_data d)); [|discriminate].
        injection Hm as <-. split; auto.
    + intros Hf. destruct (IH name v Hf) as (t1 & d' & t2 & -> & Hm' & Hg & Hall).
      exists ((type_name, d) :: t1), d', t2. split; [reflexivity|].
      split; [exact Hm'|]. split; [exact Hg|].
      intros name' d'' Hin. apply elem_of_cons in Hin as [[= -> ->] | Hin];
        [exact Hm | exact (Hall name' d'' Hin)].
Qed.

Lemma detect_type_result_witness :
  detect_type_variant two_entry_type_map headered_lorom_example
    = (with_block remove_header headered_lorom_example,
       Ok ("Earthbound"%string, HeaderedLoROM)) /\
  detect_type_variant two_entry_type_map
      (mkRom (mkAllocatableBlock (mkBlock [x07; x09]%byte 2) []) "x")
    = (mkRom (mkAllocatableBlock (mkBlock [x07; x09]%byte 2) []) "x",
       Ok (ROM_TYPE_NAME_UNKNOWN, NoMatch)).
Proof.
  split.
  - assert (Hwf : block_wf (rom_block headered_lorom_example)) by (vm_compute; reflexivity).
    assert (Hf : first_match two_entry_type_map (rom_block headered_lorom_example)
                 = Some ("Earthbound"%string, HeaderedLoROM)) by (vm_compute; reflexivity).
    pose proof (proj1 (detect_type_result two_entry_type_map headered_lorom_example Hwf)) as H.
    rewrite Hf in H. exact H.
  - exact (proj1 (detect_type_result two_entry_type_map
                    (mkRom (mkAllocatableBlock (mkBlock [x07; x09]%byte 2) []) "x")
                    eq_refl)).
Defined.

(** X29. The first entry that matches decides: entries after a match are
    never consulted, and a run of entries that match nothing is skipped
    without any effect. *)
Theorem detect_type_first_match (t1 t2 : list (string * descriptor))
    (self s' : Rom) (name : string) (v : variant) :
  detect_type_variant t1 self = (s', Ok (name, v)) ->
  (v <> NoMatch -> detect_type_variant (t1 ++ t2) self = (s', Ok (name, v))) /\
  (v = NoMatch -> detect_type_variant (t1 ++ t2) self = detect_type_variant t2 self).
Proof.
  revert self s' name v. induction t1 as [|[type_name d] rest IH]; intros self s' name v; simpl.
  - unfold ret. intros [= _ _ <-]. split; [contradiction | reflexivity].
  - unfold bind.
    destruct (detect_entry type_name d self) as [s1 r1] eqn:H1.
    destruct r1 as [[[n1 v1]|]|e1]; [| |discriminate].
    + unfold ret. intros [= <- <- <-].
      apply detect_entry_variant in H1 as (_ & Hv & _).
      split; [reflexivity | contradiction].
    + apply detect_entry_spec in H1 as [(v1 & Hr & _) | (-> & _)]; [discriminate|].
      apply IH.
Qed.

Lemma detect_type_first_match_witness :
  detect_type_variant
    (example_type_map ++ [("Other"%string, mkDescriptor 0x200 [1; 2] "generic")])
    headered_lorom_example
  = ((detect_type_variant example_type_map headered_lorom_example).1,
     Ok ("Earthbound"%string, HeaderedLoROM)).
Proof.
  assert (Hr : (detect_type_variant example_type_map headered_lorom_example).2
               = Ok ("Earthbound"%string, HeaderedLoROM))
    by (vm_compute; reflexivity).
  refine (proj1 (detect_type_first_match example_type_map _ headered_lorom_example
                   _ "Earthbound" HeaderedLoROM _) _); [|discriminate].
  rewrite <- Hr. apply surjective_pairing.
Defined.

(** X30. An entry of a platform other than SNES matches exactly when its
    signature range lies inside the buffer and holds the signature bytes;
    then its name is returned and the buffer is untouched; when the range
    is out of bounds or the bytes differ, detection goes on with the rest
    of the table. *)
Theorem detect_type_generic_entry (type_name : string) (d : descriptor)
    (rest : list (string * descriptor)) (self : Rom) :
  d_platform d <> "SNES"%string ->
  let offset := d_offset d in
  let stop := d_offset d + len (d_data d) in
  detect_type_variant ((type_name, d) :: rest) self =
    if (0 <=? offset) && (stop <=? rom_size self)
       && list_eqb (map byte_to_Z (array_slice (rom_data self) offset stop)) (d_data d)
    then (self, Ok (type_name, Generic))
    else detect_type_variant rest self.
Proof.
  intros Hp offset stop. subst offset stop.
  cbn [detect_type_variant]. unfold bind at 1, detect_entry.
  apply String.eqb_neq in Hp. rewrite Hp.
  unfold try_except_OutOfBounds, bind. rewrite on_rom_block_eq.
  unfold getitem_slice.
  set (offset := d_offset d). set (stop := offset + len (d_data d)).
  assert (Hlen : offset <= stop) by (unfold stop, offset, len; lia).
  destruct (Z.gtb_spec offset stop); [lia|].
  change (size (rom_block self)) with (rom_size self).
  change (data (rom_block self)) with (rom_data self).
  destruct (Z.ltb_spec offset 0), (Z.leb_spec 0 offset); try lia; cbn [fst snd andb orb].
  { rewrite set_block_same. reflexivity. }
  destruct (Z.geb_spec (stop - 1) (rom_size self)), (Z.leb_spec stop (rom_size self));
    try lia; cbn [fst snd andb orb].
  { rewrite set_block_same. reflexivity. }
  rewrite set_block_same. unfold to_list, from_array. cbn [data].
  destruct (list_eqb _ (d_data d)); reflexivity.
Qed.

Lemma detect_type_generic_entry_witness :
  let self := mkRom (mkAllocatableBlock (mkBlock [x07; x09; x01]%byte 3) []) "x" in
  detect_type_variant [("Tiny"%string, mkDescriptor 1 [9; 1] "generic")] self
  = (self, Ok ("Tiny"%string, Generic)).
Proof.
  intros self.
  exact (detect_type_generic_entry "Tiny" (mkDescriptor 1 [9; 1] "generic") [] self
           ltac:(discriminate)).
Defined.
